(** * Speaker attribution and re-segmentation of [transcribe_gui.py]

    A shallow embedding of the diarization and re-segmentation code of
    [TranscriptionApp.transcribe_file], of the file loop of
    [TranscriptionApp.process_files], of [format_timestamp] and of the
    helper [assign_speakers_to_words] of [scripts/dev/test_pyannote.py],
    together with the properties the specification states about them.
    The queue handlers of the window ([add_files_to_queue],
    [on_file_click], [remove_selected_file], [update_start_button],
    [start_transcription], [transcription_complete]) with
    [MacButton._on_click], the settings file ([load_config],
    [save_config]) and the helpers [format_transcript] and [get_hf_token]
    of the development scripts are embedded as well, with further
    properties of the code at the end.

    Conventions of the embedding:
    - a Python [str] holding transcribed text is a list of Unicode code
      points ([pystr]); speaker labels, which the code builds itself, are
      [string]s;
    - a Python [float] holding a time in seconds or a progress percentage
      is a rational number ([Q]); every finite float is one. The
      midpoints of words, segments and windows, the distances between
      them and the percentages of the file loop are rounded to binary64
      as the code rounds them ([Float.round64]); the sums of multiples
      of the window stride, which binary64 holds exactly for every
      length of a recording, the floor division of times, and the
      progress within a file, of which only order and bounds are stated,
      are taken exactly;
    - [None] where the code uses it for "no speaker" is [None : option _];
    - the external collaborators (transcription model, embedding model,
      clustering primitive, diarization pipeline) are parameters. *)

From Stdlib Require Import Ascii String QArith Qround Qabs Sorted Lqa.
From Stdlib Require Import DecimalString DecimalN.
From stdpp Require Import base list strings gmap sorting.

Local Open Scope nat_scope.

(** ** Text *)

Module Text.

(** A Python [str]: the sequence of its code points. *)
Abbreviation pystr := (list N).

Definition of_string (s : string) : pystr :=
  map N_of_ascii (String.list_ascii_of_string s).

(** [str.isspace] on one code point: the characters [str.strip()]
    removes when called without argument. *)
Definition isspace (c : N) : bool :=
  ((9 <=? c) && (c <=? 13) || (28 <=? c) && (c <=? 32)
   || (c =? 133) || (c =? 160) || (c =? 5760)
   || (8192 <=? c) && (c <=? 8202)
   || (c =? 8232) || (c =? 8233) || (c =? 8239) || (c =? 8287)
   || (c =? 12288))%N.

Fixpoint lstrip (s : pystr) : pystr :=
  match s with
  | c :: s' => if isspace c then lstrip s' else s
  | [] => []
  end.

Definition rstrip (s : pystr) : pystr := reverse (lstrip (reverse s)).

(** [s.strip()] *)
Definition strip (s : pystr) : pystr := rstrip (lstrip s).

(** [sep.join(l)] *)
Fixpoint join (sep : pystr) (l : list pystr) : pystr :=
  match l with
  | [] => []
  | [x] => x
  | x :: xs => x ++ sep ++ join sep xs
  end.

Definition space : pystr := [32%N].

(** The text with every whitespace character removed: what is left when
    whitespace is ignored. *)
Definition squeeze (s : pystr) : pystr :=
  filter (fun c => isspace c = false) s.

End Text.

Import Text.

(** ** Floating-point arithmetic *)

Module Float.

(** A finite Python [float] is the rational number it stands for, and an
    arithmetic operation on floats gives the exact result rounded to the
    nearest binary64 number, ties to the even significand ([round64]).
    Comparisons, [min], [abs] and negation are exact and need no
    rounding. Results beyond the largest finite float (about 1.8e308),
    where Python gives [inf], are outside the model. *)

(** The integer part of the binary logarithm of [q > 0]. *)
Definition ilog2 (q : Q) : Z :=
  let e := (Z.log2 (Qnum q) - Z.log2 (Zpos (Qden q)))%Z in
  if Qle_bool (2 ^ e) q then e else (e - 1)%Z.

(** The nearest integer, the even one of two that are equally near. *)
Definition nearest_even (q : Q) : Z :=
  let f := Qfloor q in
  match (q - inject_Z f ?= 1 # 2)%Q with
  | Lt => f
  | Gt => (f + 1)%Z
  | Eq => if Z.even f then f else (f + 1)%Z
  end.

(** Rounding to binary64: 53 significant bits, and no bit below
    [2 ^ -1074]. *)
Definition round64 (q : Q) : Q :=
  if Qeq_bool q 0 then 0%Q
  else
    let a := Qabs q in
    let u := Z.max (ilog2 a - 52) (-1074) in
    let r := (inject_Z (nearest_even (a / 2 ^ u)) * 2 ^ u)%Q in
    Qred (if Qle_bool 0 q then r else (- r)%Q).

(** [a + b], [a - b], [a * b] and [a / b] on floats. *)
Definition fadd (a b : Q) : Q := round64 (a + b).
Definition fsub (a b : Q) : Q := round64 (a - b).
Definition fmul (a b : Q) : Q := round64 (a * b).
Definition fdiv (a b : Q) : Q := round64 (a / b).

Arguments round64 : simpl never.

End Float.

(** ** Data carried through the pipeline *)

(** A word of the transcription model ([segment.words] entries):
    [word.word], [word.start], [word.end], and the [speaker] attribute the
    embedding diarizer sets on it. *)
Record Word := mkWord {
  w_word : pystr;
  w_start : Q;
  w_end : Q;
  w_speaker : option string
}.

(** [class SegmentWithSpeaker] *)
Record SegmentWithSpeaker := mkSeg {
  text : pystr;
  start : Q;
  end_ : Q;
  speaker : option string
}.

(** ** The Resegmenter: the loop over [all_words] *)

Module Reseg.

(** The four variables of the loop. *)
Record state := mkState {
  new_segments : list SegmentWithSpeaker;
  current_speaker : option string;
  current_words : list Word;
  current_start : Q
}.

(** [' '.join([w.word.strip() for w in current_words])] *)
Definition words_text (ws : list Word) : pystr :=
  join space (map (fun w => strip (w_word w)) ws).

(** [current_words[-1].end]; only evaluated on a non-empty list. *)
Definition last_end (ws : list Word) : Q :=
  match last ws with Some w => w_end w | None => 0%Q end.

(** The segment appended when a run is closed. *)
Definition flush (st : state) : SegmentWithSpeaker :=
  mkSeg (words_text (current_words st)) (current_start st)
        (last_end (current_words st)) (current_speaker st).

Definition nonempty {A} (l : list A) : bool :=
  match l with [] => false | _ => true end.

(** One iteration of [for word in all_words], given the label the
    iteration compares ([word.speaker] in the embedding path,
    [word_speaker] in the turn-interval path). *)
Definition step_with (lbl : option string) (st : state) (w : Word) : state :=
  if bool_decide (lbl ≠ current_speaker st) && nonempty (current_words st)
  then mkState (new_segments st ++ [flush st]) lbl [w] (w_start w)
  else mkState (new_segments st)
               (if nonempty (current_words st) then current_speaker st else lbl)
               (current_words st ++ [w])
               (current_start st).

Definition step (st : state) (w : Word) : state :=
  step_with (w_speaker w) st w.

(** [# Add final segment] *)
Definition finish (st : state) : list SegmentWithSpeaker :=
  if nonempty (current_words st)
  then new_segments st ++ [flush st]
  else new_segments st.

(** [current_start = all_words[0].start if all_words else 0] *)
Definition first_start (ws : list Word) : Q :=
  match ws with w :: _ => w_start w | [] => 0%Q end.

Definition init (ws : list Word) : state :=
  mkState [] None [] (first_start ws).

(** [# Re-segment based on speaker changes] *)
Definition resegment (all_words : list Word) : list SegmentWithSpeaker :=
  finish (foldl step (init all_words) all_words).

(** *** The specification side: maximal runs of equal speaker *)

Fixpoint runs (ws : list Word) : list (list Word) :=
  match ws with
  | [] => []
  | w :: ws' =>
      match runs ws' with
      | (w' :: r) :: rs =>
          if decide (w_speaker w = w_speaker w')
          then (w :: w' :: r) :: rs
          else [w] :: (w' :: r) :: rs
      | _ => [[w]]
      end
  end.

(** All the words of a run carry the label [sp], and there is one. *)
Definition is_run (sp : option string) (r : list Word) : Prop :=
  r ≠ [] ∧ Forall (fun w => w_speaker w = sp) r.

Definition run_speaker (r : list Word) : option string :=
  match r with w :: _ => w_speaker w | [] => None end.

(** Neighbouring runs carry different labels: the runs are maximal. *)
Fixpoint maximal (rs : list (list Word)) : Prop :=
  match rs with
  | r1 :: ((r2 :: _) as rs') => run_speaker r1 ≠ run_speaker r2 ∧ maximal rs'
  | _ => True
  end.

(** The number of maximal runs, counted on the labels alone: one for the
    first word and one for each word whose label differs from that of
    the word before it. *)
Fixpoint num_runs (ws : list Word) : nat :=
  match ws with
  | [] => 0
  | w :: ws' =>
      match ws' with
      | [] => 1
      | w' :: _ =>
          (if decide (w_speaker w = w_speaker w') then 0 else 1) + num_runs ws'
      end
  end.

(** The segment the specification asks for a run. *)
Definition segment_of_run (r : list Word) : SegmentWithSpeaker :=
  mkSeg (words_text r) (first_start r) (last_end r) (run_speaker r).

(** Word tokens in chronological order: no word starts before the one
    in front of it. *)
Definition chronological (ws : list Word) : Prop :=
  Sorted (fun a b => (w_start a <= w_start b)%Q) ws.

Definition chronological_segments (segs : list SegmentWithSpeaker) : Prop :=
  Sorted (fun a b => (start a <= start b)%Q) segs.

(** What the specification asks of the segment [s] made from the run
    [r]. *)
Definition segment_matches_run (r : list Word) (s : SegmentWithSpeaker) : Prop :=
  text s = join space (map (fun w => strip (w_word w)) r)
  ∧ w_start <$> head r = Some (start s)
  ∧ w_end <$> last r = Some (end_ s)
  ∧ speaker s = run_speaker r.

(** The scenario of the specification: "hi there" by one speaker, then
    "bob" by another. *)
Definition scenario_words : list Word :=
  [ mkWord (of_string " hi") 0 0.3 (Some "S0"%string);
    mkWord (of_string " there") 0.3 0.6 (Some "S0"%string);
    mkWord (of_string " bob") 1 1.3 (Some "S1"%string) ].

End Reseg.

(** ** Turn intervals: assignment by containment *)

(** A speaker turn of the external pipeline, as [itertracks(yield_label=True)]
    yields it: [turn.start], [turn.end] and the label [spk]. *)
Record Turn := mkTurn {
  turn_start : Q;
  turn_end : Q;
  spk : string
}.

(** A segment of the transcription model: [segment.text], [segment.start],
    [segment.end], [segment.words]. A segment without a [words]
    attribute, or with an empty or [None] one, has [s_words = []]. *)
Record Segment := mkSegment {
  s_text : pystr;
  s_start : Q;
  s_end : Q;
  s_words : list Word
}.

Module Turns.
Import Reseg.

(** [(word.start + word.end) / 2] *)
Definition midpoint (a b : Q) : Q := Float.fdiv (Float.fadd a b) 2.

Definition word_mid (w : Word) : Q := midpoint (w_start w) (w_end w).

(** [turn.start <= mid <= turn.end] *)
Definition contains (t : Turn) (mid : Q) : bool :=
  Qle_bool (turn_start t) mid && Qle_bool mid (turn_end t).

(** [[
    word_speaker = None
    for turn, _, spk in speaker_turns:
        if turn.start <= word_mid <= turn.end:
            word_speaker = str(spk)
            break
    ]] *)
Fixpoint find_speaker (speaker_turns : list Turn) (mid : Q) : option string :=
  match speaker_turns with
  | [] => None
  | t :: rest =>
      if contains t mid then Some (spk t) else find_speaker rest mid
  end.

(** The inner loop of [assign_speakers_to_words] of the development
    script, which starts from the label ['UNKNOWN']. *)
Fixpoint scan_segments (speaker_segments : list Turn) (word_center : Q)
    (current : string) : string :=
  match speaker_segments with
  | [] => current
  | seg :: rest =>
      if contains seg word_center then spk seg
      else scan_segments rest word_center current
  end.

Definition UNKNOWN : string := "UNKNOWN".

Definition set_speaker (lbl : option string) (w : Word) : Word :=
  mkWord (w_word w) (w_start w) (w_end w) lbl.

(** [assign_speakers_to_words(words, speaker_segments)] *)
Definition assign_speakers_to_words (words : list Word)
    (speaker_segments : list Turn) : list Word :=
  map (fun w => set_speaker
                  (Some (scan_segments speaker_segments (word_mid w) UNKNOWN)) w)
      words.

(** The midpoint lies in the closed interval of the turn. *)
Definition inside (t : Turn) (mid : Q) : Prop :=
  (turn_start t <= mid)%Q ∧ (mid <= turn_end t)%Q.

(** [t], at position [i], is the first turn in list order that contains
    [mid]. *)
Definition first_match (turns : list Turn) (mid : Q) (i : nat) (t : Turn) : Prop :=
  turns !! i = Some t ∧ inside t mid
  ∧ ∀ j t', j < i → turns !! j = Some t' → ¬ inside t' mid.

(** *** Re-segmentation against turns (the external-pipeline path) *)

(** The body of [for segment in segments_list]: a segment without words
    becomes one output segment labelled by its own midpoint; a segment
    with words is split where the resolved label changes. The loop
    variables are reset for every segment, and the last run of the
    segment is closed before the next segment is looked at. *)
Definition resegment_segment (speaker_turns : list Turn)
    (new_segments : list SegmentWithSpeaker) (segment : Segment)
    : list SegmentWithSpeaker :=
  match s_words segment with
  | [] =>
      let seg_mid := midpoint (s_start segment) (s_end segment) in
      new_segments ++
        [mkSeg (s_text segment) (s_start segment) (s_end segment)
               (find_speaker speaker_turns seg_mid)]
  | w0 :: _ =>
      finish
        (foldl (fun st word =>
                  step_with (find_speaker speaker_turns (word_mid word)) st word)
               (mkState new_segments None [] (w_start w0))
               (s_words segment))
  end.

(** [# Re-segment using word-level timestamps matched to diarization] *)
Definition turn_resegment (speaker_turns : list Turn)
    (segments_list : list Segment) : list SegmentWithSpeaker :=
  foldl (resegment_segment speaker_turns) [] segments_list.

(** *** The specification side *)

(** Resolving a word's label by first-match containment. *)
Definition resolve (turns : list Turn) (w : Word) : Word :=
  set_speaker (find_speaker turns (word_mid w)) w.

(** [all_words]: the words of all the segments, in order. *)
Definition all_words (segments_list : list Segment) : list Word :=
  concat (map s_words segments_list).

(** The variant as the specification words it: resolve every word of the
    file, then merge over the whole word sequence. *)
Definition resolve_then_merge (turns : list Turn)
    (segments_list : list Segment) : list SegmentWithSpeaker :=
  resegment (map (resolve turns) (all_words segments_list)).

(** What the code does for one segment, in the same words. *)
Definition segment_units (turns : list Turn) (segment : Segment)
    : list SegmentWithSpeaker :=
  match s_words segment with
  | [] => [mkSeg (s_text segment) (s_start segment) (s_end segment)
                 (find_speaker turns (midpoint (s_start segment) (s_end segment)))]
  | _ => resegment (map (resolve turns) (s_words segment))
  end.

(** One speaker talking through a segment boundary: two transcription
    segments of one word each, inside a single turn. *)
Definition one_turn : list Turn := [mkTurn 0 10 "SPEAKER_00"].

Definition two_segments : list Segment :=
  [ mkSegment (of_string " hello") 0 1
      [mkWord (of_string " hello") 0 1 None];
    mkSegment (of_string " world") 1 2
      [mkWord (of_string " world") 1 2 None] ].

(** The two loops run in step: the turn-interval loop on the words as
    they come, the word-label loop on the words with their resolved
    labels, the former with [ns] already emitted. *)
Definition in_step (ns : list SegmentWithSpeaker) (turns : list Turn)
    (st st' : state) : Prop :=
  new_segments st = ns ++ new_segments st'
  ∧ current_speaker st = current_speaker st'
  ∧ current_start st = current_start st'
  ∧ current_words st' = map (resolve turns) (current_words st).

End Turns.

(** ** Rendering of times *)

Module Timestamp.

(** Python's [a // b] and [a % b] on floats, for [b > 0], taken exactly.
    The remainder of floats is exact; the quotient of Python is the
    exact floor for every time of a recording, and is rounded only when
    it is too large for a float to hold exactly (above [2 ^ 53]), where
    this one is not. *)
Definition floordiv (a b : Q) : Q := inject_Z (Qfloor (a / b)).
Definition pymod (a b : Q) : Q := (a - b * floordiv a b)%Q.

(** [int(x)]: truncation toward zero. *)
Definition int (x : Q) : Z :=
  if Qle_bool 0 x then Qfloor x else Qceiling x.

(** The decimal digits of a natural number. *)
Definition digits (n : N) : string := NilZero.string_of_uint (N.to_uint n).

(** The format [{n:02d}]: sign if negative, then the digits, zero-padded
    on the left to a total width of at least two. *)
Definition fmt02d (n : Z) : string :=
  (if (n <? 0)%Z then "-" +:+ digits (Z.to_N (- n))
   else if (n <? 10)%Z then "0" +:+ digits (Z.to_N n)
   else digits (Z.to_N n))%string.

(** [format_timestamp(self, seconds)] *)
Definition format_timestamp (seconds : Q) : string :=
  let hours := int (floordiv seconds 3600) in
  let minutes := int (floordiv (pymod seconds 3600) 60) in
  let secs := int (pymod seconds 60) in
  (fmt02d hours +:+ ":" +:+ fmt02d minutes +:+ ":" +:+ fmt02d secs)%string.

(** Reading a rendered number back. *)
Definition parse (s : string) : option N :=
  N.of_uint <$> NilEmpty.uint_of_string s.

End Timestamp.

(** ** Python's [max] and [min] with a key *)

Module Py.

(** [max(it, key=...)] and [min(it, key=...)] keep the first element seen
    and replace it only by a strictly better one: [better e best] says
    that [e] is strictly better than [best]. *)
Definition keep_best {A} (better : A → A → bool) (best : A) (l : list A) : A :=
  foldl (fun best e => if better e best then e else best) best l.

Definition pick_first {A} (better : A → A → bool) (l : list A) : option A :=
  match l with
  | [] => None
  | x :: l' => Some (keep_best better x l')
  end.

(** [a < b] on floats. *)
Definition Qltb (a b : Q) : bool := negb (Qle_bool b a).

(** [min(a, b)] on two floats: [b] only if it is strictly smaller. *)
Definition min2 (a b : Q) : Q := if Qltb b a then b else a.

(** [collections.Counter]: the counts in the order in which the keys
    were first seen. *)
Fixpoint counter_incr (c : list (string * nat)) (x : string) : list (string * nat) :=
  match c with
  | [] => [(x, 1)]
  | (k, n) :: c' =>
      if decide (k = x) then (k, S n) :: c' else (k, n) :: counter_incr c' x
  end.

Definition Counter (elems : list string) : list (string * nat) :=
  foldl counter_incr [] elems.

(** [c.most_common(1)]: the first entry, in the counter's order, with the
    largest count. *)
Definition most_common1 (c : list (string * nat)) : option (string * nat) :=
  pick_first (fun e best => snd best <? snd e) c.

(** The number of times [x] occurs in [l]. *)
Definition count (x : string) (l : list string) : nat :=
  length (filter (x =.) l).

(** [r], at position [p] of [l], is the first best element of [l]: no
    element is strictly better, and it is strictly better than every
    element in front of it. *)
Definition first_best_at {A} (better : A → A → bool) (l : list A) (p : nat)
    (r : A) : Prop :=
  l !! p = Some r
  ∧ ∀ q e, l !! q = Some e → better e r = false ∧ (q < p → better r e = true).

(** What a counter [c] knows after the elements [l]: one entry per
    element seen, with the number of times it was seen, and the entries
    in the order in which the elements were first seen. *)
Definition counted (c : list (string * nat)) (l : list string) : Prop :=
  NoDup (c.*1)
  ∧ (∀ k n, (k, n) ∈ c → n = count k l)
  ∧ (∀ y, y ∈ l → y ∈ c.*1)
  ∧ (∀ q k, c.*1 !! q = Some k →
       ∃ i, l !! i = Some k
            ∧ ∀ j y, j < i → l !! j = Some y → ∃ p, p < q ∧ c.*1 !! p = Some y).

End Py.

(** ** The window-embedding diarizer *)

Module Wavlm.
Import Reseg Turns Py.

(** An entry of [segments_for_embedding]. *)
Record Window := mkWindow {
  word_indices : list nat;
  win_start : Q;
  win_end : Q
}.

Definition WINDOW_SIZE : Q := 1.
Definition WINDOW_STRIDE : Q := 0.5.

(** [window_word_indices]: the indices of the words whose centre lies in
    [window_start <= word_center < window_end]. *)
Fixpoint window_word_indices (i : nat) (all_words : list Word)
    (window_start window_end : Q) : list nat :=
  match all_words with
  | [] => []
  | word :: rest =>
      let word_center := word_mid word in
      (if Qle_bool window_start word_center && Qltb word_center window_end
       then [i] else [])
      ++ window_word_indices (S i) rest window_start window_end
  end.

(** [while current_time < total_duration], with the number of iterations
    bounded by [fuel]; [None] when the bound is reached. *)
Fixpoint make_windows (fuel : nat) (all_words : list Word)
    (total_duration current_time : Q) : option (list Window) :=
  match fuel with
  | 0 => None
  | S fuel' =>
      if Qltb current_time total_duration then
        let window_start := current_time in
        let window_end := min2 (current_time + WINDOW_SIZE) total_duration in
        let idx := window_word_indices 0 all_words window_start window_end in
        let here := if nonempty idx then [mkWindow idx window_start window_end] else [] in
        (here ++.) <$> make_windows fuel' all_words total_duration
                         (current_time + WINDOW_STRIDE)
      else Some []
  end.

(** Two iterations per second of audio, and one to leave the loop. *)
Definition window_fuel (total_duration : Q) : nat :=
  S (Z.to_nat (Qceiling (2 * total_duration))).

Definition create_windows (all_words : list Word) : list Window :=
  let total_duration := last_end all_words in
  default [] (make_windows (window_fuel total_duration) all_words total_duration 0).

(** What the diarizer asks of its collaborators. [extract_embedding] is
    [None] when the extraction raises or the normalised vector has a NaN:
    in both cases the window is skipped. [fit_predict] is [None] when the
    clustering raises. *)
Record Backend (Embedding : Type) := mkBackend {
  load_audio : bool;
  extract_embedding : Window → option Embedding;
  fit_predict : list Embedding → Z → option (list nat)
}.
Arguments load_audio {_} _.
Arguments extract_embedding {_} _ _.
Arguments fit_predict {_} _ _ _.

(** [valid_segments] and [valid_embeddings], kept side by side. *)
Definition valid_windows {E} (B : Backend E) (segments_for_embedding : list Window)
    : list (Window * E) :=
  omap (fun seg_info => (seg_info,.) <$> extract_embedding B seg_info)
       segments_for_embedding.

(** [f"SPEAKER_{speaker_ids[i]:02d}"] *)
Definition speaker_label (id : nat) : string :=
  ("SPEAKER_" +:+ Timestamp.fmt02d (Z.of_nat id))%string.

Definition SPEAKER_00 : string := "SPEAKER_00".

(** [for i, seg_info in enumerate(valid_segments): seg_info['speaker'] = ...];
    [None] is the [IndexError] of [speaker_ids[i]]. *)
Fixpoint label_windows (valid_segments : list Window) (speaker_ids : list nat)
    : option (list (Window * string)) :=
  match valid_segments, speaker_ids with
  | [], _ => Some []
  | seg_info :: rest, id :: ids =>
      ((seg_info, speaker_label id) ::.) <$> label_windows rest ids
  | _ :: _, [] => None
  end.

(** [num_speakers = self._num_speakers if self._num_speakers > 0 else 2]
    then [min(num_speakers, len(valid_embeddings))]. *)
Definition n_clusters (num_speakers : Z) (n_valid : nat) : Z :=
  Z.min (if (0 <? num_speakers)%Z then num_speakers else 2) (Z.of_nat n_valid).

(** [speaker_votes] of the word at [word_idx]. *)
Definition speaker_votes (valid_segments : list (Window * string)) (word_idx : nat)
    : list string :=
  snd <$> filter (fun seg_info => word_idx ∈ word_indices (fst seg_info)) valid_segments.

Definition center (seg_info : Window) : Q :=
  Float.fdiv (Float.fadd (win_start seg_info) (win_end seg_info)) 2.

(** [abs((s['start'] + s['end'])/2 - word_time)] *)
Definition distance (word_time : Q) (seg_info : Window) : Q :=
  Qabs (Float.fsub (center seg_info) word_time).

(** [nearest_seg = min(valid_segments, key=...)] *)
Definition nearest_seg (valid_segments : list (Window * string)) (word_time : Q)
    : option (Window * string) :=
  pick_first (fun s best => Qltb (distance word_time (fst s)) (distance word_time (fst best)))
             valid_segments.

(** The label a word gets: the body of [for word_idx, word in
    enumerate(all_words)]. The empty label stands for the [IndexError]
    of [most_common(1)[0]], which a counter of a non-empty list of votes
    does not raise. *)
Definition word_label (valid_segments : list (Window * string)) (word_idx : nat)
    (word : Word) : string :=
  match speaker_votes valid_segments word_idx with
  | (_ :: _) as votes =>
      match most_common1 (Counter votes) with
      | Some (l, _) => l
      | None => EmptyString
      end
  | [] =>
      match nearest_seg valid_segments (word_mid word) with
      | None => SPEAKER_00
      | Some s => snd s
      end
  end.

Definition vote_words (valid_segments : list (Window * string))
    (all_words : list Word) : list Word :=
  imap (fun word_idx word =>
          set_speaker (Some (word_label valid_segments word_idx word)) word)
       all_words.

(** A block of the [try] either runs to its end or raises. *)
Inductive outcome (A : Type) :=
| Returned (a : A)
| Raised.
Arguments Returned {_} _.
Arguments Raised {_}.

(** The part of the [if len(all_words) > 0] block that sets
    [word.speaker] on every word. *)
Definition diarize_words {E} (B : Backend E) (num_speakers : Z)
    (all_words : list Word) : outcome (list Word) :=
  if load_audio B then
    let valid := valid_windows B (create_windows all_words) in
    let valid_segments := fst <$> valid in
    let valid_embeddings := snd <$> valid in
    if length valid_embeddings <? 2 then
      Returned (set_speaker (Some SPEAKER_00) <$> all_words)
    else
      match fit_predict B valid_embeddings
              (n_clusters num_speakers (length valid_embeddings)) with
      | None => Raised
      | Some speaker_ids =>
          match label_windows valid_segments speaker_ids with
          | None => Raised
          | Some labelled => Returned (vote_words labelled all_words)
          end
      end
  else Raised.

(** The labels a list of words carries, without repetition. *)
Definition distinct_labels (ws : list Word) : list (option string) :=
  remove_dups (w_speaker <$> ws).

(** A recording of a single word, from 0.6 s to 0.8 s: it lies in both
    windows the loop creates, [0, 0.8) and [0.5, 0.8). *)
Definition one_word : list Word := [mkWord (of_string " hello") 0.6 0.8 None].

(** Two seconds of speech with a pause: words centred at 0.25 s, 0.75 s
    and 1.75 s. The loop creates the windows [0, 1), [0.5, 1.5), [1, 2)
    and [1.5, 2), with the words 0 and 1, the word 1, the word 2 and the
    word 2. *)
Definition with_pause : list Word :=
  [ mkWord (of_string " so") 0 0.5 None;
    mkWord (of_string " then") 0.5 1 None;
    mkWord (of_string " yes") 1.5 2 None ].

(** A backend for [with_pause]: the window that starts at 0.5 s embeds
    differently from the others, and the clustering of the four
    embeddings into two clusters sets it apart. *)
Definition second_window_apart : Backend nat :=
  mkBackend nat true
    (fun seg_info => Some (if Qeq_bool (win_start seg_info) 0.5 then 1 else 0))
    (fun _ _ => Some [0; 1; 0; 0]).

(** A backend that embeds every window and deals the cluster ids below
    [k] out in turn: it separates two embeddings into two clusters, as
    agglomerative clustering with [n_clusters = 2] must. *)
Definition round_robin : Backend nat :=
  mkBackend nat true (fun _ => Some 0)
    (fun embeddings k =>
       Some ((fun i => i mod Z.to_nat k) <$> seq 0 (length embeddings))).

(** [s], at position [k], is the first window, in order, whose centre is
    nearest to [word_time]. *)
Definition nearest_at (valid_segments : list (Window * string)) (word_time : Q)
    (k : nat) (s : Window * string) : Prop :=
  valid_segments !! k = Some s
  ∧ ∀ j s', valid_segments !! j = Some s' →
      (distance word_time (fst s) <= distance word_time (fst s'))%Q
      ∧ (j < k → (distance word_time (fst s) < distance word_time (fst s'))%Q).

(** The first vote, in window order, whose label has the largest number
    of votes. *)
Definition majority_at (votes : list string) (k : nat) (l : string) : Prop :=
  votes !! k = Some l
  ∧ (∀ l', count l' votes ≤ count l votes)
  ∧ (∀ j l', j < k → votes !! j = Some l' → count l' votes < count l votes).

(** Three labelled windows: the word 0 is in the first two, which
    disagree. *)
Definition tied_windows : list (Window * string) :=
  [ (mkWindow [0] 0 1, "SPEAKER_01"%string);
    (mkWindow [0; 1] 0.5 1.5, "SPEAKER_00"%string);
    (mkWindow [1] 1 2, "SPEAKER_00"%string) ].

End Wavlm.

(** ** The votes and the nearest window, in the specification's words *)

Module VoteSpec.
Import Wavlm.

(** The labels of the valid windows whose [word_indices] contain the
    word at [word_idx], in window order. *)
Fixpoint votes_for (word_idx : nat) (valid_segments : list (Window * string))
    : list string :=
  match valid_segments with
  | [] => []
  | (win, label) :: rest =>
      if bool_decide (word_idx ∈ word_indices win)
      then label :: votes_for word_idx rest
      else votes_for word_idx rest
  end.

(** The centre of a window and the midpoint of a word, as floats. *)
Definition centre (win : Window) : Q :=
  Float.fdiv (Float.fadd (win_start win) (win_end win)) 2.

Definition word_midpoint (word : Word) : Q :=
  Float.fdiv (Float.fadd (w_start word) (w_end word)) 2.

(** How far in time the centre of the window is from the midpoint of
    the word: the absolute value of their difference as floats. *)
Definition gap (win : Window) (word : Word) : Q :=
  Qabs (Float.fsub (centre win) (word_midpoint word)).

(** [s], at position [k], is the first valid window, in order, whose
    centre is nearest to the midpoint of [word]: no window is nearer,
    and every window in front of it is strictly farther. *)
Definition nearest_window (valid_segments : list (Window * string)) (word : Word)
    (k : nat) (s : Window * string) : Prop :=
  valid_segments !! k = Some s
  ∧ ∀ j s', valid_segments !! j = Some s' →
      (gap (fst s) word <= gap (fst s') word)%Q
      ∧ (j < k → (gap (fst s) word < gap (fst s') word)%Q).

End VoteSpec.

(** ** The worker: [process_files] and [transcribe_file] *)

Module Worker.
Import Reseg Turns Py Wavlm.

(** *** What the worker is given *)

(** The lazy [segments] iterator of the transcription model: it yields a
    segment, ends, or raises. *)
Inductive generator :=
| Done
| Fail
| Yield (segment : Segment) (rest : generator).

(** One queued file, with what its collaborators will answer.
    [pipeline] is the outcome of the block that loads the audio, saves it
    as WAV, calls the diarization pipeline and lists its turns.
    [write_raises] says that the output file cannot be opened: [open]
    raises and nothing is written. An exception raised later, by one of
    the writes into the file that [open] has emptied, would leave a
    truncated file; the writes into an opened file are taken not to
    raise, and what is stated of the contents of the output folder is
    stated of files whose output can be opened. *)
Record FileRun (E : Type) := mkFileRun {
  name : string;
  stem : string;
  transcribe_raises : bool;
  segments : generator;
  duration : Q;
  backend : Backend E;
  pipeline : outcome (list Turn);
  write_raises : bool
}.
Arguments name {_} _.
Arguments stem {_} _.
Arguments transcribe_raises {_} _.
Arguments segments {_} _.
Arguments duration {_} _.
Arguments backend {_} _.
Arguments pipeline {_} _.
Arguments write_raises {_} _.

(** The attributes of the application object the worker reads.
    [stop_after] stands for the other thread: the number of reads of
    [self.stop_requested] that still see [False]; the flag is only ever
    set during a run, so every later read sees [True]. *)
Record App := mkApp {
  stop_after : option nat;
  wavlm_ready : bool;
  pipeline_ready : bool;
  num_speakers : Z
}.

(** *** What the worker does that others can see *)

(** The texts given to [self.status_var]: [Transcribing {idx} of {total}:
    {name}] and [Error transcribing {name}: {e}]. *)
Inductive status :=
| Transcribing (idx total : nat) (file : string)
| ErrorTranscribing (file : string).

(** The log, one event per statement of the source that another thread,
    the screen or the disk can see:
    - [EvCheckStop b]: a read of [self.stop_requested] that gives [b];
    - [EvStatus], [EvBar]: the calls scheduled with [self.root.after] on
      the status line and on the progress bar;
    - [EvBegin]: the entry into [transcribe_file];
    - [EvAcquire], [EvRelease]: entering and leaving
      [with self.progress_lock];
    - [EvProgress], [EvProcessed]: the assignments to
      [self.current_progress] and [self.processed_segments];
    - [EvSegment]: [segments_list.append(segment)];
    - [EvStoppedInFile], [EvStoppedBeforeFile], [EvGot], [EvWavlm],
      [EvWavlmFailed], [EvPyannote], [EvPyannoteFailed]: the messages
      printed when the segment loop is left on a stop, when the file loop
      is left on a stop, after the segment loop, and when each diarizer
      is started and when it has failed;
    - [EvWrite]: the output file written;
    - [EvComplete]: the call of [self.transcription_complete] scheduled
      at the end of [process_files]. *)
Inductive event :=
| EvCheckStop (seen : bool)
| EvStatus (s : status)
| EvBar (percent : Z)
| EvBegin (file : string)
| EvAcquire
| EvRelease
| EvProgress (v : Q)
| EvProcessed (n : nat)
| EvSegment
| EvStoppedInFile
| EvStoppedBeforeFile
| EvGot (n : nat)
| EvWavlm
| EvWavlmFailed
| EvPyannote
| EvPyannoteFailed
| EvWrite (file : string)
| EvComplete.

(** A written transcript: the segments with the label printed in front
    of each (empty for none). *)
Definition transcript := list (Segment * string).

Record world := mkWorld {
  current_progress : Q;
  processed_segments : nat;
  reads : nat;
  disk : gmap string transcript
}.

(** *** A monad for the worker: state and a log of events *)

Definition M (A : Type) : Type := world → A * list event * world.

Definition ret {A} (a : A) : M A := fun w => (a, [], w).

Definition bind {A B} (m : M A) (k : A → M B) : M B :=
  fun w =>
    let '(a, t1, w1) := m w in
    let '(b, t2, w2) := k a w1 in
    (b, t1 ++ t2, w2).

#[global] Instance M_ret : MRet M := @ret.
#[global] Instance M_bind : MBind M := fun A B k m => bind m k.

Definition emit (e : event) : M () := fun w => (tt, [e], w).

Definition result {A} (m : M A) (w : world) : A := fst (fst (m w)).
Definition trace {A} (m : M A) (w : world) : list event := snd (fst (m w)).
Definition final {A} (m : M A) (w : world) : world := snd (m w).

(** [self.stop_requested], as the worker sees it. *)
Definition visible (app : App) (w : world) : bool :=
  match stop_after app with
  | Some n => n <=? reads w
  | None => false
  end.

Definition read_stop (app : App) : M bool :=
  fun w =>
    let b := visible app w in
    (b, [EvCheckStop b],
     mkWorld (current_progress w) (processed_segments w) (S (reads w)) (disk w)).

Definition set_progress (v : Q) : M () :=
  fun w => (tt, [EvProgress v],
            mkWorld v (processed_segments w) (reads w) (disk w)).

Definition set_processed (n : nat) : M () :=
  fun w => (tt, [EvProcessed n],
            mkWorld (current_progress w) n (reads w) (disk w)).

(** [with self.progress_lock: ...] *)
Definition with_lock (m : M ()) : M () :=
  emit EvAcquire ;; m ;; emit EvRelease.

Definition write_file (file : string) (t : transcript) : M () :=
  fun w => (tt, [EvWrite file],
            mkWorld (current_progress w) (processed_segments w) (reads w)
                    (<[file := t]> (disk w))).

(** *** [transcribe_file] *)

Inductive loop_result :=
| LoopDone (segments_list : list Segment)
| LoopStopped
| LoopRaised.

(** [for segment in segments] *)
Fixpoint consume (app : App) (total_duration : Q) (g : generator)
    (segments_list : list Segment) : M loop_result :=
  match g with
  | Done => ret (LoopDone segments_list)
  | Fail => ret LoopRaised
  | Yield segment rest =>
      stop ← read_stop app;
      if (stop : bool) then emit EvStoppedInFile ;; ret LoopStopped
      else
        emit EvSegment ;;
        let segments_list := segments_list ++ [segment] in
        let last_end_time := s_end segment in
        with_lock
          (set_processed (length segments_list) ;;
           if Qltb 0 total_duration
           then set_progress (min2 95 (last_end_time / total_duration * 100))
           else ret tt) ;;
        consume app total_duration rest segments_list
  end.

(** A Python value used as a condition: [None] and the empty string are
    false. *)
Definition truthy (o : option string) : option string :=
  match o with
  | Some l => if decide (l = EmptyString) then None else Some l
  | None => None
  end.

(** [{idx: seg.speaker for idx, seg in enumerate(segments_list) if seg.speaker}] *)
Fixpoint speaker_labels_from (idx : nat) (segs : list SegmentWithSpeaker)
    : gmap nat string :=
  match segs with
  | [] => ∅
  | seg :: rest =>
      match truthy (speaker seg) with
      | Some l => <[idx := l]> (speaker_labels_from (S idx) rest)
      | None => speaker_labels_from (S idx) rest
      end
  end.

Definition speaker_labels_of (segs : list SegmentWithSpeaker) : gmap nat string :=
  speaker_labels_from 0 segs.

(** A [SegmentWithSpeaker] in [segments_list]: it has a text and times
    and no [words] attribute. *)
Definition as_segment (s : SegmentWithSpeaker) : Segment :=
  mkSegment (text s) (start s) (end_ s) [].

(** What the diarization leaves behind: [segments_list] and
    [speaker_labels]. *)
Definition diarized : Type := list Segment * gmap nat string.

(** [# Try WavLM diarization first (doesn't require HF token)] *)
Definition wavlm_stage {E} (app : App) (f : FileRun E)
    (segments_list : list Segment) : M diarized :=
  if wavlm_ready app then
    emit EvWavlm ;;
    with_lock (set_progress 96) ;;
    let all_words := all_words segments_list in
    if nonempty all_words then
      match diarize_words (backend f) (num_speakers app) all_words with
      | Returned words =>
          let new_segments := resegment words in
          with_lock (set_progress 98) ;;
          ret (as_segment <$> new_segments, speaker_labels_of new_segments)
      | Raised =>
          emit EvWavlmFailed ;; ret (segments_list, ∅)
      end
    else ret (segments_list, ∅)
  else ret (segments_list, ∅).

(** [# Fall back to pyannote if WavLM didn't run or failed] *)
Definition pyannote_stage {E} (app : App) (f : FileRun E) (d : diarized)
    : M diarized :=
  let '(segments_list, speaker_labels) := d in
  if bool_decide (speaker_labels = ∅) && pipeline_ready app then
    emit EvPyannote ;;
    with_lock (set_progress 96) ;;
    match pipeline f with
    | Returned speaker_turns =>
        let new_segments := turn_resegment speaker_turns segments_list in
        with_lock (set_progress 98) ;;
        ret (as_segment <$> new_segments, speaker_labels_of new_segments)
    | Raised =>
        emit EvPyannoteFailed ;; ret (segments_list, ∅)
    end
  else ret d.

(** The diarization selector. *)
Definition select {E} (app : App) (f : FileRun E) (segments_list : list Segment)
    : M diarized :=
  d ← wavlm_stage app f segments_list;
  pyannote_stage app f d.

(** [speaker_labels.get(idx, '')] in front of every segment. *)
Definition render (d : diarized) : transcript :=
  imap (fun idx segment => (segment, default EmptyString (snd d !! idx))) (fst d).

(** The [except Exception] of [transcribe_file]. *)
Definition fail_file {E} (f : FileRun E) : M (option bool) :=
  emit (EvStatus (ErrorTranscribing (name f))) ;; ret (Some false).

(** From the end of the segment loop to the return: diarization, then
    the output file, written in full unless it cannot be opened. *)
Definition diarize_and_write {E} (app : App) (f : FileRun E)
    (segments_list : list Segment) : M (option bool) :=
  with_lock (set_progress 95) ;;
  emit (EvGot (length segments_list)) ;;
  d ← select app f segments_list;
  if write_raises f then fail_file f
  else write_file (stem f) (render d) ;; ret (Some true).

(** [transcribe_file(self, file_path)]: [Some true] and [Some false] are
    its two return values, [None] the bare [return] on a stop. *)
Definition transcribe_file {E} (app : App) (f : FileRun E) : M (option bool) :=
  emit (EvBegin (name f)) ;;
  if transcribe_raises f then fail_file f
  else
    with_lock (set_progress 0 ;; set_processed 0) ;;
    r ← consume app (duration f) (segments f) [];
    match r with
    | LoopDone segments_list => diarize_and_write app f segments_list
    | LoopStopped => ret None
    | LoopRaised => fail_file f
    end.

(** *** [process_files], from the file loop on *)

(** [int(((i - 1) / total_files) * 100)] and [int((i / total_files) * 100)] *)
Definition percent (i total_files : nat) : Z :=
  Timestamp.int
    (Float.fmul (Float.fdiv (inject_Z (Z.of_nat i)) (inject_Z (Z.of_nat total_files)))
                100).

(** [for i, file_path in enumerate(self.file_queue, 1)] *)
Fixpoint file_loop {E} (app : App) (i total_files : nat)
    (file_queue : list (FileRun E)) : M () :=
  match file_queue with
  | [] => ret tt
  | file_path :: rest =>
      stop ← read_stop app;
      if (stop : bool) then emit EvStoppedBeforeFile
      else
        emit (EvStatus (Transcribing i total_files (name file_path))) ;;
        emit (EvBar (percent (i - 1) total_files)) ;;
        transcribe_file app file_path ;;
        emit (EvBar (percent i total_files)) ;;
        file_loop app (S i) total_files rest
  end.

Definition process_files {E} (app : App) (file_queue : list (FileRun E)) : M () :=
  file_loop app 1 (length file_queue) file_queue ;;
  emit EvComplete.

(** *** The observer: [poll_progress] *)



(** *** The loading of the diarization models in [process_files] *)

Record Settings := mkSettings {
  enable_diarization : bool;
  HAS_WAVLM : bool;
  use_wavlm : bool;
  HAS_DIARIZATION : bool;
  hf_token : string;
  wavlm_loads : bool;
  pipeline_loads : bool
}.

(** The pair [(self.wavlm_model and self.wavlm_feature_extractor,
    self.diarization_pipeline)] after the loading, given whether a WavLM
    model was left by an earlier run. *)
Definition load_models (cfg : Settings) (wavlm_before : bool) : bool * bool :=
  if enable_diarization cfg then
    let wavlm :=
      if HAS_WAVLM cfg && use_wavlm cfg then wavlm_loads cfg else wavlm_before in
    let pipeline :=
      if negb wavlm && HAS_DIARIZATION cfg
         && bool_decide (hf_token cfg ≠ EmptyString)
      then pipeline_loads cfg else false in
    (wavlm, pipeline)
  else (false, false).

Definition start_world : world := mkWorld 0 0 0 ∅.

(** *** Reading a log of events *)

(** An automaton over the log: [None] when an event is not allowed in the
    state reached. *)
Fixpoint run {S} (step : S → event → option S) (s : S) (tr : list event)
    : option S :=
  match tr with
  | [] => Some s
  | e :: tr' =>
      match step s e with
      | Some s' => run step s' tr'
      | None => None
      end
  end.

(** The progress lock: the state is whether the worker holds it. The
    shared values are only written while it is held. *)
Definition lock_step (held : bool) (e : event) : option bool :=
  match e with
  | EvAcquire => if held then None else Some true
  | EvRelease => if held then Some false else None
  | EvProgress _ | EvProcessed _ => if held then Some true else None
  | _ => Some held
  end.

(** The stop flag: the state is whether a read has seen [False] and
    nothing was begun on it yet. A file is begun, and a segment is taken,
    only on such a read, and the flag is not read again before. *)
Definition guard_step (armed : bool) (e : event) : option bool :=
  match e with
  | EvCheckStop seen => if armed then None else Some (negb seen)
  | EvBegin _ | EvSegment => if armed then Some false else None
  | _ => Some armed
  end.


(** The reads of the stop flag, in order. *)
Definition checks (tr : list event) : list bool :=
  omap (fun e => match e with EvCheckStop b => Some b | _ => None end) tr.

(** The output files written, in order. *)
Definition written (tr : list event) : list string :=
  omap (fun e => match e with EvWrite f => Some f | _ => None end) tr.

(** What is left of the log after the first read that sees the flag set. *)
Fixpoint after_stop (tr : list event) : option (list event) :=
  match tr with
  | [] => None
  | EvCheckStop true :: tr' => Some tr'
  | _ :: tr' => after_stop tr'
  end.

(** The events of a worker that is only leaving: messages, the progress
    bar, further reads that see the flag set, and the completion call. *)
Definition leaving (e : event) : bool :=
  match e with
  | EvStoppedInFile | EvStoppedBeforeFile | EvBar _ | EvCheckStop true
  | EvComplete => true
  | _ => false
  end.


(** The generator runs to its end without raising. *)
Fixpoint completes (g : generator) : bool :=
  match g with
  | Done => true
  | Fail => false
  | Yield _ rest => completes rest
  end.

Fixpoint yielded (g : generator) : list Segment :=
  match g with
  | Yield segment rest => segment :: yielded rest
  | _ => []
  end.

(** The file gets through transcription and writing. *)
Definition succeeds {E} (f : FileRun E) : bool :=
  negb (transcribe_raises f) && completes (segments f) && negb (write_raises f).



Definition is_check (e : event) : bool :=
  match e with EvCheckStop _ => true | _ => false end.

(** The events that tell what became of a file: it was begun, it was
    written, it was reported as failed. *)
Definition is_mark (e : event) : bool :=
  match e with
  | EvBegin _ | EvWrite _ | EvStatus (ErrorTranscribing _) => true
  | _ => false
  end.

Definition marks (tr : list event) : list event := filter (fun e => is_mark e) tr.

(** The marks a file leaves when the stop flag is never set. *)
Definition file_marks {E} (f : FileRun E) : list event :=
  [EvBegin (name f);
   if succeeds f then EvWrite (stem f) else EvStatus (ErrorTranscribing (name f))].

(** The checkpoints as the specification states them: the state is
    whether the segment loop of a file is running, and the flag is not
    read while it is. *)
Definition stated_step (in_loop : bool) (e : event) : option bool :=
  match e with
  | EvBegin _ => Some true
  | EvGot _ => Some false
  | EvCheckStop _ => if in_loop then None else Some in_loop
  | _ => Some in_loop
  end.

(** *** What a computation does to the log and the world *)

(** [m] neither holds the lock when it starts nor when it ends, and
    writes the shared values only while it holds it. *)
Definition balanced {A} (m : M A) : Prop :=
  ∀ w, run lock_step false (trace m w) = Some false.

(** [m] runs inside a [with self.progress_lock] block. *)
Definition inside_lock {A} (m : M A) : Prop :=
  ∀ w, run lock_step true (trace m w) = Some true.

Definition at_progress (v : Q) (w : world) : world :=
  mkWorld v (processed_segments w) (reads w) (disk w).

Definition locked (v : Q) : list event := [EvAcquire; EvProgress v; EvRelease].

(** The embedding diarizer has produced word labels. *)
Definition wavlm_labels {E} (app : App) (f : FileRun E) (segs : list Segment)
    : option (list Word) :=
  if wavlm_ready app && nonempty (all_words segs) then
    match diarize_words (backend f) (num_speakers app) (all_words segs) with
    | Returned ws => Some ws
    | Raised => None
    end
  else None.

(** The events of the embedding diarizer when it leaves no labels. *)
Definition wavlm_events {E} (app : App) (f : FileRun E) (segs : list Segment)
    : list event :=
  if wavlm_ready app then
    if nonempty (all_words segs) then EvWavlm :: locked 96 ++ [EvWavlmFailed]
    else EvWavlm :: locked 96
  else [].




(** No event of [m] satisfies [P]. *)
Definition avoids {A} (P : event → bool) (m : M A) : Prop :=
  ∀ w, Forall (fun e => P e = false) (trace m w).

(** The world after one more read of the flag. *)
Definition tick (w : world) : world :=
  mkWorld (current_progress w) (processed_segments w) (S (reads w)) (disk w).

(** Events the guard automaton reacts to. *)
Definition touches_guard (e : event) : bool :=
  match e with
  | EvCheckStop _ | EvBegin _ | EvSegment => true
  | _ => false
  end.

(** [m] takes the guard automaton from [a] to [b]. *)
Definition steps {A} (a b : bool) (m : M A) : Prop :=
  ∀ w, run guard_step a (trace m w) = Some b.

(** [m] removes no file. *)
Definition keeps {A} (m : M A) : Prop :=
  ∀ w file, is_Some (disk w !! file) → is_Some (disk (final m w) !! file).

(** [m] leaves the output files as they are. *)
Definition untouched {A} (m : M A) : Prop := ∀ w, disk (final m w) = disk w.

(** *** Sample runs *)

Definition seg_hello : Segment :=
  mkSegment (of_string " hello") 0 1 [mkWord (of_string " hello") 0.6 0.8 None].

Definition seg_world : Segment :=
  mkSegment (of_string " world") 1 2 [mkWord (of_string " world") 1 2 None].

(** A file of two segments whose collaborators all answer. *)
Definition good_file (n : string) : FileRun nat :=
  mkFileRun nat (n +:+ ".mp3") n false (Yield seg_hello (Yield seg_world Done)) 2
            round_robin (Returned one_turn) false.

(** A file whose transcription raises after the first segment. *)
Definition bad_file (n : string) : FileRun nat :=
  mkFileRun nat (n +:+ ".mp3") n false (Yield seg_hello Fail) 2
            round_robin (Returned one_turn) false.

(** The stop button is pressed while the second segment is transcribed:
    the first two reads of the flag see [False]. *)
Definition stop_in_second_segment : App := mkApp (Some 2) false false 0.

(** The stop button is pressed during the diarization: the three reads
    of the run of a two-segment file all see [False]. *)
Definition stop_during_diarization : App := mkApp (Some 3) true false 0.

Definition no_diarization : App := mkApp None false false 0.
Definition with_wavlm : App := mkApp None true false 0.

End Worker.

(** ** Spans of words and of segments *)

Module Spans.
Import Reseg.

(** The words have spans that follow one another: no word ends before it
    starts, and none starts before the word in front of it has ended. *)
Fixpoint well_timed (ws : list Word) : Prop :=
  match ws with
  | [] => True
  | w :: ws' =>
      (w_start w <= w_end w)%Q
      ∧ match ws' with [] => True | w' :: _ => (w_end w <= w_start w')%Q end
      ∧ well_timed ws'
  end.

(** The same of segments. *)
Fixpoint disjoint_spans (segs : list SegmentWithSpeaker) : Prop :=
  match segs with
  | [] => True
  | s :: segs' =>
      (start s <= end_ s)%Q
      ∧ match segs' with [] => True | s' :: _ => (end_ s <= start s')%Q end
      ∧ disjoint_spans segs'
  end.

(** The span of [w] lies within the span of [s], which carries the label
    of [w]. *)
Definition covers (s : SegmentWithSpeaker) (w : Word) : Prop :=
  (start s <= w_start w)%Q ∧ (w_end w <= end_ s)%Q ∧ speaker s = w_speaker w.

End Spans.

(** ** What the window loop guarantees *)

Module Windows.
Import Reseg Turns Wavlm.

(** The word at [i] has its centre, [(start + end) / 2] as a float, in
    the window: at or after its start and before its end. *)
Definition in_window (all_words : list Word) (win : Window) (i : nat) : Prop :=
  ∃ word, all_words !! i = Some word
          ∧ (win_start win <= VoteSpec.word_midpoint word)%Q
          ∧ (VoteSpec.word_midpoint word < win_end win)%Q.

(** A window as the loop appends it: it holds a word, starts at a
    multiple of the stride, is not empty, ends by [total], is no longer
    than the window size, and lists exactly the words centred in it, in
    increasing order. *)
Definition well_formed (all_words : list Word) (total : Q) (win : Window) : Prop :=
  word_indices win ≠ []
  ∧ (∃ k : nat, win_start win == inject_Z (Z.of_nat k) * WINDOW_STRIDE)%Q
  ∧ (win_start win < win_end win)%Q
  ∧ (win_end win <= total)%Q
  ∧ (win_end win - win_start win <= WINDOW_SIZE)%Q
  ∧ StronglySorted lt (word_indices win)
  ∧ ∀ i, i ∈ word_indices win ↔ in_window all_words win i.

(** The windows that list the word at [word_idx]. *)
Definition windows_of {A} (key : A → Window) (word_idx : nat) (l : list A) : list A :=
  filter (fun x => word_idx ∈ word_indices (key x)) l.

End Windows.

(** ** What is written *)

Module Written.
Import Reseg Turns Wavlm Worker.

(** What diarization must leave of a word: its text and its times. *)
Definition spoken (w : Word) : pystr * Q * Q := (w_word w, w_start w, w_end w).

(** Neighbouring blocks of the transcript carry different labels. *)
Fixpoint alternating (t : transcript) : Prop :=
  match t with
  | b1 :: ((b2 :: _) as t') => snd b1 ≠ snd b2 ∧ alternating t'
  | _ => True
  end.

(** The block written for a labelled segment. *)
Definition block (s : SegmentWithSpeaker) : Segment * string :=
  (as_segment s, default EmptyString (truthy (speaker s))).

(** The text the turn-interval path reads from a segment: the words when
    there are any, the segment's own text otherwise. *)
Definition source_text (segment : Segment) : pystr :=
  match s_words segment with
  | [] => s_text segment
  | ws => concat (map w_word ws)
  end.

(** A backend whose audio loads and whose every embedding fails. *)
Definition no_embeddings : Backend nat :=
  mkBackend nat true (fun _ => None) (fun _ _ => None).

End Written.

(** ** The output folder after a run *)

Module Outputs.
Import Reseg Turns Wavlm Worker.

(** The transcript of a file that gets through: what the selector makes
    of the segments the transcription yields. *)
Definition transcript_of {E} (app : App) (f : FileRun E) : transcript :=
  render (result (select app f (yielded (segments f))) start_world).

(** The output files after the files of the queue, taken in order: a
    file that gets through leaves its transcript under its stem. *)
Definition outputs {E} (app : App) (d : gmap string transcript)
    (file_queue : list (FileRun E)) : gmap string transcript :=
  foldl (fun d f => if succeeds f then <[stem f := transcript_of app f]> d else d)
        d file_queue.

(** The application as [process_files] leaves it for [transcribe_file]:
    the models as loaded, the stop flag and the speaker count as given. *)
Definition loaded (cfg : Settings) (wavlm_before : bool) (stop : option nat)
    (n : Z) : App :=
  mkApp stop (fst (load_models cfg wavlm_before))
        (snd (load_models cfg wavlm_before)) n.


End Outputs.

(** ** The file queue and its buttons *)

Module Gui.
Import Reseg.

(** [s.strip(chars)] *)
Fixpoint lstrip_chars (chars : list N) (s : pystr) : pystr :=
  match s with
  | c :: s' => if bool_decide (c ∈ chars) then lstrip_chars chars s' else s
  | [] => []
  end.

Definition strip_chars (chars : list N) (s : pystr) : pystr :=
  reverse (lstrip_chars chars (reverse (lstrip_chars chars s))).

(** The characters of ['{}']. *)
Definition braces : list N := [123; 125]%N.

Definition MEDIA_EXTENSIONS : list pystr :=
  of_string <$>
    [ ".mp4"; ".mov"; ".avi"; ".mkv"; ".webm";
      ".mp3"; ".wav"; ".m4a"; ".flac"; ".ogg"; ".aac"; ".wma"; ".opus";
      ".MP4"; ".MOV"; ".AVI"; ".MKV"; ".WEBM";
      ".MP3"; ".WAV"; ".M4A"; ".FLAC"; ".OGG"; ".AAC"; ".WMA"; ".OPUS" ]%string.

(** What the queue code uses of [pathlib]: the constructor, equality and
    the suffix of a path. *)
Class PathLib (P : Type) := {
  path_eq :: EqDecision P;
  Path : pystr → P;
  suffix : P → pystr
}.

(** The state of a [MacButton]. *)
Inductive button_state := normal | disabled.

(** The attributes of [TranscriptionApp] that the queue handlers read and
    write, with the state of the three buttons and whether the start
    button is packed. *)
Record Ui (P : Type) := mkUi {
  file_queue : list P;
  selected_file_index : option Z;
  is_processing : bool;
  stop_requested : bool;
  output_folder : option pystr;
  start_button : button_state;
  start_packed : bool;
  remove_btn : button_state;
  stop_button : button_state
}.
Arguments mkUi {_} _ _ _ _ _ _ _ _ _.
Arguments file_queue {_} _.
Arguments selected_file_index {_} _.
Arguments is_processing {_} _.
Arguments stop_requested {_} _.
Arguments output_folder {_} _.
Arguments start_button {_} _.
Arguments start_packed {_} _.
Arguments remove_btn {_} _.
Arguments stop_button {_} _.

(** [if self.output_folder]: neither [None] nor the empty string. *)
Definition is_set (folder : option pystr) : bool :=
  match folder with Some (_ :: _) => true | _ => false end.

(** [0 <= i < len(self.file_queue)] *)
Definition in_range {A} (i : Z) (l : list A) : bool :=
  ((0 <=? i) && (i <? Z.of_nat (length l)))%Z.

Definition update_remove_button {P} (a : Ui P) : Ui P :=
  mkUi (file_queue a) (selected_file_index a) (is_processing a)
        (stop_requested a) (output_folder a) (start_button a) (start_packed a)
        (match selected_file_index a with
         | Some _ => if is_processing a then disabled else normal
         | None => disabled
         end)
        (stop_button a).

(** [update_file_list], as far as the state goes: an empty queue clears
    the selection. *)
Definition update_file_list {P} (a : Ui P) : Ui P :=
  update_remove_button
    (mkUi (file_queue a)
           (if nonempty (file_queue a) then selected_file_index a else None)
           (is_processing a) (stop_requested a) (output_folder a)
           (start_button a) (start_packed a) (remove_btn a) (stop_button a)).

Definition update_start_button {P} (a : Ui P) : Ui P :=
  mkUi (file_queue a) (selected_file_index a) (is_processing a)
        (stop_requested a) (output_folder a)
        (if nonempty (file_queue a) && is_set (output_folder a)
            && negb (is_processing a)
         then normal else disabled)
        (start_packed a) (remove_btn a) (stop_button a).

Definition with_queue {P} (q : list P) (sel : option Z) (a : Ui P) : Ui P :=
  mkUi q sel (is_processing a) (stop_requested a) (output_folder a)
        (start_button a) (start_packed a) (remove_btn a) (stop_button a).

(** The body of [for file_path in files]. *)
Definition enqueue `{PathLib P} (is_file : P → bool) (queue : list P)
    (file_path : pystr) : list P :=
  let path := Path (strip_chars braces file_path) in
  if is_file path && bool_decide (suffix path ∈ MEDIA_EXTENSIONS) then
    if bool_decide (path ∈ queue) then queue else queue ++ [path]
  else queue.

(** [add_files_to_queue(self, files)]; [is_file] is the file system at
    the time of the call. *)
Definition add_files_to_queue `{PathLib P} (is_file : P → bool)
    (files : list pystr) (a : Ui P) : Ui P :=
  update_start_button
    (update_file_list
       (with_queue (foldl (enqueue is_file) (file_queue a) files)
                   (selected_file_index a) a)).

(** [on_file_click], given the line of the list that was clicked. *)
Definition on_file_click {P} (line_num : Z) (a : Ui P) : Ui P :=
  if negb (nonempty (file_queue a)) || is_processing a then a
  else
    let file_index := (line_num - 1)%Z in
    if in_range file_index (file_queue a)
    then update_file_list (with_queue (file_queue a) (Some file_index) a)
    else a.

(** [remove_selected_file]; [delete] is [list.pop] at an index in range. *)
Definition remove_selected_file {P} (a : Ui P) : Ui P :=
  match selected_file_index a with
  | Some i =>
      if negb (is_processing a) && in_range i (file_queue a)
      then update_start_button
             (update_file_list
                (with_queue (delete (Z.to_nat i) (file_queue a)) None a))
      else a
  | None => a
  end.

(** [choose_output_folder], given the answer of the dialog (empty when
    it was cancelled). *)
Definition choose_output_folder {P} (folder : pystr) (a : Ui P) : Ui P :=
  if nonempty folder then
    update_start_button
      (mkUi (file_queue a) (selected_file_index a) (is_processing a)
             (stop_requested a) (Some folder) (start_button a) (start_packed a)
             (remove_btn a) (stop_button a))
  else a.

Definition start_transcription {P} (a : Ui P) : Ui P :=
  mkUi (file_queue a) (selected_file_index a) true false (output_folder a)
        (start_button a) false (remove_btn a) (stop_button a).

Definition stop_transcription {P} (a : Ui P) : Ui P :=
  mkUi (file_queue a) (selected_file_index a) (is_processing a) true
        (output_folder a) (start_button a) (start_packed a) (remove_btn a)
        disabled.

Definition transcription_complete {P} (a : Ui P) : Ui P :=
  let a1 := if stop_requested a then a
            else with_queue [] (selected_file_index a) a in
  let a2 := update_file_list a1 in
  update_start_button
    (mkUi (file_queue a2) (selected_file_index a2) false (stop_requested a2)
           (output_folder a2) (start_button a2) true (remove_btn a2) normal).

(** The [except] of [process_files]. *)
Definition worker_failed {P} (a : Ui P) : Ui P :=
  mkUi (file_queue a) (selected_file_index a) false (stop_requested a)
        (output_folder a) (start_button a) (start_packed a) (remove_btn a)
        (stop_button a).

(** [MacButton._on_click]: the command runs only in the state [normal]. *)
Definition on_click {P} (state : button_state) (command : Ui P → Ui P)
    (a : Ui P) : Ui P :=
  match state with normal => command a | disabled => a end.

(** What can happen to the application: the user adds files, clicks a
    line of the list, clicks a button or chooses a folder; the worker
    reports the end of the run or fails. A button that is not packed is
    not on the screen and cannot be clicked. *)
Inductive action (P : Type) :=
| AddFiles (is_file : P → bool) (files : list pystr)
| ClickFile (line_num : Z)
| ClickRemove
| ChooseFolder (folder : pystr)
| ClickStart
| ClickStop
| Complete
| WorkerFailed.
Arguments AddFiles {_} _ _.
Arguments ClickFile {_} _.
Arguments ClickRemove {_}.
Arguments ChooseFolder {_} _.
Arguments ClickStart {_}.
Arguments ClickStop {_}.
Arguments Complete {_}.
Arguments WorkerFailed {_}.

Definition handle `{PathLib P} (a : Ui P) (act : action P) : Ui P :=
  match act with
  | AddFiles is_file files => add_files_to_queue is_file files a
  | ClickFile line_num => on_file_click line_num a
  | ClickRemove => on_click (remove_btn a) remove_selected_file a
  | ChooseFolder folder => choose_output_folder folder a
  | ClickStart =>
      if start_packed a then on_click (start_button a) start_transcription a
      else a
  | ClickStop =>
      if start_packed a then a
      else on_click (stop_button a) stop_transcription a
  | Complete => transcription_complete a
  | WorkerFailed => worker_failed a
  end.

(** The application after [__init__], given the folder [load_config] has
    found. *)
Definition initial {P} (folder : option pystr) : Ui P :=
  mkUi [] None false false folder disabled true disabled normal.

Definition after `{PathLib P} (folder : option pystr) (acts : list (action P))
    : Ui P :=
  foldl handle (initial folder) acts.

(** A path the loop of [add_files_to_queue] accepts from [files]. *)
Definition accepted `{PathLib P} (is_file : P → bool) (files : list pystr)
    (path : P) : Prop :=
  ∃ file_path, file_path ∈ files
               ∧ path = Path (strip_chars braces file_path)
               ∧ is_file path = true
               ∧ suffix path ∈ MEDIA_EXTENSIONS.

(** The selection is [None] or an index of the queue. *)
Definition selection_ok {P} (a : Ui P) : Prop :=
  match selected_file_index a with
  | Some i => (0 <= i < Z.of_nat (length (file_queue a)))%Z
  | None => True
  end.

(** What holds of the application whatever happens to it. *)
Definition invariant {P} (a : Ui P) : Prop :=
  NoDup (file_queue a)
  ∧ selection_ok a
  ∧ (start_button a = normal →
     file_queue a ≠ [] ∧ is_set (output_folder a) = true)
  ∧ (remove_btn a = normal → selected_file_index a ≠ None).

(** A sample of [pathlib]: paths are their strings, and the suffix is the
    last four characters. *)
Definition plain_paths : PathLib pystr :=
  {| path_eq := _; Path := id; suffix := fun p => drop (length p - 4) p |}.

End Gui.

(** ** The saved settings *)

Module Config.

(** The settings [save_config] reads and [load_config] sets, with
    [use_wavlm], which neither touches; the field [p_x] is the attribute
    [x] of the application. *)
Record Prefs := mkPrefs {
  p_output_folder : option pystr;
  p_remember_folder : bool;
  p_cpu_threads : Z;
  p_output_format : pystr;
  p_enable_diarization : bool;
  p_hf_token : pystr;
  p_num_speakers : Z;
  p_use_wavlm : bool
}.

(** The JSON object of the configuration file: every key is absent or
    holds a value of the type [save_config] writes ([output_folder] may
    hold [null]). *)
Record File := mkFile {
  f_output_folder : option (option pystr);
  f_remember_folder : option bool;
  f_cpu_threads : option Z;
  f_output_format : option pystr;
  f_enable_diarization : option bool;
  f_hf_token : option pystr;
  f_num_speakers : option Z
}.

(** [load_config]; [file] is [None] when the file does not exist. *)
Definition load_config (cpu_cores : Z) (file : option File) (s : Prefs) : Prefs :=
  match file with
  | Some config =>
      mkPrefs (default None (f_output_folder config))
              (default false (f_remember_folder config))
              (default cpu_cores (f_cpu_threads config))
              (default (of_string "with_timestamps") (f_output_format config))
              (default false (f_enable_diarization config))
              (default [] (f_hf_token config))
              (default 0%Z (f_num_speakers config))
              (p_use_wavlm s)
  | None => s
  end.

(** The object [save_config] writes. *)
Definition save_config (s : Prefs) : File :=
  mkFile (Some (if p_remember_folder s then p_output_folder s else None))
         (Some (p_remember_folder s))
         (Some (p_cpu_threads s))
         (Some (p_output_format s))
         (Some (p_enable_diarization s))
         (Some (p_hf_token s))
         (Some (p_num_speakers s)).

(** The settings of a new [TranscriptionApp], before [load_config]. *)
Definition fresh (cpu_cores : Z) : Prefs :=
  mkPrefs None false cpu_cores (of_string "with_timestamps") false [] 0 true.

(** [folder if len(folder) < 50 else "…" + folder[-47:]] *)
Definition display_path (folder : pystr) : pystr :=
  if length folder <? 50 then folder
  else [8230%N] ++ drop (length folder - 47) folder.

End Config.

(** ** The development scripts *)

Module Script.
Import Reseg.

(** [str(x)] of a label that may be [None]. *)
Definition py_str (o : option string) : pystr :=
  of_string (default "None"%string o).

Definition newline : pystr := [10%N].

(** The variables of the grouping loops: [lines] put out so far,
    [current_speaker] and [current_text]. *)
Record grouping := mkGrouping {
  g_lines : list pystr;
  g_speaker : option string;
  g_text : list pystr
}.

(** The loop of [format_transcript] and of the printing of
    [test_wavlm.py]: [text_of] is the text taken from a word and
    [put] the line made of a speaker and its texts. *)
Definition put_out (put : option string → list pystr → pystr) (st : grouping)
    : list pystr :=
  if nonempty (g_text st)
  then g_lines st ++ [put (g_speaker st) (g_text st)]
  else g_lines st.

Definition group_step (text_of : Word → pystr)
    (put : option string → list pystr → pystr) (st : grouping) (word : Word)
    : grouping :=
  if bool_decide (w_speaker word ≠ g_speaker st)
  then mkGrouping (put_out put st) (w_speaker word) [text_of word]
  else mkGrouping (g_lines st) (g_speaker st) (g_text st ++ [text_of word]).

Definition group (text_of : Word → pystr)
    (put : option string → list pystr → pystr) (words : list Word)
    : list pystr :=
  put_out put (foldl (group_step text_of put) (mkGrouping [] None []) words).

(** [f"{current_speaker}: {' '.join(current_text)}\n"] *)
Definition transcript_line (sp : option string) (txt : list pystr) : pystr :=
  py_str sp ++ of_string ": " ++ join space txt ++ newline.

(** [format_transcript(words)] of [test_pyannote.py] *)
Definition format_transcript (words : list Word) : pystr :=
  if nonempty words
  then join newline (group w_word transcript_line words)
  else of_string "No words transcribed.".

(** [f"\n{current_speaker}: {' '.join(current_text)}"] *)
Definition printed_line (sp : option string) (txt : list pystr) : pystr :=
  newline ++ py_str sp ++ of_string ": " ++ join space txt.

(** The lines [test_wavlm.py] prints under [=== Diarization Results ===]. *)
Definition print_results (all_words : list Word) : list pystr :=
  group (fun w => strip (w_word w)) printed_line all_words.

(** Where [get_hf_token] looks: the argument, the file [.hf_token] next
    to the script, the two environment variables, the token file of the
    HuggingFace cache, and what the user types at the prompt. A file
    that does not exist and a variable that is not set are [None]. *)
Record Sources := mkSources {
  token_arg : option pystr;
  local_token : option pystr;
  HF_TOKEN : option pystr;
  HUGGINGFACE_TOKEN : option pystr;
  cache_token : option pystr;
  typed : pystr
}.

(** [get_hf_token] returns a token or leaves with [sys.exit(1)]. *)
Inductive answer :=
| Token (token : pystr)
| Exit.

(** A value used as a condition: [None] and the empty string are false. *)
Definition given (o : option pystr) : option pystr :=
  match o with Some (c :: s) => Some (c :: s) | _ => None end.

(** [a or b] *)
Definition or_else (a b : option pystr) : option pystr :=
  match given a with Some x => Some x | None => b end.

(** [get_hf_token(token_arg)]: how it ends, and whether it has printed
    its instructions and called [input] on the way. *)
Definition get_hf_token (src : Sources) : answer * bool :=
  match given (token_arg src) with
  | Some token => (Token token, false)
  | None =>
      match given (strip <$> local_token src) with
      | Some token => (Token token, false)
      | None =>
          match given (or_else (HF_TOKEN src) (HUGGINGFACE_TOKEN src)) with
          | Some token => (Token token, false)
          | None =>
              match cache_token src with
              | Some content => (Token (strip content), false)
              | None =>
                  match given (Some (strip (typed src))) with
                  | Some token => (Token token, true)
                  | None => (Exit, true)
                  end
              end
          end
      end
  end.

(** The user is prompted. *)
Definition prompted (src : Sources) : bool := snd (get_hf_token src).

End Script.

(** * Properties *)

(** ** Text *)

Module TextFacts.

Lemma squeeze_app (s t : pystr) : squeeze (s ++ t) = squeeze s ++ squeeze t.
Proof. unfold squeeze. apply filter_app. Qed.

Lemma squeeze_cons_space (c : N) (s : pystr) :
  isspace c = true → squeeze (c :: s) = squeeze s.
Proof.
  intros Hc. unfold squeeze. rewrite filter_cons.
  destruct (decide (isspace c = false)) as [E|_]; [congruence|done].
Qed.

Lemma squeeze_lstrip (s : pystr) : squeeze (lstrip s) = squeeze s.
Proof.
  induction s as [|c s IH]; simpl; [done|].
  destruct (isspace c) eqn:Hc; [|done].
  by rewrite IH, squeeze_cons_space.
Qed.

Lemma squeeze_reverse (s : pystr) : squeeze (reverse s) = reverse (squeeze s).
Proof.
  unfold squeeze. induction s as [|c s IH]; [done|].
  rewrite reverse_cons, filter_app, IH, !filter_cons, filter_nil.
  destruct (decide (isspace c = false)).
  - by rewrite reverse_cons.
  - by rewrite app_nil_r.
Qed.

Lemma squeeze_strip (s : pystr) : squeeze (strip s) = squeeze s.
Proof.
  unfold strip, rstrip.
  by rewrite squeeze_reverse, squeeze_lstrip, squeeze_reverse,
    reverse_involutive, squeeze_lstrip.
Qed.

Lemma squeeze_space : squeeze space = [].
Proof. reflexivity. Qed.

(** Joining with single spaces adds nothing but whitespace. *)
Lemma squeeze_join (l : list pystr) :
  squeeze (join space l) = squeeze (concat l).
Proof.
  induction l as [|x [|y l] IH]; [done| |].
  - simpl. by rewrite app_nil_r.
  - change (join space (x :: y :: l)) with (x ++ space ++ join space (y :: l)).
    change (concat (x :: y :: l)) with (x ++ concat (y :: l)).
    by rewrite !squeeze_app, squeeze_space, IH.
Qed.

Lemma squeeze_concat_strip (l : list pystr) :
  squeeze (concat (map strip l)) = squeeze (concat l).
Proof.
  induction l as [|x l IH]; [done|].
  simpl. by rewrite !squeeze_app, squeeze_strip, IH.
Qed.

(** [strip] leaves no whitespace at either end. *)
Lemma lstrip_head (s : pystr) (c : N) :
  head (lstrip s) = Some c → isspace c = false.
Proof.
  induction s as [|d s IH]; simpl; [done|].
  destruct (isspace d) eqn:Hd; [done|].
  simpl. congruence.
Qed.

End TextFacts.

(** ** The Resegmenter *)

Module ResegFacts.
Import Reseg TextFacts.

Lemma runs_nonnil (w : Word) (ws : list Word) : runs (w :: ws) ≠ [].
Proof.
  simpl. destruct (runs ws) as [|[|w' r] rs]; [done..|].
  by destruct (decide _).
Qed.

Lemma runs_no_empty (ws : list Word) : Forall (fun r => r ≠ []) (runs ws).
Proof.
  induction ws as [|w ws IH]; simpl; [constructor|].
  destruct (runs ws) as [|[|w' r] rs] eqn:E.
  - by repeat constructor.
  - by repeat constructor.
  - inversion IH; subst. destruct (decide _); by repeat constructor.
Qed.

(** The runs are a partition of the word sequence, in order. *)
Lemma runs_concat (ws : list Word) : concat (runs ws) = ws.
Proof.
  induction ws as [|w ws IH]; [done|].
  pose proof (runs_no_empty ws) as Hne.
  simpl. destruct (runs ws) as [|[|w' r] rs] eqn:E.
  - simpl in *. by subst.
  - by inversion Hne.
  - destruct (decide _); simpl in *; by rewrite IH.
Qed.

(** Every run is a non-empty block of words with one label. *)
Lemma runs_homogeneous (ws : list Word) :
  Forall (fun r => is_run (run_speaker r) r) (runs ws).
Proof.
  induction ws as [|w ws IH]; simpl; [constructor|].
  destruct (runs ws) as [|[|w' r] rs] eqn:E.
  - repeat constructor; done.
  - repeat constructor; done.
  - inversion IH as [|? ? [_ Hr] Hrs]; subst.
    destruct (decide _) as [Heq|Hne].
    + constructor; [|done]. split; [done|].
      constructor; [done|]. simpl in *. by rewrite Heq.
    + constructor; [by repeat constructor|].
      constructor; [by split|done].
Qed.

Lemma runs_maximal (ws : list Word) : maximal (runs ws).
Proof.
  induction ws as [|w ws IH]; simpl; [done|].
  destruct (runs ws) as [|[|w' r] rs] eqn:E; [done..|].
  destruct (decide _) as [Heq|Hne].
  - destruct rs as [|r2 rs]; [done|]. simpl in *.
    destruct IH as [H1 H2]. split; [|done]. by rewrite Heq.
  - split; done.
Qed.

Lemma runs_length (ws : list Word) : length (runs ws) = num_runs ws.
Proof.
  induction ws as [|w ws IH]; [done|].
  destruct ws as [|w1 ws]; [done|].
  change (num_runs (w :: w1 :: ws)) with
    ((if decide (w_speaker w = w_speaker w1) then 0 else 1) + num_runs (w1 :: ws)).
  rewrite <- IH.
  pose proof (runs_concat (w1 :: ws)) as Hc.
  pose proof (runs_no_empty (w1 :: ws)) as Hne.
  change (runs (w :: w1 :: ws)) with
    (match runs (w1 :: ws) with
     | (w' :: r) :: rs =>
         if decide (w_speaker w = w_speaker w')
         then (w :: w' :: r) :: rs else [w] :: (w' :: r) :: rs
     | _ => [[w]]
     end).
  destruct (runs (w1 :: ws)) as [|[|w' r] rs] eqn:E; [done| |].
  - by inversion Hne.
  - simpl in Hc. injection Hc as -> _.
    by destruct (decide _).
Qed.

(** A block with one label is a single run. *)
Lemma runs_block (sp : option string) (cw : list Word) :
  is_run sp cw → runs cw = [cw].
Proof.
  intros [Hne Hall]. induction Hall as [|w cw Hw Hall IH]; [done|].
  destruct cw as [|w' cw]; [done|].
  simpl in *. rewrite IH by done.
  inversion Hall; subst. rewrite decide_True by congruence. done.
Qed.

(** A block with one label followed by a word with another label is a
    run of its own. *)
Lemma runs_block_app (sp : option string) (cw : list Word) (w : Word)
    (ws : list Word) :
  is_run sp cw → w_speaker w ≠ sp →
  runs (cw ++ w :: ws) = cw :: runs (w :: ws).
Proof.
  intros [Hne Hall] Hw. induction Hall as [|c cw Hc Hall IH]; [done|].
  destruct cw as [|c' cw].
  - change (runs ([c] ++ w :: ws)) with
      (match runs (w :: ws) with
       | (w' :: r) :: rs =>
           if decide (w_speaker c = w_speaker w')
           then (c :: w' :: r) :: rs else [c] :: (w' :: r) :: rs
       | _ => [[c]]
       end).
    pose proof (runs_concat (w :: ws)) as Hcc.
    pose proof (runs_no_empty (w :: ws)) as Hn.
    destruct (runs (w :: ws)) as [|[|w' r] rs] eqn:E; [done| |].
    + by inversion Hn.
    + simpl in Hcc. injection Hcc as -> _.
      rewrite decide_False by congruence. done.
  - change (runs ((c :: c' :: cw) ++ w :: ws)) with
      (match runs ((c' :: cw) ++ w :: ws) with
       | (w' :: r) :: rs =>
           if decide (w_speaker c = w_speaker w')
           then (c :: w' :: r) :: rs else [c] :: (w' :: r) :: rs
       | _ => [[c]]
       end).
    rewrite IH by done.
    inversion Hall; subst. rewrite decide_True by congruence. done.
Qed.

Lemma nonempty_true {A} (l : list A) : l ≠ [] → nonempty l = true.
Proof. by destruct l. Qed.

Lemma is_run_snoc (sp : option string) (cw : list Word) (w : Word) :
  is_run sp cw → w_speaker w = sp → is_run sp (cw ++ [w]).
Proof.
  intros [Hne Hall] Hw. split.
  - by destruct cw.
  - apply Forall_app. split; [done|]. by repeat constructor.
Qed.

Lemma first_start_snoc (cw : list Word) (w : Word) :
  cw ≠ [] → first_start (cw ++ [w]) = first_start cw.
Proof. by destruct cw. Qed.

Lemma run_speaker_is_run (sp : option string) (cw : list Word) :
  is_run sp cw → run_speaker cw = sp.
Proof. intros [Hne Hall]. destruct cw; [done|]. by inversion Hall. Qed.

(** The loop invariant: while the loop holds an open run [cw], what it
    will return is what it has emitted so far followed by the segments
    of the runs of [cw] and the words still to come. *)
Lemma loop_open_run (ws : list Word) :
  ∀ (st : state),
    is_run (current_speaker st) (current_words st) →
    current_start st = first_start (current_words st) →
    finish (foldl step st ws)
    = new_segments st ++ map segment_of_run (runs (current_words st ++ ws)).
Proof.
  induction ws as [|w ws IH]; intros st Hrun Hstart.
  - simpl. unfold finish. rewrite nonempty_true by apply Hrun.
    rewrite app_nil_r, (runs_block _ _ Hrun). simpl.
    unfold flush, segment_of_run.
    by rewrite Hstart, (run_speaker_is_run _ _ Hrun).
  - simpl. unfold step at 2, step_with.
    rewrite (nonempty_true (current_words st)) by apply Hrun.
    destruct (decide (w_speaker w = current_speaker st)) as [Heq|Hne].
    + rewrite bool_decide_eq_false_2 by (intros H; by apply H).
      simpl. rewrite IH; simpl.
      * by rewrite <- app_assoc.
      * by apply is_run_snoc.
      * rewrite first_start_snoc by apply Hrun. done.
    + rewrite bool_decide_eq_true_2 by done.
      simpl. rewrite IH; simpl.
      * rewrite (runs_block_app _ _ _ _ Hrun Hne). simpl.
        rewrite <- app_assoc. simpl. unfold flush, segment_of_run at 2.
        by rewrite Hstart, (run_speaker_is_run _ _ Hrun).
      * split; [done|]. by repeat constructor.
      * done.
Qed.

(** The loop computes the segments of the maximal runs. *)
Lemma resegment_runs (ws : list Word) :
  resegment ws = map segment_of_run (runs ws).
Proof.
  unfold resegment. destruct ws as [|w ws]; [done|].
  simpl foldl. unfold step at 2, step_with. simpl.
  rewrite andb_false_r. rewrite loop_open_run; simpl.
  - done.
  - split; [done|]. by repeat constructor.
  - done.
Qed.

End ResegFacts.

Module ResegOrder.
Import Reseg TextFacts ResegFacts.

Lemma segment_of_run_matches (r : list Word) :
  r ≠ [] → segment_matches_run r (segment_of_run r).
Proof.
  intros Hne. unfold segment_matches_run, segment_of_run, last_end. simpl.
  split; [done|]. split; [by destruct r|]. split; [|done].
  destruct (last r) eqn:E; [done|].
  apply last_None in E. done.
Qed.

Lemma resegment_matches (ws : list Word) :
  Forall2 segment_matches_run (runs ws) (resegment ws).
Proof.
  rewrite resegment_runs. apply Forall2_fmap_r, Forall_Forall2_diag.
  eapply Forall_impl; [apply runs_no_empty|].
  intros r Hr. by apply segment_of_run_matches.
Qed.

Lemma runs_Forall (P : Word → Prop) (ws : list Word) :
  Forall P ws → Forall (Forall P) (runs ws).
Proof. intros H. apply Forall_concat. by rewrite runs_concat. Qed.

Lemma segments_after (q : Q) (ws : list Word) :
  Forall (fun w => (q <= w_start w)%Q) ws →
  Forall (fun s => (q <= start s)%Q) (map segment_of_run (runs ws)).
Proof.
  intros H. apply Forall_fmap.
  pose proof (runs_Forall _ _ H) as HF.
  pose proof (runs_no_empty ws) as HN.
  induction HF as [|r rs Hr _ IH]; [constructor|].
  inversion HN; subst. constructor; [|by apply IH].
  destruct r; [done|]. simpl. by inversion Hr.
Qed.

Lemma strongly_sorted_segments (ws : list Word) :
  StronglySorted (fun a b => (w_start a <= w_start b)%Q) ws →
  StronglySorted (fun a b => (start a <= start b)%Q)
    (map segment_of_run (runs ws)).
Proof.
  induction 1 as [|w ws Hss IH Hall]; [constructor|].
  pose proof (segments_after _ _ Hall) as Hafter.
  simpl. destruct (runs ws) as [|[|w' r] rs] eqn:E.
  - repeat constructor.
  - repeat constructor.
  - destruct (decide _).
    + simpl in *. inversion IH; subst. inversion Hafter; subst.
      constructor; done.
    + constructor; done.
Qed.

Lemma resegment_chronological (ws : list Word) :
  chronological ws → chronological_segments (resegment ws).
Proof.
  intros H. rewrite resegment_runs.
  apply StronglySorted_Sorted, strongly_sorted_segments.
  apply Sorted.Sorted_StronglySorted; [|done].
  intros a b c. apply Qle_trans.
Qed.

Lemma words_text_squeeze (r : list Word) :
  squeeze (words_text r) = squeeze (concat (map w_word r)).
Proof.
  unfold words_text. rewrite squeeze_join.
  rewrite <- (squeeze_concat_strip (map w_word r)).
  by rewrite <- list_fmap_compose.
Qed.

Lemma resegment_text (ws : list Word) :
  squeeze (concat (map text (resegment ws)))
  = squeeze (concat (map w_word ws)).
Proof.
  rewrite resegment_runs.
  rewrite <- (runs_concat ws) at 2.
  induction (runs ws) as [|r rs IH]; [done|].
  simpl. rewrite fmap_app, concat_app, !squeeze_app, words_text_squeeze.
  f_equal. apply IH.
Qed.

End ResegOrder.

(** C1. For a non-empty, chronologically ordered sequence of speaker-labelled
    words the re-segmentation loop returns exactly one segment per maximal
    run of consecutive words with the same label: the runs [rs] partition
    the words in order, each is a non-empty block with one label,
    neighbouring runs differ in label, and their number is the number of
    label changes plus one; the i-th segment has the i-th run's stripped
    word texts joined by single spaces as text, the run's first start and
    last end as times, and the run's label; the segments are in
    chronological order; with whitespace ignored the segment texts
    concatenate to the word texts; and no words give no segments. *)
Theorem resegmenter_one_segment_per_run (all_words : list Word) :
  all_words ≠ [] →
  Reseg.chronological all_words →
  (∃ rs : list (list Word),
     concat rs = all_words
     ∧ Forall (fun r => Reseg.is_run (Reseg.run_speaker r) r) rs
     ∧ Reseg.maximal rs
     ∧ length rs = Reseg.num_runs all_words
     ∧ Forall2 Reseg.segment_matches_run rs (Reseg.resegment all_words))
  ∧ length (Reseg.resegment all_words) = Reseg.num_runs all_words
  ∧ Reseg.chronological_segments (Reseg.resegment all_words)
  ∧ squeeze (concat (map text (Reseg.resegment all_words)))
    = squeeze (concat (map w_word all_words))
  ∧ Reseg.resegment [] = [].
Proof.
  intros _ Hchron. split; [|split; [|split; [|split]]].
  - exists (Reseg.runs all_words).
    split; [apply ResegFacts.runs_concat|].
    split; [apply ResegFacts.runs_homogeneous|].
    split; [apply ResegFacts.runs_maximal|].
    split; [apply ResegFacts.runs_length|].
    apply ResegOrder.resegment_matches.
  - rewrite ResegFacts.resegment_runs, length_fmap.
    apply ResegFacts.runs_length.
  - by apply ResegOrder.resegment_chronological.
  - apply ResegOrder.resegment_text.
  - reflexivity.
Qed.

(** The scenario of the specification, run through the loop. *)
Example scenario_segments :
  Reseg.resegment Reseg.scenario_words
  = [ mkSeg (of_string "hi there") 0 0.6 (Some "S0"%string);
      mkSeg (of_string "bob") 1 1.3 (Some "S1"%string) ].
Proof. reflexivity. Qed.

Lemma resegmenter_one_segment_per_run_witness :
  Reseg.scenario_words ≠ []
  ∧ Reseg.chronological Reseg.scenario_words
  ∧ length (Reseg.resegment Reseg.scenario_words) = 2.
Proof.
  assert (H1 : Reseg.scenario_words ≠ []) by discriminate.
  assert (H2 : Reseg.chronological Reseg.scenario_words).
  { repeat constructor; unfold Qle; simpl; lia. }
  split; [exact H1|]. split; [exact H2|].
  exact (proj1 (proj2 (resegmenter_one_segment_per_run _ H1 H2))).
Defined.

(** ** Turn intervals *)

Module TurnFacts.
Import Reseg Turns ResegFacts.

Lemma contains_inside (t : Turn) (mid : Q) :
  contains t mid = true ↔ inside t mid.
Proof.
  unfold contains, inside.
  rewrite andb_true_iff, !Qle_bool_iff. done.
Qed.

Lemma find_speaker_Some (turns : list Turn) (mid : Q) (l : string) :
  find_speaker turns mid = Some l →
  ∃ i t, first_match turns mid i t ∧ l = spk t.
Proof.
  induction turns as [|t turns IH]; simpl; [done|].
  destruct (contains t mid) eqn:E.
  - intros [= <-]. exists 0, t. split; [|done].
    split; [done|]. split; [by apply contains_inside|]. lia.
  - intros H. destruct (IH H) as (i & t' & (Hi & Hin & Hmin) & ->).
    exists (S i), t'. split; [|done].
    split; [done|]. split; [done|].
    intros [|j] t'' Hj Hl Hc.
    + simpl in Hl. injection Hl as <-.
      apply contains_inside in Hc. congruence.
    + simpl in Hl. apply (Hmin j t''); [lia|done..].
Qed.

Lemma find_speaker_None (turns : list Turn) (mid : Q) :
  find_speaker turns mid = None ↔ ∀ t, t ∈ turns → ¬ inside t mid.
Proof.
  induction turns as [|t turns IH]; simpl.
  - split; [|done]. intros _ t Ht. by apply elem_of_nil in Ht.
  - destruct (contains t mid) eqn:E.
    + split; [done|]. intros H. exfalso.
      apply (H t); [left|]. by apply contains_inside.
    + rewrite IH. split.
      * intros H t' [->|Ht']%elem_of_cons; [|by apply H].
        rewrite <- contains_inside. congruence.
      * intros H t' Ht'. apply H. by right.
Qed.

Lemma find_speaker_first (turns : list Turn) (mid : Q) (i : nat) (t : Turn) :
  first_match turns mid i t → find_speaker turns mid = Some (spk t).
Proof.
  revert i. induction turns as [|t0 turns IH]; intros i (Hi & Hin & Hmin).
  - done.
  - simpl. destruct i as [|i].
    + simpl in Hi. injection Hi as ->.
      apply contains_inside in Hin. by rewrite Hin.
    + destruct (contains t0 mid) eqn:E.
      * exfalso. apply (Hmin 0 t0); [lia|done|]. by apply contains_inside.
      * apply (IH i). split; [done|]. split; [done|].
        intros j t' Hj Hl. apply (Hmin (S j) t'); [lia|done].
Qed.

(** The development script differs only in the label it starts from. *)
Lemma scan_segments_find (turns : list Turn) (mid : Q) (d : string) :
  scan_segments turns mid d = default d (find_speaker turns mid).
Proof.
  induction turns as [|t turns IH]; simpl; [done|].
  by destruct (contains t mid).
Qed.

(** *** The turn-interval loop against the word-label loop *)

Lemma words_text_resolve (turns : list Turn) (ws : list Word) :
  words_text (map (resolve turns) ws) = words_text ws.
Proof. unfold words_text. by rewrite <- list_fmap_compose. Qed.

Lemma last_end_resolve (turns : list Turn) (ws : list Word) :
  last_end (map (resolve turns) ws) = last_end ws.
Proof.
  unfold last_end. rewrite fmap_last. by destruct (last ws).
Qed.

Lemma nonempty_fmap {A B} (f : A → B) (l : list A) :
  nonempty (map f l) = nonempty l.
Proof. by destruct l. Qed.

Lemma flush_in_step ns turns st st' :
  in_step ns turns st st' → flush st = flush st'.
Proof.
  intros (_ & Hs & Ht & Hw). unfold flush.
  by rewrite Hs, Ht, Hw, words_text_resolve, last_end_resolve.
Qed.

Lemma step_in_step ns turns st st' (w : Word) :
  in_step ns turns st st' →
  in_step ns turns
    (step_with (find_speaker turns (word_mid w)) st w)
    (step st' (resolve turns w)).
Proof.
  intros H. pose proof (flush_in_step _ _ _ _ H) as Hf.
  destruct H as (Hn & Hs & Ht & Hw).
  unfold step, step_with.
  rewrite Hw, nonempty_fmap. simpl w_speaker. rewrite <- Hs.
  destruct (bool_decide _ && nonempty _); simpl.
  - unfold in_step; simpl. rewrite Hn, Hf, app_assoc. done.
  - unfold in_step; simpl. rewrite Hs, fmap_app. done.
Qed.

Lemma loop_in_step ns turns (ws : list Word) :
  ∀ st st', in_step ns turns st st' →
    in_step ns turns
      (foldl (fun st word =>
                step_with (find_speaker turns (word_mid word)) st word) st ws)
      (foldl step st' (map (resolve turns) ws)).
Proof.
  induction ws as [|w ws IH]; intros st st' H; [done|].
  simpl. apply IH. by apply step_in_step.
Qed.

Lemma finish_in_step ns turns st st' :
  in_step ns turns st st' → finish st = ns ++ finish st'.
Proof.
  intros H. pose proof (flush_in_step _ _ _ _ H) as Hf.
  destruct H as (Hn & Hs & Ht & Hw). unfold finish.
  rewrite Hw, nonempty_fmap, Hn, Hf.
  destruct (nonempty _); [by rewrite app_assoc|done].
Qed.

(** One pass of the outer loop appends the segment's own units. *)
Lemma resegment_segment_units turns ns (segment : Segment) :
  resegment_segment turns ns segment = ns ++ segment_units turns segment.
Proof.
  unfold resegment_segment, segment_units.
  destruct (s_words segment) as [|w0 ws] eqn:E; [done|].
  unfold resegment. apply (finish_in_step ns turns), loop_in_step.
  unfold in_step; simpl. by rewrite app_nil_r.
Qed.

Lemma turn_resegment_from turns (segs : list Segment) :
  ∀ ns, foldl (resegment_segment turns) ns segs
        = ns ++ concat (map (segment_units turns) segs).
Proof.
  induction segs as [|sg segs IH]; intros ns; simpl.
  - by rewrite app_nil_r.
  - by rewrite IH, resegment_segment_units, app_assoc.
Qed.

End TurnFacts.

(** The label [assign_speakers_to_words] gives each word, by the scan
    that starts from ['UNKNOWN']. *)
Lemma assign_speakers_labels (words : list Word) (turns : list Turn) :
  Turns.assign_speakers_to_words words turns
  = map (fun w =>
           Turns.set_speaker
             (Some (default Turns.UNKNOWN
                      (Turns.find_speaker turns
                         (Float.fdiv (Float.fadd (w_start w) (w_end w)) 2)))) w)
        words.
Proof.
  unfold Turns.assign_speakers_to_words. apply map_ext. intros w.
  by rewrite TurnFacts.scan_segments_find.
Qed.

(** C3. For every word and every list of speaker turns, the label the
    turn-interval assignment gives the word is that of the first turn, in
    list order, whose closed interval contains the word's midpoint
    [(start + end) / 2], computed in binary64 as the code computes it: a
    label is returned exactly for a first match, so among overlapping
    turns the earliest in the list wins, and no label exactly when no
    turn contains the midpoint. This is the label the application puts
    on the segment of a word (and, by the segment's own midpoint, on a
    segment without words), and the label the development script sets on
    every word of its list, with ['UNKNOWN'] for no label. *)
Theorem turn_assignment_first_match (w : Word) (turns : list Turn) :
  let mid := Float.fdiv (Float.fadd (w_start w) (w_end w)) 2 in
  (∀ l, Turns.find_speaker turns mid = Some l
        ↔ ∃ i t, Turns.first_match turns mid i t ∧ l = spk t)
  ∧ (Turns.find_speaker turns mid = None
     ↔ ∀ t, t ∈ turns → ¬ Turns.inside t mid)
  ∧ (∀ (t : pystr) (a b : Q),
       Turns.turn_resegment turns [mkSegment t a b [w]]
       = [mkSeg (strip (w_word w)) (w_start w) (w_end w)
                (Turns.find_speaker turns mid)])
  ∧ (∀ (t : pystr) (a b : Q),
       Turns.turn_resegment turns [mkSegment t a b []]
       = [mkSeg t a b
                (Turns.find_speaker turns (Float.fdiv (Float.fadd a b) 2))])
  ∧ (∀ before after : list Word,
       map w_speaker
         (Turns.assign_speakers_to_words (before ++ w :: after) turns)
       !! length before
       = Some (Some (default Turns.UNKNOWN (Turns.find_speaker turns mid)))).
Proof.
  intros mid. split; [|split; [|split; [|split]]].
  - intros l. split.
    + apply TurnFacts.find_speaker_Some.
    + intros (i & t & H & ->). by eapply TurnFacts.find_speaker_first.
  - apply TurnFacts.find_speaker_None.
  - intros t a b. unfold Turns.turn_resegment. simpl.
    rewrite TurnFacts.resegment_segment_units. unfold Turns.segment_units.
    simpl. by rewrite ResegFacts.resegment_runs.
  - reflexivity.
  - intros before after. rewrite assign_speakers_labels.
    rewrite <- !list_fmap_compose, list_lookup_fmap.
    rewrite lookup_app_r by lia. by rewrite Nat.sub_diag.
Qed.

(** The rounding of the midpoint is the code's: the floats 0.1 and 0.2
    add up to 0.30000000000000004, so a word from 0.1 to 0.2 has the
    midpoint 0.15000000000000002 and lies in a turn that starts there,
    though the exact midpoint 0.15 lies before it. *)
Example rounded_midpoint :
  let word := mkWord (of_string "a") (Float.round64 0.1) (Float.round64 0.2) None in
  let turns := [mkTurn (Float.round64 0.15000000000000002) 1 "A"] in
  Turns.word_mid word = Float.round64 0.15000000000000002
  ∧ map w_speaker (Turns.assign_speakers_to_words [word] turns) = [Some "A"%string]
  ∧ Turns.find_speaker turns 0.15 = None.
Proof. vm_compute. repeat split. Qed.

(** C2, as the code has it. The turn-interval variant resolves every
    word's label by first-match containment and applies the merge rule of
    the word-label loop to the words of each transcription segment
    separately, in segment order: a segment without words gives one
    segment labelled by its own midpoint, and the last run of a segment is
    closed at the segment's end. It is the whole-file merge when the file
    is a single segment that has words. *)
Theorem turn_resegment_per_segment (turns : list Turn) (segments_list : list Segment) :
  Turns.turn_resegment turns segments_list
  = concat (map (Turns.segment_units turns) segments_list)
  ∧ (∀ (t : pystr) (a b : Q) (w : Word) (ws : list Word),
       Turns.turn_resegment turns [mkSegment t a b (w :: ws)]
       = Turns.resolve_then_merge turns [mkSegment t a b (w :: ws)]).
Proof.
  split.
  - unfold Turns.turn_resegment. by rewrite TurnFacts.turn_resegment_from.
  - intros t a b w ws. unfold Turns.turn_resegment.
    rewrite TurnFacts.turn_resegment_from.
    unfold Turns.resolve_then_merge, Turns.all_words, Turns.segment_units.
    simpl. by rewrite !app_nil_r.
Qed.

(** C2, as stated, fails: two one-word segments inside one speaker turn
    stay two output segments, where resolving and merging over the whole
    word sequence gives one. *)
Lemma turn_resegment_splits_at_segment_boundary :
  Turns.turn_resegment Turns.one_turn Turns.two_segments
  = [ mkSeg (of_string "hello") 0 1 (Some "SPEAKER_00"%string);
      mkSeg (of_string "world") 1 2 (Some "SPEAKER_00"%string) ]
  ∧ Turns.resolve_then_merge Turns.one_turn Turns.two_segments
    = [ mkSeg (of_string "hello world") 0 2 (Some "SPEAKER_00"%string) ]
  ∧ Turns.turn_resegment Turns.one_turn Turns.two_segments
    ≠ Turns.resolve_then_merge Turns.one_turn Turns.two_segments.
Proof.
  split; [reflexivity|]. split; [reflexivity|]. vm_compute. discriminate.
Qed.

(** ** Rendering of times *)

Module TimestampFacts.
Import Timestamp.

Lemma Qfloor_unique (q : Q) (z : Z) :
  (inject_Z z <= q)%Q → (q < inject_Z (z + 1))%Q → Qfloor q = z.
Proof.
  intros Hlo Hhi.
  pose proof (Qfloor_le q) as H1. pose proof (Qlt_floor q) as H2.
  assert (inject_Z z < inject_Z (Qfloor q + 1))%Q as Ha by lra.
  assert (inject_Z (Qfloor q) < inject_Z (z + 1))%Q as Hb by lra.
  rewrite <- Zlt_Qlt in Ha, Hb. lia.
Qed.

Lemma Qfloor_bounds (q : Q) :
  (inject_Z (Qfloor q) <= q)%Q ∧ (q < inject_Z (Qfloor q) + 1)%Q.
Proof.
  split; [apply Qfloor_le|].
  pose proof (Qlt_floor q) as H. rewrite inject_Z_plus in H. exact H.
Qed.

(** Dividing by a positive integer commutes with taking the floor. *)
Lemma Qfloor_div (q : Q) (n : Z) :
  (0 < n)%Z → Qfloor (q / inject_Z n) = (Qfloor q / n)%Z.
Proof.
  intros Hn. destruct (Qfloor_bounds q) as [Hlo Hhi].
  assert (0 < inject_Z n)%Q as HnQ by (change 0%Q with (inject_Z 0); by rewrite <- Zlt_Qlt).
  pose proof (Z.div_mod (Qfloor q) n ltac:(lia)) as Hdm.
  pose proof (Z.mod_pos_bound (Qfloor q) n Hn) as Hmb.
  set (d := (Qfloor q / n)%Z) in *. set (r := (Qfloor q mod n)%Z) in *.
  assert (inject_Z (Qfloor q) == inject_Z n * inject_Z d + inject_Z r)%Q as HQ.
  { rewrite Hdm, inject_Z_plus, inject_Z_mult. reflexivity. }
  assert (0 <= inject_Z r)%Q as Hr0
    by (change 0%Q with (inject_Z 0); rewrite <- Zle_Qle; lia).
  assert (inject_Z r + 1 <= inject_Z n)%Q as Hr1.
  { change 1%Q with (inject_Z 1). rewrite <- inject_Z_plus, <- Zle_Qle. lia. }
  apply Qfloor_unique.
  - apply Qle_shift_div_l; [done|]. nra.
  - apply Qlt_shift_div_r; [done|]. rewrite inject_Z_plus.
    change (inject_Z 1) with 1%Q. nra.
Qed.

Lemma Qfloor_sub_Z (q : Q) (k : Z) :
  Qfloor (q - inject_Z k) = (Qfloor q - k)%Z.
Proof.
  destruct (Qfloor_bounds q) as [Hlo Hhi].
  apply Qfloor_unique.
  - unfold Z.sub. rewrite inject_Z_plus, inject_Z_opp. lra.
  - replace (Qfloor q - k + 1)%Z with (Qfloor q + 1 + - k)%Z by lia.
    rewrite !inject_Z_plus, inject_Z_opp. change (inject_Z 1) with 1%Q. lra.
Qed.

Lemma int_nonneg (q : Q) : (0 <= q)%Q → int q = Qfloor q.
Proof.
  intros H. unfold int. apply Qle_bool_iff in H. by rewrite H.
Qed.

Lemma int_inject (z : Z) : int (inject_Z z) = z.
Proof.
  unfold int. rewrite Qfloor_Z, Qceiling_Z. by destruct (Qle_bool _ _).
Qed.

Lemma floordiv_int (s : Q) (n : Z) :
  (0 < n)%Z → int (floordiv s (inject_Z n)) = (Qfloor s / n)%Z.
Proof.
  intros Hn. unfold floordiv. by rewrite int_inject, Qfloor_div.
Qed.

Lemma pymod_floor (s : Q) (n : Z) :
  (0 < n)%Z → Qfloor (pymod s (inject_Z n)) = (Qfloor s mod n)%Z.
Proof.
  intros Hn. unfold pymod, floordiv.
  rewrite <- inject_Z_mult, Qfloor_sub_Z, Qfloor_div by done.
  rewrite Z.mod_eq by lia. done.
Qed.

Lemma pymod_nonneg (s : Q) (n : Z) :
  (0 < n)%Z → (0 <= pymod s (inject_Z n))%Q.
Proof.
  intros Hn.
  assert (0 < inject_Z n)%Q as HnQ by (change 0%Q with (inject_Z 0); by rewrite <- Zlt_Qlt).
  unfold pymod, floordiv.
  destruct (Qfloor_bounds (s / inject_Z n)) as [Hlo _].
  assert (s == inject_Z n * (s / inject_Z n))%Q as Hs
    by (field; lra).
  rewrite Hs at 1. nra.
Qed.

(** The three fields, in integer arithmetic on the whole seconds. *)
Lemma format_timestamp_fields (s : Q) :
  let t := Qfloor s in
  format_timestamp s
  = (fmt02d (t / 3600) +:+ ":" +:+ fmt02d (t mod 3600 / 60) +:+ ":"
     +:+ fmt02d (t mod 60))%string.
Proof.
  intros t. unfold format_timestamp.
  change 3600%Q with (inject_Z 3600). change 60%Q with (inject_Z 60).
  rewrite floordiv_int by lia.
  unfold floordiv at 1. rewrite int_inject.
  rewrite Qfloor_div, pymod_floor by lia.
  rewrite int_nonneg by (apply pymod_nonneg; lia).
  rewrite pymod_floor by lia. done.
Qed.

Lemma fmt02d_two_digits (n : Z) :
  (0 <= n < 100)%Z → String.length (fmt02d n) = 2.
Proof.
  intros H.
  assert (Hcases : ∃ k : nat, k < 100 ∧ n = Z.of_nat k)
    by (exists (Z.to_nat n); lia).
  destruct Hcases as (k & Hk & ->).
  do 100 (destruct k as [|k]; [reflexivity|]). lia.
Qed.

End TimestampFacts.

Module TimestampWidth.
Import Timestamp TimestampFacts.

Lemma digits_short (n : N) :
  (String.length (digits n) <= 1)%nat → (n < 10)%N.
Proof.
  unfold digits. intros H.
  rewrite <- (DecimalN.Unsigned.of_to n).
  destruct (N.to_uint n) as [|d|d|d|d|d|d|d|d|d|d];
    [vm_compute; done|..];
    (destruct d; [vm_compute; done|simpl in H; lia..]).
Qed.

Lemma fmt02d_width (n : Z) : (0 <= n)%Z → 2 ≤ String.length (fmt02d n).
Proof.
  intros H. unfold fmt02d.
  destruct (Z.ltb_spec n 0) as [?|_]; [lia|].
  destruct (Z.ltb_spec n 10) as [Hlt|Hge].
  - pose proof (fmt02d_two_digits n ltac:(lia)) as H2.
    unfold fmt02d in H2.
    destruct (Z.ltb_spec n 0); [lia|].
    destruct (Z.ltb_spec n 10); [|lia]. lia.
  - destruct (le_lt_dec (String.length (digits (Z.to_N n))) 1) as [Hs|Hs]; [|lia].
    apply digits_short in Hs. lia.
Qed.

Lemma length_append (a b : string) :
  String.length (a +:+ b) = String.length a + String.length b.
Proof. induction a as [|c a IH]; simpl; [done|by rewrite IH]. Qed.

End TimestampWidth.

(** C10. For every non-negative number of seconds, [format_timestamp]
    returns the three fields hours, minutes and seconds of the whole
    seconds [t] of its argument, each rendered with the format [02d] (at
    least two digits, zero-padded) and separated by colons: [t] is
    [3600 h + 60 m + s] with minutes and seconds between 0 and 59, the
    minutes and seconds fields are exactly two characters wide and the
    hours field is two characters wide below a hundred hours (so that the
    string is eight characters long); and the fractional part of the
    argument does not matter. *)
Theorem format_timestamp_hh_mm_ss (seconds : Q) :
  (0 <= seconds)%Q →
  (∃ h m s : Z,
     Qfloor seconds = (3600 * h + 60 * m + s)%Z
     ∧ (0 <= h)%Z ∧ (0 <= m <= 59)%Z ∧ (0 <= s <= 59)%Z
     ∧ Timestamp.format_timestamp seconds
       = (Timestamp.fmt02d h +:+ ":" +:+ Timestamp.fmt02d m +:+ ":"
          +:+ Timestamp.fmt02d s)%string
     ∧ 2 ≤ String.length (Timestamp.fmt02d h)
     ∧ ((h < 100)%Z → String.length (Timestamp.fmt02d h) = 2)
     ∧ String.length (Timestamp.fmt02d m) = 2
     ∧ String.length (Timestamp.fmt02d s) = 2)
  ∧ ((seconds < 360000)%Q →
     String.length (Timestamp.format_timestamp seconds) = 8)
  ∧ Timestamp.format_timestamp seconds
    = Timestamp.format_timestamp (inject_Z (Qfloor seconds)).
Proof.
  intros Hs.
  assert (Ht : (0 <= Qfloor seconds)%Z).
  { rewrite <- (Qfloor_Z 0). by apply Qfloor_resp_le. }
  set (t := Qfloor seconds) in *.
  pose proof (Z.div_mod t 3600 ltac:(lia)) as H1.
  pose proof (Z.mod_pos_bound t 3600 ltac:(lia)) as B1.
  pose proof (Z.div_mod (t mod 3600) 60 ltac:(lia)) as H2.
  pose proof (Z.mod_pos_bound (t mod 3600) 60 ltac:(lia)) as B2.
  pose proof (Z.mod_pos_bound t 60 ltac:(lia)) as B3.
  assert (Hm : (0 <= t mod 3600 / 60 <= 59)%Z).
  { split; [apply Z.div_pos; lia|].
    apply Z.lt_succ_r, Z.div_lt_upper_bound; lia. }
  assert (Hh : (0 <= t / 3600)%Z) by (apply Z.div_pos; lia).
  assert (Hmod : ((t mod 3600) mod 60 = t mod 60)%Z).
  { rewrite <- (Z.mod_mod_divide t 3600 60) at 1; [done|]. by exists 60%Z. }
  split; [|split].
  - exists (t / 3600)%Z, (t mod 3600 / 60)%Z, (t mod 60)%Z.
    split; [lia|]. split; [done|]. split; [done|]. split; [lia|].
    split; [apply TimestampFacts.format_timestamp_fields|].
    split; [by apply TimestampWidth.fmt02d_width|].
    split; [intros; apply TimestampFacts.fmt02d_two_digits; lia|].
    split; apply TimestampFacts.fmt02d_two_digits; lia.
  - intros Hlt. rewrite TimestampFacts.format_timestamp_fields.
    fold t. rewrite !TimestampWidth.length_append.
    assert (t < 360000)%Z.
    { destruct (Z.le_gt_cases t 359999) as [|Hc]; [lia|].
      exfalso. pose proof (Qfloor_le seconds) as Hf. fold t in Hf.
      assert (inject_Z 360000 <= inject_Z t)%Q by (rewrite <- Zle_Qle; lia).
      change (inject_Z 360000) with 360000%Q in *. lra. }
    rewrite !TimestampFacts.fmt02d_two_digits; [done|lia..|].
    split; [done|]. apply Z.div_lt_upper_bound; lia.
  - rewrite !TimestampFacts.format_timestamp_fields. by rewrite Qfloor_Z.
Qed.

Lemma format_timestamp_hh_mm_ss_witness :
  (0 <= 3725.9)%Q
  ∧ Timestamp.format_timestamp 3725.9 = "01:02:05"%string
  ∧ Timestamp.format_timestamp 3725.9
    = Timestamp.format_timestamp (inject_Z (Qfloor 3725.9)).
Proof.
  assert (H : (0 <= 3725.9)%Q) by (unfold Qle; simpl; lia).
  split; [exact H|]. split; [reflexivity|].
  exact (proj2 (proj2 (format_timestamp_hh_mm_ss 3725.9 H))).
Defined.

Example one_word_windows :
  Wavlm.create_windows Wavlm.one_word
  = [Wavlm.mkWindow [0] 0 0.8; Wavlm.mkWindow [0] 0.5 0.8].
Proof. vm_compute. reflexivity. Qed.

(** ** [max] and [min] with a key; [Counter] *)

Section FirstBest.
Context {A : Type} (better : A → A → bool).
Hypothesis better_asym : ∀ a b, better a b = true → better b a = false.
Hypothesis better_neg_trans :
  ∀ a b c, better a b = true → better c b = false → better a c = true.

Lemma better_irrefl (a : A) : better a a = false.
Proof.
  destruct (better a a) eqn:E; [|done].
  by rewrite (better_asym _ _ E) in E.
Qed.

Lemma keep_best_from (l : list A) :
  ∀ (pre : list A) (x : A) (p0 : nat),
    Py.first_best_at better pre p0 x →
    ∃ p, Py.first_best_at better (pre ++ l) p (Py.keep_best better x l).
Proof.
  induction l as [|e l IH]; intros pre x p0 Hinv.
  - exists p0. by rewrite app_nil_r.
  - simpl. rewrite (cons_middle e pre l), app_assoc.
    destruct Hinv as [Hx Hall].
    pose proof (lookup_lt_Some _ _ _ Hx) as Hp0.
    destruct (better e x) eqn:E.
    + apply (IH _ _ (length pre)). split.
      * by rewrite lookup_app_r, Nat.sub_diag by lia.
      * intros q e0 Hq. destruct (decide (q < length pre)) as [Hlt|Hge].
        -- rewrite lookup_app_l in Hq by done.
           destruct (Hall q e0 Hq) as [H1 _].
           pose proof (better_neg_trans _ _ _ E H1) as H2.
           split; [by apply better_asym|done].
        -- rewrite lookup_app_r in Hq by lia.
           destruct (q - length pre) as [|n] eqn:En; [|by destruct n].
           injection Hq as <-. split; [apply better_irrefl|lia].
    + apply (IH _ _ p0). split.
      * by rewrite lookup_app_l.
      * intros q e0 Hq. destruct (decide (q < length pre)) as [Hlt|Hge].
        -- rewrite lookup_app_l in Hq by done. by apply Hall.
        -- rewrite lookup_app_r in Hq by lia.
           destruct (q - length pre) as [|n] eqn:En; [|by destruct n].
           injection Hq as <-. split; [done|lia].
Qed.

Lemma pick_first_spec (l : list A) :
  match Py.pick_first better l with
  | Some r => ∃ p, Py.first_best_at better l p r
  | None => l = []
  end.
Proof.
  destruct l as [|x l]; [done|]. simpl.
  apply (keep_best_from l [x] x 0). split; [done|].
  intros [|q] e Hq; [|done]. injection Hq as <-.
  split; [apply better_irrefl|lia].
Qed.

End FirstBest.

Module CounterFacts.
Import Py.

Lemma count_nil (x : string) : count x [] = 0.
Proof. done. Qed.

Lemma count_snoc (x y : string) (l : list string) :
  count x (l ++ [y]) = count x l + (if decide (x = y) then 1 else 0).
Proof.
  unfold count. rewrite filter_app, length_app, filter_cons, filter_nil.
  by destruct (decide (x = y)).
Qed.

Lemma count_not_elem (x : string) (l : list string) : x ∉ l → count x l = 0.
Proof.
  intros H. unfold count. induction l as [|y l IH]; [done|].
  apply not_elem_of_cons in H as [Hxy Hl].
  rewrite filter_cons_False by done. by apply IH.
Qed.

Lemma keys_incr (c : list (string * nat)) (x : string) :
  (counter_incr c x).*1 = if decide (x ∈ c.*1) then c.*1 else c.*1 ++ [x].
Proof.
  induction c as [|[k n] c IH].
  - change ([x] = if decide (x ∈ []) then [] else [x]).
    rewrite decide_False; [done|]. apply not_elem_of_nil.
  - change (((k, n) :: c).*1) with (k :: c.*1).
    change (counter_incr ((k, n) :: c) x) with
      (if decide (k = x) then (k, S n) :: c else (k, n) :: counter_incr c x).
    destruct (decide (k = x)) as [->|Hne].
    + rewrite decide_True; [done|]. left.
    + change (((k, n) :: counter_incr c x).*1) with (k :: (counter_incr c x).*1).
      rewrite IH. destruct (decide (x ∈ c.*1)) as [Hin|Hnin].
      * rewrite decide_True; [done|]. by right.
      * rewrite decide_False; [done|].
        intros [?|?]%elem_of_cons; congruence.
Qed.

Lemma entries_incr (c : list (string * nat)) (x k : string) (n : nat) :
  NoDup (c.*1) → (k, n) ∈ counter_incr c x →
  (k ≠ x ∧ (k, n) ∈ c)
  ∨ (k = x ∧ ((∃ m, (x, m) ∈ c ∧ n = S m) ∨ ((x ∉ c.*1) ∧ n = 1))).
Proof.
  induction c as [|[k0 n0] c IH]; simpl; intros Hnd Hin.
  - apply list_elem_of_singleton in Hin. injection Hin as -> ->.
    right. split; [done|]. right. split; [apply not_elem_of_nil|done].
  - apply NoDup_cons in Hnd as [Hk0 Hnd].
    destruct (decide (k0 = x)) as [->|Hne].
    + apply elem_of_cons in Hin as [Heq|Hin].
      * injection Heq as -> ->. right. split; [done|]. left.
        exists n0. split; [left|done].
      * left. split; [|by right].
        intros ->. apply Hk0. apply list_elem_of_fmap. by exists (x, n).
    + apply elem_of_cons in Hin as [Heq|Hin].
      * injection Heq as -> ->. left. split; [done|left].
      * destruct (IH Hnd Hin) as [[H1 H2]|[-> [(m & H1 & H2)|[H1 H2]]]].
        -- left. split; [done|by right].
        -- right. split; [done|]. left. exists m. split; [by right|done].
        -- right. split; [done|]. right. split; [|done].
           intros [?|?]%elem_of_cons; [congruence|done].
Qed.

Lemma counted_incr (c : list (string * nat)) (l : list string) (x : string) :
  counted c l → counted (counter_incr c x) (l ++ [x]).
Proof.
  intros (Hnd & Hcnt & Hkeys & Hord).
  pose proof (keys_incr c x) as HK.
  split; [|split; [|split]].
  - rewrite HK. destruct (decide _); [done|].
    apply NoDup_app. split; [done|]. split; [|apply NoDup_singleton].
    intros y Hy ->%list_elem_of_singleton. done.
  - intros k n Hin. rewrite count_snoc.
    destruct (entries_incr _ _ _ _ Hnd Hin)
      as [[H1 H2]|[-> [(m & H1 & H2)|[H1 H2]]]].
    + rewrite decide_False by done. rewrite (Hcnt _ _ H2). lia.
    + rewrite decide_True by done. rewrite H2, (Hcnt _ _ H1). lia.
    + rewrite decide_True by done. rewrite count_not_elem; [lia|].
      intros Hx. by apply H1, Hkeys.
  - intros y [Hy|Hy]%elem_of_app; rewrite HK.
    + destruct (decide _); [by apply Hkeys|].
      apply elem_of_app. left. by apply Hkeys.
    + apply list_elem_of_singleton in Hy as ->.
      destruct (decide _); [done|]. apply elem_of_app. right. left.
  - intros q k Hq. rewrite HK in Hq |- *.
    assert (Hold : ∀ q k, c.*1 !! q = Some k →
      ∃ i, (l ++ [x]) !! i = Some k
           ∧ ∀ j y, j < i → (l ++ [x]) !! j = Some y →
               ∃ p, p < q ∧ c.*1 !! p = Some y).
    { intros q' k' Hq'. destruct (Hord _ _ Hq') as (i & Hi & Hbefore).
      pose proof (lookup_lt_Some _ _ _ Hi) as Hlen.
      exists i. split; [by rewrite lookup_app_l|].
      intros j y Hj Hy. rewrite lookup_app_l in Hy by lia. eauto. }
    destruct (decide (x ∈ c.*1)) as [Hin|Hnin]; [by apply Hold|].
    destruct (decide (q < length c.*1)) as [Hlt|Hge].
    + rewrite lookup_app_l in Hq by done.
      destruct (Hold _ _ Hq) as (i & Hi & Hbefore).
      exists i. split; [done|]. intros j y Hj Hy.
      destruct (Hbefore j y Hj Hy) as (p & Hp & Hpy).
      exists p. split; [done|]. rewrite lookup_app_l; [done|].
      by eapply lookup_lt_Some.
    + rewrite lookup_app_r in Hq by lia.
      destruct (q - length c.*1) as [|n] eqn:En; [|by destruct n].
      injection Hq as <-. exists (length l). split.
      * by rewrite lookup_app_r, Nat.sub_diag by lia.
      * intros j y Hj Hy. rewrite lookup_app_l in Hy by done.
        assert (y ∈ c.*1) as Hyc by (apply Hkeys; by eapply list_elem_of_lookup_2).
        apply list_elem_of_lookup_1 in Hyc as (p & Hp).
        pose proof (lookup_lt_Some _ _ _ Hp).
        exists p. split; [lia|]. by rewrite lookup_app_l.
Qed.

Lemma counted_fold (l : list string) :
  ∀ c seen, counted c seen → counted (foldl counter_incr c l) (seen ++ l).
Proof.
  induction l as [|x l IH]; intros c seen H; simpl.
  - by rewrite app_nil_r.
  - rewrite (cons_middle x seen l), app_assoc. apply IH.
    by apply counted_incr.
Qed.

Lemma counted_Counter (l : list string) : counted (Counter l) l.
Proof.
  apply (counted_fold l [] []).
  split; [constructor|]. split; [by intros ? ? ?%elem_of_nil|].
  split; [by intros ? ?%elem_of_nil|]. by intros [|?] ? ?.
Qed.

Lemma most_common1_majority (votes : list string) :
  votes ≠ [] →
  ∃ l k, most_common1 (Counter votes) = Some (l, count l votes)
         ∧ Wavlm.majority_at votes k l.
Proof.
  intros Hne. destruct (counted_Counter votes) as (Hnd & Hcnt & Hkeys & Hord).
  unfold most_common1.
  pose proof (pick_first_spec (fun e best : string * nat => snd best <? snd e)) as Hpick.
  specialize (Hpick ltac:(intros a b H; apply Nat.ltb_lt in H; apply Nat.ltb_ge; lia)).
  specialize (Hpick ltac:(intros a b c H1 H2; apply Nat.ltb_lt in H1;
    apply Nat.ltb_ge in H2; apply Nat.ltb_lt; lia)).
  specialize (Hpick (Counter votes)).
  destruct (pick_first _ (Counter votes)) as [[l n]|] eqn:E.
  - destruct Hpick as (p & Hp & Hbest).
    assert (n = count l votes) as -> by (eapply Hcnt, list_elem_of_lookup_2, Hp).
    assert (Hpk : (Counter votes).*1 !! p = Some l) by (by rewrite list_lookup_fmap, Hp).
    destruct (Hord _ _ Hpk) as (i & Hi & Hbefore).
    exists l, i. split; [done|]. split; [done|]. split.
    + intros l'. destruct (decide (l' ∈ votes)) as [Hin|Hnin].
      * apply Hkeys, list_elem_of_fmap in Hin as ([k' m] & -> & Hin).
        pose proof (Hcnt _ _ Hin) as ->. simpl.
        apply list_elem_of_lookup_1 in Hin as (q & Hq).
        destruct (Hbest _ _ Hq) as [H1 _]. simpl in H1.
        apply Nat.ltb_ge in H1. done.
      * rewrite count_not_elem by done. lia.
    + intros j l' Hj Hl'. destruct (Hbefore j l' Hj Hl') as (q & Hq & Hql).
      rewrite list_lookup_fmap in Hql.
      destruct (Counter votes !! q) as [[k' m]|] eqn:Eq; [|done].
      injection Hql as ->.
      pose proof (Hcnt _ _ (list_elem_of_lookup_2 _ _ _ Eq)) as ->.
      destruct (Hbest _ _ Eq) as [_ H2]. specialize (H2 Hq). simpl in H2.
      by apply Nat.ltb_lt in H2.
  - exfalso. destruct votes as [|v votes]; [done|].
    assert (v ∈ (Counter (v :: votes)).*1) as Hv by (apply Hkeys; left).
    rewrite Hpick in Hv. by apply elem_of_nil in Hv.
Qed.

End CounterFacts.

(** ** Votes and nearest windows *)

Module VoteFacts.
Import Reseg Turns Py Wavlm CounterFacts.

Lemma Qltb_lt (a b : Q) : Qltb a b = true ↔ (a < b)%Q.
Proof.
  unfold Qltb. rewrite negb_true_iff, <- not_true_iff_false, Qle_bool_iff.
  split; [apply Qnot_le_lt|apply Qlt_not_le].
Qed.

Lemma Qltb_ge (a b : Q) : Qltb a b = false ↔ (b <= a)%Q.
Proof.
  unfold Qltb. rewrite negb_false_iff. apply Qle_bool_iff.
Qed.

Lemma nearest_seg_spec (valid_segments : list (Window * string)) (word_time : Q) :
  match nearest_seg valid_segments word_time with
  | Some s => ∃ k, nearest_at valid_segments word_time k s
  | None => valid_segments = []
  end.
Proof.
  unfold nearest_seg.
  set (better := fun s best : Window * string =>
         Qltb (distance word_time (fst s)) (distance word_time (fst best))).
  pose proof (pick_first_spec better) as Hpick.
  specialize (Hpick ltac:(unfold better; intros a b H; apply Qltb_lt in H;
    apply Qltb_ge; lra)).
  specialize (Hpick ltac:(unfold better; intros a b c H1 H2; apply Qltb_lt in H1;
    apply Qltb_ge in H2; apply Qltb_lt; lra)).
  specialize (Hpick valid_segments).
  destruct (pick_first better valid_segments) as [s|]; [|done].
  destruct Hpick as (k & Hk & Hbest). exists k. split; [done|].
  intros j s' Hj. destruct (Hbest _ _ Hj) as [H1 H2]. split.
  - by apply Qltb_ge in H1.
  - intros Hlt. by apply Qltb_lt, H2.
Qed.

Lemma speaker_votes_labels (valid_segments : list (Window * string)) (i : nat) :
  speaker_votes valid_segments i ⊆ valid_segments.*2.
Proof.
  unfold speaker_votes. intros l (s & -> & Hs)%list_elem_of_fmap.
  apply list_elem_of_filter in Hs as [_ Hs].
  apply list_elem_of_fmap. by exists s.
Qed.

Lemma word_label_majority (valid_segments : list (Window * string)) (i : nat)
    (word : Word) :
  speaker_votes valid_segments i ≠ [] →
  ∃ k, majority_at (speaker_votes valid_segments i) k
         (word_label valid_segments i word).
Proof.
  intros Hne. unfold word_label.
  destruct (most_common1_majority _ Hne) as (l & k & Hmc & Hmaj).
  destruct (speaker_votes valid_segments i) as [|v votes] eqn:E; [done|].
  cbv beta iota. rewrite Hmc. by exists k.
Qed.

Lemma word_label_nearest (valid_segments : list (Window * string)) (i : nat)
    (word : Word) :
  valid_segments ≠ [] → speaker_votes valid_segments i = [] →
  ∃ k s, nearest_at valid_segments (word_mid word) k s
         ∧ word_label valid_segments i word = snd s.
Proof.
  intros Hne Hvotes. unfold word_label. rewrite Hvotes.
  pose proof (nearest_seg_spec valid_segments (word_mid word)) as H.
  destruct (nearest_seg valid_segments (word_mid word)) as [s|]; [|done].
  destruct H as (k & Hk). by exists k, s.
Qed.

(** Whatever the votes, a word's label is the label of some window. *)
Lemma word_label_elem (valid_segments : list (Window * string)) (i : nat)
    (word : Word) :
  valid_segments ≠ [] → word_label valid_segments i word ∈ valid_segments.*2.
Proof.
  intros Hne.
  destruct (decide (speaker_votes valid_segments i = [])) as [Hv|Hv].
  - destruct (word_label_nearest _ _ word Hne Hv) as (k & s & (Hk & _) & ->).
    apply list_elem_of_fmap. exists s. split; [done|].
    by eapply list_elem_of_lookup_2.
  - destruct (word_label_majority _ _ word Hv) as (k & Hk & _).
    eapply speaker_votes_labels, list_elem_of_lookup_2, Hk.
Qed.

Lemma vote_words_lookup (valid_segments : list (Window * string))
    (all_words : list Word) (i : nat) (word : Word) :
  all_words !! i = Some word →
  vote_words valid_segments all_words !! i
  = Some (set_speaker (Some (word_label valid_segments i word)) word).
Proof. intros H. unfold vote_words. by rewrite list_lookup_imap, H. Qed.

End VoteFacts.

Module VoteSpecFacts.
Import Reseg Turns Py Wavlm VoteSpec VoteFacts.

(** The votes the loop gathers are the labels of the windows that list
    the word. *)
Lemma speaker_votes_for (valid_segments : list (Window * string)) (i : nat) :
  speaker_votes valid_segments i = votes_for i valid_segments.
Proof.
  unfold speaker_votes. induction valid_segments as [|[win l] rest IH]; [done|].
  rewrite filter_cons. simpl. rewrite <- IH.
  destruct (decide (i ∈ word_indices win)) as [Hin|Hout].
  - by rewrite bool_decide_eq_true_2.
  - by rewrite bool_decide_eq_false_2.
Qed.

(** The key of [min] is the gap between centre and midpoint. *)
Lemma distance_gap (win : Window) (word : Word) :
  distance (word_mid word) win = gap win word.
Proof. reflexivity. Qed.

Lemma nearest_at_window (valid_segments : list (Window * string)) (word : Word)
    (k : nat) (s : Window * string) :
  nearest_at valid_segments (word_mid word) k s
  → nearest_window valid_segments word k s.
Proof.
  intros [Hk Hall]. split; [done|]. intros j s' Hj.
  rewrite <- !distance_gap. by apply Hall.
Qed.

End VoteSpecFacts.

(** C4. Given the labelled valid windows in their order, the label the
    voting loop gives the word at [word_idx] is a function of them. The
    votes of the word are the labels of the valid windows whose
    [word_indices] contain [word_idx], in window order. When there is a
    vote, the label is that of the first vote that has the largest number
    of votes (no label has more votes, and every earlier vote's label has
    strictly fewer). When there is none, it is the label of the first
    window, in order, whose centre [(start + end) / 2] is nearest to the
    word's midpoint [(start + end) / 2], the distance being the absolute
    value of their difference, all three computed in binary64: no window
    is nearer, every earlier window is strictly farther. *)
Theorem word_label_majority_or_nearest (valid_segments : list (Wavlm.Window * string))
    (all_words : list Word) (word_idx : nat) (word : Word) :
  valid_segments ≠ [] →
  all_words !! word_idx = Some word →
  let votes := VoteSpec.votes_for word_idx valid_segments in
  ∃ l : string,
    w_speaker <$> Wavlm.vote_words valid_segments all_words !! word_idx
    = Some (Some l)
    ∧ l = Wavlm.word_label valid_segments word_idx word
    ∧ (votes ≠ [] → ∃ k, Wavlm.majority_at votes k l)
    ∧ (votes = [] →
       ∃ k s, VoteSpec.nearest_window valid_segments word k s ∧ l = snd s).
Proof.
  intros Hne Hword votes. subst votes.
  rewrite <- VoteSpecFacts.speaker_votes_for.
  exists (Wavlm.word_label valid_segments word_idx word).
  split; [by rewrite (VoteFacts.vote_words_lookup _ _ _ _ Hword)|].
  split; [done|]. split.
  - apply VoteFacts.word_label_majority.
  - intros Hv.
    destruct (VoteFacts.word_label_nearest _ _ word Hne Hv) as (k & s & Hk & Hs).
    exists k, s. split; [|done]. by apply VoteSpecFacts.nearest_at_window.
Qed.

Lemma word_label_majority_or_nearest_witness :
  Wavlm.tied_windows ≠ []
  ∧ Reseg.scenario_words !! 0 = Some (mkWord (of_string " hi") 0 0.3 (Some "S0"%string))
  ∧ Wavlm.word_label Wavlm.tied_windows 0
      (mkWord (of_string " hi") 0 0.3 (Some "S0"%string)) = "SPEAKER_01"%string
  ∧ ∃ l : string,
      w_speaker <$> Wavlm.vote_words Wavlm.tied_windows Reseg.scenario_words !! 0
      = Some (Some l).
Proof.
  assert (H1 : Wavlm.tied_windows ≠ []) by discriminate.
  split; [exact H1|]. split; [reflexivity|]. split; [reflexivity|].
  destruct (word_label_majority_or_nearest Wavlm.tied_windows Reseg.scenario_words
              0 _ H1 eq_refl) as (l & Hl & _).
  exists l. exact Hl.
Defined.

(** A word that no window lists takes the label of the window whose
    centre is nearest: of windows centred at 0.5 s and 1.5 s, a word
    after both, centred at 2.5 s, is given the label of the second. *)
Example nearest_window_label :
  Wavlm.word_label
    [ (Wavlm.mkWindow [0] 0 1, "SPEAKER_00"%string);
      (Wavlm.mkWindow [1] 1 2, "SPEAKER_01"%string) ]
    2 (mkWord (of_string " late") 2 3 None)
  = "SPEAKER_01"%string.
Proof. vm_compute. reflexivity. Qed.

(** ** The window loop terminates *)

Module WindowFacts.
Import Reseg Turns Py Wavlm VoteFacts.

Lemma make_windows_enough (all_words : list Word) (total : Q) (fuel : nat) :
  ∀ t, (2 * (total - t) <= inject_Z (Z.of_nat fuel))%Q →
       is_Some (make_windows (S fuel) all_words total t).
Proof.
  induction fuel as [|fuel IH]; intros t H.
  - cbn [make_windows]. change (inject_Z (Z.of_nat 0)) with 0%Q in H.
    assert (Qltb t total = false) as -> by (apply Qltb_ge; lra). done.
  - cbn [make_windows] in *. destruct (Qltb t total); [|done].
    apply fmap_is_Some, IH.
    rewrite Nat2Z.inj_succ, <- Z.add_1_r, inject_Z_plus in H.
    change (inject_Z 1) with 1%Q in H. unfold WINDOW_STRIDE. lra.
Qed.

(** The bound of [create_windows] is never reached: the loop returns. *)
Lemma create_windows_returns (all_words : list Word) :
  make_windows (window_fuel (last_end all_words)) all_words (last_end all_words) 0
  = Some (create_windows all_words).
Proof.
  unfold create_windows, window_fuel.
  set (total := last_end all_words).
  destruct (make_windows_enough all_words total
              (Z.to_nat (Qceiling (2 * total))) 0) as [ws Hws]; [|by rewrite Hws].
  pose proof (Qle_ceiling (2 * total)) as Hc.
  assert (inject_Z (Qceiling (2 * total))
          <= inject_Z (Z.of_nat (Z.to_nat (Qceiling (2 * total)))))%Q
    by (rewrite <- Zle_Qle; lia).
  lra.
Qed.

End WindowFacts.

(** ** The number of clusters and of labels *)

Module ClusterFacts.
Import Reseg Turns Py Wavlm VoteFacts.

Lemma digits_nonnil (n : N) :
  Timestamp.digits n = NilEmpty.string_of_uint (N.to_uint n).
Proof.
  unfold Timestamp.digits, NilZero.string_of_uint.
  destruct (N.to_uint n) eqn:E; [|done..].
  exfalso. destruct n as [|p]; [done|].
  revert E. apply DecimalPos.Unsigned.to_uint_nonnil.
Qed.

Lemma parse_digits (n : N) : Timestamp.parse (Timestamp.digits n) = Some n.
Proof.
  unfold Timestamp.parse. rewrite digits_nonnil, NilEmpty.usu. simpl.
  by rewrite DecimalN.Unsigned.of_to.
Qed.

Lemma parse_zero_digits (n : N) : Timestamp.parse ("0" +:+ Timestamp.digits n) = Some n.
Proof.
  unfold Timestamp.parse. rewrite digits_nonnil.
  change (NilEmpty.uint_of_string ("0" +:+ ?s))
    with (uint_of_char "0" (NilEmpty.uint_of_string s)).
  rewrite NilEmpty.usu. simpl.
  by rewrite DecimalN.Unsigned.of_to.
Qed.

Lemma parse_fmt02d (n : nat) :
  Timestamp.parse (Timestamp.fmt02d (Z.of_nat n)) = Some (N.of_nat n).
Proof.
  unfold Timestamp.fmt02d.
  destruct (Z.ltb_spec (Z.of_nat n) 0) as [?|_]; [lia|].
  replace (Z.to_N (Z.of_nat n)) with (N.of_nat n) by lia.
  destruct (Z.of_nat n <? 10)%Z; [apply parse_zero_digits|apply parse_digits].
Qed.

Lemma append_cancel_l (p x y : string) : (p +:+ x = p +:+ y)%string → x = y.
Proof.
  induction p as [|c p IH]; [done|].
  intros H. apply IH. by injection H.
Qed.

(** Different cluster ids give different labels. *)
Lemma speaker_label_inj (a b : nat) : speaker_label a = speaker_label b → a = b.
Proof.
  unfold speaker_label. intros H%append_cancel_l.
  apply (f_equal Timestamp.parse) in H.
  rewrite !parse_fmt02d in H. injection H as H. lia.
Qed.

Lemma speaker_label_zero : speaker_label 0 = SPEAKER_00.
Proof. reflexivity. Qed.

Lemma label_windows_length (valid_segments : list Window) :
  ∀ speaker_ids, length speaker_ids = length valid_segments →
    ∃ labelled, label_windows valid_segments speaker_ids = Some labelled
                ∧ labelled.*1 = valid_segments
                ∧ labelled.*2 = speaker_label <$> speaker_ids.
Proof.
  induction valid_segments as [|seg segs IH]; intros [|id ids] Hlen; try done.
  - by exists [].
  - simpl in Hlen. destruct (IH ids ltac:(lia)) as (labelled & H1 & H2 & H3).
    exists ((seg, speaker_label id) :: labelled).
    cbn [label_windows]. rewrite H1.
    split; [done|]. split; [by rewrite fmap_cons, H2|by rewrite !fmap_cons, H3].
Qed.

(** A clustering that uses exactly the ids below [k] gives exactly [k]
    different labels. *)
Lemma distinct_speaker_labels (speaker_ids : list nat) (k : nat) :
  (∀ i, i ∈ speaker_ids ↔ i < k) →
  length (remove_dups (speaker_label <$> speaker_ids)) = k.
Proof.
  intros Hids.
  assert (Hperm : remove_dups (speaker_label <$> speaker_ids)
                  ≡ₚ speaker_label <$> seq 0 k).
  { apply NoDup_Permutation.
    - apply NoDup_remove_dups.
    - apply NoDup_fmap_2_strong; [|apply NoDup_seq].
      intros a b _ _. apply speaker_label_inj.
    - intros l. rewrite elem_of_remove_dups, !list_elem_of_fmap.
      split; intros (i & -> & Hi); exists i; (split; [done|]).
      + apply elem_of_seq. apply Hids in Hi. lia.
      + apply Hids. apply elem_of_seq in Hi. lia. }
  by rewrite Hperm, length_fmap, length_seq.
Qed.

Lemma n_clusters_auto (num_speakers : Z) (n : nat) :
  (num_speakers <= 0)%Z → 2 ≤ n → n_clusters num_speakers n = 2%Z.
Proof.
  intros H Hn. unfold n_clusters.
  destruct (Z.ltb_spec 0 num_speakers); lia.
Qed.

Lemma n_clusters_requested (num_speakers : Z) (n : nat) :
  (0 < num_speakers)%Z →
  n_clusters num_speakers n = Z.min num_speakers (Z.of_nat n).
Proof.
  intros H. unfold n_clusters. destruct (Z.ltb_spec 0 num_speakers); lia.
Qed.

Lemma vote_words_labels (labelled : list (Window * string)) (all_words : list Word) :
  labelled ≠ [] →
  ∀ w, w ∈ vote_words labelled all_words →
       ∃ l, w_speaker w = Some l ∧ l ∈ labelled.*2.
Proof.
  intros Hne w (i & Hi)%list_elem_of_lookup_1.
  unfold vote_words in Hi. rewrite list_lookup_imap in Hi.
  destruct (all_words !! i) as [word|]; [|done]. injection Hi as <-.
  eexists. split; [done|]. by apply word_label_elem.
Qed.

(** The words carry no more different labels than the windows. *)
Lemma vote_words_distinct (labelled : list (Window * string)) (all_words : list Word) :
  labelled ≠ [] →
  length (distinct_labels (vote_words labelled all_words))
  ≤ length (remove_dups labelled.*2).
Proof.
  intros Hne. unfold distinct_labels.
  rewrite <- (length_fmap Some (remove_dups labelled.*2)).
  apply submseteq_length, NoDup_submseteq; [apply NoDup_remove_dups|].
  intros o Ho. apply elem_of_remove_dups, list_elem_of_fmap in Ho as (w & -> & Hw).
  destruct (vote_words_labels _ _ Hne w Hw) as (l & -> & Hl).
  apply list_elem_of_fmap. exists l. split; [done|].
  by apply elem_of_remove_dups.
Qed.

End ClusterFacts.

(** C5, as the code has it. With fewer than two valid embedding windows
    every word gets the default label [SPEAKER_00]. With [N >= 2] valid
    windows the clustering primitive is asked for [K] clusters, [K = 2]
    when no speaker count is requested and [K = min(requested, N)]
    otherwise; when it answers with one id per window and uses exactly the
    ids below [K], the windows carry exactly [K] different labels, every
    word gets the label of some window, and so the words carry at most
    [K] different labels (they can carry fewer, as the vote decides). *)
Theorem diarizer_cluster_count {E} (B : Wavlm.Backend E) (num_speakers : Z)
    (all_words : list Word) (speaker_ids : list nat) :
  let valid := Wavlm.valid_windows B (Wavlm.create_windows all_words) in
  let N := length valid in
  let K := Wavlm.n_clusters num_speakers N in
  Wavlm.load_audio B = true →
  (2 ≤ N →
   Wavlm.fit_predict B valid.*2 K = Some speaker_ids
   ∧ length speaker_ids = N
   ∧ ∀ i, i ∈ speaker_ids ↔ (Z.of_nat i < K)%Z) →
  (N < 2 →
   Wavlm.diarize_words B num_speakers all_words
   = Wavlm.Returned (Turns.set_speaker (Some Wavlm.SPEAKER_00) <$> all_words))
  ∧ (2 ≤ N →
     ((num_speakers <= 0)%Z → K = 2%Z)
     ∧ ((2 <= num_speakers)%Z → K = Z.min num_speakers (Z.of_nat N))
     ∧ ∃ labelled : list (Wavlm.Window * string),
         labelled.*1 = valid.*1
         ∧ labelled.*2 = Wavlm.speaker_label <$> speaker_ids
         ∧ Z.of_nat (length (remove_dups labelled.*2)) = K
         ∧ Wavlm.diarize_words B num_speakers all_words
           = Wavlm.Returned (Wavlm.vote_words labelled all_words)
         ∧ (∀ w, w ∈ Wavlm.vote_words labelled all_words →
                 ∃ l, w_speaker w = Some l ∧ l ∈ labelled.*2)
         ∧ (Z.of_nat (length (Wavlm.distinct_labels
                                (Wavlm.vote_words labelled all_words))) <= K)%Z).
Proof.
  intros valid N K Hload Hcluster. split.
  - intros HN. unfold Wavlm.diarize_words. rewrite Hload.
    fold valid. rewrite length_fmap. fold N.
    by destruct (Nat.ltb_spec N 2); [|lia].
  - intros HN. destruct (Hcluster HN) as (Hfit & Hlen & Hids).
    split; [intros; by apply ClusterFacts.n_clusters_auto|].
    split; [intros; apply ClusterFacts.n_clusters_requested; lia|].
    assert (HK : (0 <= K)%Z)
      by (unfold K, Wavlm.n_clusters; destruct (Z.ltb_spec 0 num_speakers); lia).
    destruct (ClusterFacts.label_windows_length valid.*1 speaker_ids)
      as (labelled & Hlab & H1 & H2); [by rewrite length_fmap|].
    assert (Hne : labelled ≠ []).
    { intros ->. destruct valid; [simpl in *; lia|done]. }
    assert (Hdist : length (remove_dups labelled.*2) = Z.to_nat K).
    { rewrite H2. apply ClusterFacts.distinct_speaker_labels.
      intros i. rewrite Hids. lia. }
    exists labelled. split; [done|]. split; [done|]. split; [lia|]. split.
    + unfold Wavlm.diarize_words. rewrite Hload. fold valid.
      rewrite length_fmap. fold N.
      destruct (Nat.ltb_spec N 2); [lia|].
      fold K. by rewrite Hfit, Hlab.
    + split; [by apply ClusterFacts.vote_words_labels|].
      pose proof (ClusterFacts.vote_words_distinct labelled all_words Hne). lia.
Qed.

Lemma diarizer_cluster_count_witness :
  Wavlm.load_audio Wavlm.round_robin = true
  ∧ length (Wavlm.valid_windows Wavlm.round_robin
              (Wavlm.create_windows Wavlm.one_word)) = 2
  ∧ ∃ labelled : list (Wavlm.Window * string),
      labelled.*2 = Wavlm.speaker_label <$> [0; 1]
      ∧ Wavlm.diarize_words Wavlm.round_robin 0 Wavlm.one_word
        = Wavlm.Returned (Wavlm.vote_words labelled Wavlm.one_word).
Proof.
  split; [reflexivity|]. split; [reflexivity|].
  assert (Hc : 2 ≤ 2 →
    Wavlm.fit_predict Wavlm.round_robin
      (Wavlm.valid_windows Wavlm.round_robin
         (Wavlm.create_windows Wavlm.one_word)).*2
      (Wavlm.n_clusters 0 2) = Some [0; 1]
    ∧ length [0; 1] = 2
    ∧ ∀ i, i ∈ [0; 1] ↔ (Z.of_nat i < Wavlm.n_clusters 0 2)%Z).
  { intros _. split; [reflexivity|]. split; [reflexivity|].
    intros i. change (Wavlm.n_clusters 0 2) with 2%Z.
    rewrite !elem_of_cons, elem_of_nil. lia. }
  destruct (proj2 (diarizer_cluster_count Wavlm.round_robin 0 Wavlm.one_word
                     [0; 1] eq_refl Hc) (le_n 2))
    as (_ & _ & labelled & _ & H2 & _ & H4 & _).
  exists labelled. split; [exact H2|exact H4].
Defined.

(** C5, as stated, fails for the labels the diarizer gives the words: in
    a recording with a pause, four windows are valid and the clustering
    into two clusters sets the second window apart; its only word is
    also in the first window, the vote between the two is a tie that the
    first window wins, and every word gets the one label [SPEAKER_00]. *)
Lemma diarizer_outvoted_cluster :
  Wavlm.create_windows Wavlm.with_pause
  = [ Wavlm.mkWindow [0; 1] 0 1; Wavlm.mkWindow [1] 0.5 1.5;
      Wavlm.mkWindow [2] 1.00 2.00; Wavlm.mkWindow [2] 1.500 2 ]
  ∧ length (Wavlm.valid_windows Wavlm.second_window_apart
              (Wavlm.create_windows Wavlm.with_pause)) = 4
  ∧ Wavlm.n_clusters 0 4 = 2%Z
  ∧ Wavlm.fit_predict Wavlm.second_window_apart [0; 1; 0; 0] 2 = Some [0; 1; 0; 0]
  ∧ length (remove_dups [0; 1; 0; 0]) = 2
  ∧ (∃ ws, Wavlm.diarize_words Wavlm.second_window_apart 0 Wavlm.with_pause
           = Wavlm.Returned ws
           ∧ w_speaker <$> ws
             = [Some "SPEAKER_00"%string; Some "SPEAKER_00"%string;
                Some "SPEAKER_00"%string]
           ∧ length (Wavlm.distinct_labels ws) = 1)
  ∧ ¬ (∀ ws, Wavlm.diarize_words Wavlm.second_window_apart 0 Wavlm.with_pause
             = Wavlm.Returned ws →
             length (Wavlm.distinct_labels ws) = 2).
Proof.
  split; [vm_compute; reflexivity|]. split; [vm_compute; reflexivity|].
  split; [reflexivity|]. split; [reflexivity|]. split; [vm_compute; reflexivity|].
  split.
  - eexists. split; [vm_compute; reflexivity|].
    split; vm_compute; reflexivity.
  - intros H. specialize (H _ ltac:(vm_compute; reflexivity)).
    vm_compute in H. discriminate.
Qed.

(** ** The worker *)

Module WorkerFacts.
Import Reseg Turns Py Wavlm Worker VoteFacts.

(** *** The monad *)

Lemma trace_bind {A B} (m : M A) (k : A → M B) (w : world) :
  trace (m ≫= k) w = trace m w ++ trace (k (result m w)) (final m w).
Proof.
  unfold trace, result, final, mbind, M_bind, bind.
  destruct (m w) as [[a t1] w1]. simpl. by destruct (k a w1) as [[b t2] w2].
Qed.

Lemma result_bind {A B} (m : M A) (k : A → M B) (w : world) :
  result (m ≫= k) w = result (k (result m w)) (final m w).
Proof.
  unfold trace, result, final, mbind, M_bind, bind.
  destruct (m w) as [[a t1] w1]. simpl. by destruct (k a w1) as [[b t2] w2].
Qed.

Lemma final_bind {A B} (m : M A) (k : A → M B) (w : world) :
  final (m ≫= k) w = final (k (result m w)) (final m w).
Proof.
  unfold trace, result, final, mbind, M_bind, bind.
  destruct (m w) as [[a t1] w1]. simpl. by destruct (k a w1) as [[b t2] w2].
Qed.

Lemma run_app {S} (step : S → event → option S) (s : S) (t1 t2 : list event) :
  run step s (t1 ++ t2) = run step s t1 ≫= fun s' => run step s' t2.
Proof.
  revert s. induction t1 as [|e t1 IH]; intros s; simpl; [done|].
  destruct (step s e); [apply IH|done].
Qed.

(** *** The progress lock *)

Lemma balanced_bind {A B} (m : M A) (k : A → M B) :
  balanced m → (∀ a, balanced (k a)) → balanced (m ≫= k).
Proof.
  intros Hm Hk w. rewrite trace_bind, run_app, Hm. apply Hk.
Qed.

Lemma inside_lock_bind {A B} (m : M A) (k : A → M B) :
  inside_lock m → (∀ a, inside_lock (k a)) → inside_lock (m ≫= k).
Proof.
  intros Hm Hk w. rewrite trace_bind, run_app, Hm. apply Hk.
Qed.

Lemma balanced_ret {A} (a : A) : balanced (ret a).
Proof. done. Qed.

Lemma inside_lock_ret {A} (a : A) : inside_lock (ret a).
Proof. done. Qed.

Lemma balanced_with_lock (m : M ()) : inside_lock m → balanced (with_lock m).
Proof.
  intros Hm w. unfold with_lock. rewrite trace_bind.
  change (trace (emit EvAcquire) w) with [EvAcquire].
  change (final (emit EvAcquire) w) with w.
  change (run lock_step false ([EvAcquire] ++ ?t)) with (run lock_step true t).
  by rewrite trace_bind, run_app, Hm.
Qed.

Lemma balanced_read_stop (app : App) : balanced (read_stop app).
Proof. done. Qed.

Lemma balanced_fail_file {E} (f : FileRun E) : balanced (fail_file f).
Proof. done. Qed.

Lemma inside_lock_set_progress (v : Q) : inside_lock (set_progress v).
Proof. done. Qed.

Lemma inside_lock_set_processed (n : nat) : inside_lock (set_processed n).
Proof. done. Qed.

Create HintDb locks.

#[local] Hint Resolve balanced_ret inside_lock_ret balanced_with_lock
  balanced_read_stop balanced_fail_file inside_lock_set_progress
  inside_lock_set_processed : locks.

Ltac lock_steps :=
  repeat first
    [ solve [eauto with locks]
    | match goal with
      | |- balanced (with_lock _) => apply balanced_with_lock
      | |- balanced (emit _) => by intros ?
      | |- balanced (write_file _ _) => by intros ?
      end
    | match goal with
      | |- balanced (_ ≫= _) => apply balanced_bind; [|intros ?]
      | |- inside_lock (_ ≫= _) => apply inside_lock_bind; [|intros ?]
      end
    | match goal with
      | |- balanced (if ?b then _ else _) => destruct b
      | |- inside_lock (if ?b then _ else _) => destruct b
      | |- balanced (match ?x with _ => _ end) => destruct x
      end ].

Lemma balanced_consume (app : App) (total : Q) (g : generator) :
  ∀ segments_list, balanced (consume app total g segments_list).
Proof.
  induction g as [| |segment rest IH]; intros segments_list; simpl.
  - apply balanced_ret.
  - apply balanced_ret.
  - lock_steps; apply IH.
Qed.

Lemma balanced_select {E} (app : App) (f : FileRun E) (segments_list : list Segment) :
  balanced (select app f segments_list).
Proof.
  unfold select, wavlm_stage, pyannote_stage. lock_steps.
Qed.

Lemma balanced_diarize_and_write {E} (app : App) (f : FileRun E)
    (segments_list : list Segment) :
  balanced (diarize_and_write app f segments_list).
Proof.
  unfold diarize_and_write. lock_steps; apply balanced_select.
Qed.

Lemma balanced_transcribe_file {E} (app : App) (f : FileRun E) :
  balanced (transcribe_file app f).
Proof.
  unfold transcribe_file.
  lock_steps; first [apply balanced_consume|apply balanced_diarize_and_write].
Qed.

Lemma balanced_file_loop {E} (app : App) (total : nat) (queue : list (FileRun E)) :
  ∀ i, balanced (file_loop app i total queue).
Proof.
  induction queue as [|f rest IH]; intros i; simpl.
  - apply balanced_ret.
  - lock_steps; first [apply balanced_transcribe_file|apply IH].
Qed.

Lemma balanced_process_files {E} (app : App) (queue : list (FileRun E)) :
  balanced (process_files app queue).
Proof.
  unfold process_files. lock_steps; apply balanced_file_loop.
Qed.

End WorkerFacts.

(** *** The labels the embedding diarizer leaves *)

Module SelectorFacts.
Import Reseg Turns Py Wavlm Worker VoteFacts ResegFacts ClusterFacts WorkerFacts.

Lemma speaker_label_nonempty (id : nat) : speaker_label id ≠ EmptyString.
Proof. done. Qed.

Lemma label_windows_labels (valid_segments : list Window) :
  ∀ speaker_ids labelled,
    label_windows valid_segments speaker_ids = Some labelled →
    length labelled = length valid_segments
    ∧ Forall (fun l => l ≠ EmptyString) labelled.*2.
Proof.
  induction valid_segments as [|seg segs IH]; intros ids labelled H.
  - destruct ids; injection H as <-; by split.
  - destruct ids as [|id ids]; [done|]. cbn [label_windows] in H.
    destruct (label_windows segs ids) as [lab|] eqn:E; [|done].
    injection H as <-. destruct (IH _ _ E) as [H1 H2]. split.
    + simpl. by rewrite H1.
    + rewrite fmap_cons. constructor; [apply speaker_label_nonempty|done].
Qed.

(** When the block returns, every word carries a label, and the label is
    not empty. *)
Lemma diarize_words_labelled {E} (B : Backend E) (n : Z) (ws ws' : list Word) :
  diarize_words B n ws = Returned ws' →
  length ws' = length ws
  ∧ Forall (fun w => ∃ l, w_speaker w = Some l ∧ l ≠ EmptyString) ws'.
Proof.
  unfold diarize_words. destruct (load_audio B); [|done].
  set (valid := valid_windows B (create_windows ws)).
  destruct (Nat.ltb_spec (length valid.*2) 2) as [Hlt|Hge].
  - intros [= <-]. split; [by rewrite length_fmap|].
    apply Forall_fmap, Forall_forall. intros w _. by exists SPEAKER_00.
  - destruct (fit_predict B _ _) as [ids|]; [|done].
    destruct (label_windows valid.*1 ids) as [labelled|] eqn:El; [|done].
    intros [= <-]. destruct (label_windows_labels _ _ _ El) as [Hlen Hlab].
    assert (labelled ≠ []) as Hne.
    { intros ->. rewrite !length_fmap in *. simpl in Hlen. lia. }
    split; [unfold vote_words; by rewrite length_imap|].
    apply Forall_forall. intros w Hw.
    destruct (vote_words_labels _ _ Hne w Hw) as (l & Hl & Hin).
    exists l. split; [done|].
    rewrite Forall_forall in Hlab. by apply Hlab.
Qed.

Lemma runs_head (w : Word) (ws : list Word) :
  ∃ r rs, runs (w :: ws) = (w :: r) :: rs.
Proof.
  simpl. destruct (runs ws) as [|[|w' r] rs]; [by eexists _, _..|].
  destruct (decide _); by eexists _, _.
Qed.

(** The first segment carries the label of the first word. *)
Lemma resegment_head (w : Word) (ws : list Word) :
  ∃ s segs, resegment (w :: ws) = s :: segs ∧ speaker s = w_speaker w.
Proof.
  rewrite resegment_runs. destruct (runs_head w ws) as (r & rs & ->).
  by eexists _, _.
Qed.

Lemma speaker_labels_nonempty (s : SegmentWithSpeaker)
    (segs : list SegmentWithSpeaker) (l : string) :
  speaker s = Some l → l ≠ EmptyString → speaker_labels_of (s :: segs) ≠ ∅.
Proof.
  intros Hs Hl. unfold speaker_labels_of. simpl. rewrite Hs. simpl.
  rewrite decide_False by done. apply insert_non_empty.
Qed.

(** Word labels from the embedding diarizer always give speaker labels. *)
Lemma wavlm_labels_nonempty {E} (B : Backend E) (n : Z) (ws ws' : list Word) :
  ws ≠ [] → diarize_words B n ws = Returned ws' →
  speaker_labels_of (resegment ws') ≠ ∅.
Proof.
  intros Hne H. destruct (diarize_words_labelled _ _ _ _ H) as [Hlen Hall].
  destruct ws' as [|w ws'']; [by destruct ws|].
  destruct (resegment_head w ws'') as (s & segs & -> & Hs).
  inversion Hall as [|? ? (l & Hl & Hnon) _]; subst.
  apply (speaker_labels_nonempty _ _ l); [congruence|done].
Qed.

End SelectorFacts.

(** *** The diarization selector, case by case *)

Module SelectFacts.
Import Reseg Turns Py Wavlm Worker VoteFacts ResegFacts WorkerFacts SelectorFacts.

Lemma wavlm_stage_run {E} (app : App) (f : FileRun E) (segs : list Segment)
    (w : world) :
  wavlm_stage app f segs w
  = if wavlm_ready app then
      if nonempty (all_words segs) then
        match diarize_words (backend f) (num_speakers app) (all_words segs) with
        | Returned ws =>
            ((as_segment <$> resegment ws, speaker_labels_of (resegment ws)),
             EvWavlm :: locked 96 ++ locked 98, at_progress 98 w)
        | Raised =>
            ((segs, ∅), EvWavlm :: locked 96 ++ [EvWavlmFailed], at_progress 96 w)
        end
      else ((segs, ∅), EvWavlm :: locked 96, at_progress 96 w)
    else ((segs, ∅), [], w).
Proof.
  unfold wavlm_stage. destruct (wavlm_ready app); [|done].
  destruct (nonempty (all_words segs)); [|done].
  by destruct (diarize_words _ _ _).
Qed.

Lemma pyannote_stage_run {E} (app : App) (f : FileRun E) (d : diarized)
    (w : world) :
  pyannote_stage app f d w
  = if bool_decide (snd d = ∅) && pipeline_ready app then
      match pipeline f with
      | Returned turns =>
          ((as_segment <$> turn_resegment turns (fst d),
            speaker_labels_of (turn_resegment turns (fst d))),
           EvPyannote :: locked 96 ++ locked 98, at_progress 98 w)
      | Raised =>
          ((fst d, ∅), EvPyannote :: locked 96 ++ [EvPyannoteFailed],
           at_progress 96 w)
      end
    else (d, [], w).
Proof.
  unfold pyannote_stage. destruct d as [segs labels]. simpl fst. simpl snd.
  destruct (bool_decide (labels = ∅) && pipeline_ready app); [|done].
  by destruct (pipeline f).
Qed.

Lemma select_run {E} (app : App) (f : FileRun E) (segs : list Segment) (w : world) :
  select app f segs w
  = let '(d, t1, w1) := wavlm_stage app f segs w in
    let '(d', t2, w2) := pyannote_stage app f d w1 in
    (d', t1 ++ t2, w2).
Proof. done. Qed.

Lemma select_wavlm {E} (app : App) (f : FileRun E) (segs : list Segment)
    (w : world) (ws : list Word) :
  wavlm_labels app f segs = Some ws →
  select app f segs w
  = ((as_segment <$> resegment ws, speaker_labels_of (resegment ws)),
     EvWavlm :: locked 96 ++ locked 98, at_progress 98 w)
  ∧ speaker_labels_of (resegment ws) ≠ ∅.
Proof.
  unfold wavlm_labels. intros H.
  destruct (wavlm_ready app) eqn:Hr; [|done].
  destruct (nonempty (all_words segs)) eqn:Hn; [|done]. simpl in H.
  destruct (diarize_words _ _ _) as [ws0|] eqn:Hd; [|done].
  injection H as ->.
  assert (Hne : speaker_labels_of (resegment ws) ≠ ∅).
  { eapply wavlm_labels_nonempty; [|done]. by destruct (all_words segs). }
  split; [|done].
  rewrite select_run, wavlm_stage_run, Hr, Hn, Hd, pyannote_stage_run.
  simpl snd. by rewrite bool_decide_eq_false_2.
Qed.

Lemma select_fallthrough {E} (app : App) (f : FileRun E) (segs : list Segment)
    (w : world) :
  wavlm_labels app f segs = None →
  ∃ w1,
    select app f segs w
    = if pipeline_ready app then
        match pipeline f with
        | Returned turns =>
            ((as_segment <$> turn_resegment turns segs,
              speaker_labels_of (turn_resegment turns segs)),
             wavlm_events app f segs ++ EvPyannote :: locked 96 ++ locked 98,
             at_progress 98 w1)
        | Raised =>
            ((segs, ∅),
             wavlm_events app f segs
             ++ EvPyannote :: locked 96 ++ [EvPyannoteFailed],
             at_progress 96 w1)
        end
      else ((segs, ∅), wavlm_events app f segs, w1).
Proof.
  unfold wavlm_labels, wavlm_events. intros H.
  rewrite select_run, wavlm_stage_run.
  destruct (wavlm_ready app); simpl in H.
  - destruct (nonempty (all_words segs)).
    + destruct (diarize_words _ _ _); [done|].
      exists (at_progress 96 w). rewrite pyannote_stage_run. simpl snd.
      rewrite bool_decide_eq_true_2 by done. simpl fst.
      destruct (pipeline_ready app); [|done].
      by destruct (pipeline f).
    + exists (at_progress 96 w). rewrite pyannote_stage_run. simpl snd.
      rewrite bool_decide_eq_true_2 by done. simpl fst.
      destruct (pipeline_ready app); [|done].
      by destruct (pipeline f).
  - exists w. rewrite pyannote_stage_run. simpl snd.
    rewrite bool_decide_eq_true_2 by done. simpl fst.
    destruct (pipeline_ready app); [|done].
    by destruct (pipeline f).
Qed.

End SelectFacts.

Module SelectLog.
Import Reseg Turns Py Wavlm Worker WorkerFacts SelectorFacts SelectFacts.

Ltac not_in_log H :=
  repeat (apply elem_of_cons in H as [H|H]; [discriminate H|]);
  try (by apply elem_of_nil in H).

Lemma wavlm_events_no_pyannote {E} (app : App) (f : FileRun E) (segs : list Segment) :
  EvPyannote ∉ wavlm_events app f segs.
Proof.
  unfold wavlm_events, locked. intros H.
  destruct (wavlm_ready app); [|by apply elem_of_nil in H].
  destruct (nonempty (all_words segs)); simpl in H; not_in_log H.
Qed.

Lemma wavlm_events_head {E} (app : App) (f : FileRun E) (segs : list Segment)
    (rest : list event) :
  wavlm_ready app = true → head (wavlm_events app f segs ++ rest) = Some EvWavlm.
Proof.
  unfold wavlm_events. intros ->. by destruct (nonempty (all_words segs)).
Qed.

(** The external pipeline is attempted exactly when the embedding
    diarizer left no labels and a pipeline is loaded. *)
Lemma pyannote_attempted {E} (app : App) (f : FileRun E) (segs : list Segment)
    (w : world) :
  EvPyannote ∈ trace (select app f segs) w
  ↔ wavlm_labels app f segs = None ∧ pipeline_ready app = true.
Proof.
  unfold trace. destruct (wavlm_labels app f segs) as [ws|] eqn:Hl.
  - destruct (select_wavlm app f segs w ws Hl) as [-> _]. simpl.
    split; [|by intros [? _]]. intros H. unfold locked in H. simpl in H.
    not_in_log H.
  - destruct (select_fallthrough app f segs w Hl) as (w1 & ->).
    destruct (pipeline_ready app).
    + split; [done|]. intros _.
      destruct (pipeline f); simpl; apply elem_of_app; right; left.
    + simpl. split; [|by intros [_ ?]].
      intros H. by apply wavlm_events_no_pyannote in H.
Qed.

Lemma select_first {E} (app : App) (f : FileRun E) (segs : list Segment)
    (w : world) :
  wavlm_ready app = true → head (trace (select app f segs) w) = Some EvWavlm.
Proof.
  intros Hr. unfold trace.
  destruct (wavlm_labels app f segs) as [ws|] eqn:Hl.
  - by destruct (select_wavlm app f segs w ws Hl) as [-> _].
  - destruct (select_fallthrough app f segs w Hl) as (w1 & ->).
    destruct (pipeline_ready app); [destruct (pipeline f)|]; simpl;
      rewrite ?(wavlm_events_head app f segs _ Hr); try done.
    unfold wavlm_events. rewrite Hr. by destruct (nonempty _).
Qed.

Lemma select_wavlm_raised {E} (app : App) (f : FileRun E) (segs : list Segment)
    (w : world) :
  wavlm_ready app = true → all_words segs ≠ [] →
  diarize_words (backend f) (num_speakers app) (all_words segs) = Raised →
  EvWavlmFailed ∈ trace (select app f segs) w
  ∧ (pipeline_ready app = false →
     result (select app f segs) w = (segs, ∅)).
Proof.
  intros Hr Hne Hd.
  assert (Hl : wavlm_labels app f segs = None).
  { unfold wavlm_labels. rewrite Hr, Hd. by destruct (nonempty _). }
  assert (He : wavlm_events app f segs = EvWavlm :: locked 96 ++ [EvWavlmFailed]).
  { unfold wavlm_events. rewrite Hr. by destruct (all_words segs). }
  unfold trace, result.
  destruct (select_fallthrough app f segs w Hl) as (w1 & ->). rewrite He.
  assert (Hin : ∀ rest, EvWavlmFailed ∈ (EvWavlm :: locked 96 ++ [EvWavlmFailed]) ++ rest).
  { intros rest. apply elem_of_app. left. unfold locked. simpl.
    do 4 right. left. }
  destruct (pipeline_ready app); [destruct (pipeline f)|]; simpl; split;
    try done; try apply (Hin (_ :: _)).
  unfold locked. simpl. do 4 right. left.
Qed.

Lemma select_pyannote_raised {E} (app : App) (f : FileRun E) (segs : list Segment)
    (w : world) :
  EvPyannote ∈ trace (select app f segs) w → pipeline f = Raised →
  EvPyannoteFailed ∈ trace (select app f segs) w
  ∧ result (select app f segs) w = (segs, ∅).
Proof.
  intros [Hl Hp]%pyannote_attempted Hraise. unfold trace, result.
  destruct (select_fallthrough app f segs w Hl) as (w1 & ->).
  rewrite Hp, Hraise. simpl. split; [|done].
  apply elem_of_app. right. unfold locked. simpl. do 4 right. left.
Qed.

(** Whatever the diarizers did, the file is written. *)
Lemma diarize_and_write_returns {E} (app : App) (f : FileRun E)
    (segs : list Segment) (w : world) :
  result (diarize_and_write app f segs) w = Some (negb (write_raises f))
  ∧ (write_raises f = false →
     EvWrite (stem f) ∈ trace (diarize_and_write app f segs) w
     ∧ disk (final (diarize_and_write app f segs) w) !! stem f
       = Some (render (result (select app f segs)
                         (final (with_lock (set_progress 95)) w)))).
Proof.
  unfold diarize_and_write.
  rewrite !result_bind, !trace_bind, !final_bind.
  destruct (write_raises f); [done|]. split; [done|]. intros _. split.
  - do 3 (apply elem_of_app; right). rewrite trace_bind.
    apply elem_of_app. left. left.
  - rewrite final_bind. simpl. by rewrite lookup_insert_eq.
Qed.

Lemma load_models_pipeline (cfg : Settings) (before : bool) :
  snd (load_models cfg before) = true →
  hf_token cfg ≠ EmptyString ∧ fst (load_models cfg before) = false.
Proof.
  unfold load_models. destruct (enable_diarization cfg); [|done]. simpl.
  destruct (if HAS_WAVLM cfg && use_wavlm cfg then _ else _); [done|]. simpl.
  destruct (HAS_DIARIZATION cfg); [|done]. simpl.
  destruct (bool_decide _) eqn:Ht; [|done].
  apply bool_decide_eq_true in Ht. done.
Qed.

End SelectLog.

(** C6. The selector tries the embedding diarizer first; when that
    diarizer produces word labels (clustered or the single default), its
    segments and non-empty speaker labels are the result and the external
    pipeline is not attempted; the external pipeline is attempted exactly
    when the embedding diarizer left no labels and a pipeline is loaded,
    which takes a credential and no loaded embedding model; an exception
    in the embedding diarizer is logged and leads to the external pipeline
    or, without one, to the unlabelled segments; an exception in the
    external pipeline leads to the unlabelled segments; and in every case
    the file goes on to be written. *)
Theorem selector_embedding_first {E} (app : Worker.App) (f : Worker.FileRun E)
    (segments_list : list Segment) (w : Worker.world) :
  let sel := Worker.select app f segments_list in
  let words := Turns.all_words segments_list in
  let embed := Wavlm.diarize_words (Worker.backend f) (Worker.num_speakers app) words in
  (Worker.wavlm_ready app = true → head (Worker.trace sel w) = Some Worker.EvWavlm)
  ∧ (Worker.wavlm_ready app = true → words ≠ [] →
     ∀ ws, embed = Wavlm.Returned ws →
       Worker.result sel w
       = (Worker.as_segment <$> Reseg.resegment ws,
          Worker.speaker_labels_of (Reseg.resegment ws))
       ∧ Worker.speaker_labels_of (Reseg.resegment ws) ≠ ∅
       ∧ Worker.EvPyannote ∉ Worker.trace sel w)
  ∧ (Worker.EvPyannote ∈ Worker.trace sel w →
     Worker.pipeline_ready app = true
     ∧ (Worker.wavlm_ready app = false ∨ words = [] ∨ embed = Wavlm.Raised))
  ∧ (Worker.wavlm_ready app = true → words ≠ [] → embed = Wavlm.Raised →
     Worker.EvWavlmFailed ∈ Worker.trace sel w
     ∧ (Worker.pipeline_ready app = true → Worker.EvPyannote ∈ Worker.trace sel w)
     ∧ (Worker.pipeline_ready app = false →
        Worker.result sel w = (segments_list, ∅)))
  ∧ (Worker.EvPyannote ∈ Worker.trace sel w → Worker.pipeline f = Wavlm.Raised →
     Worker.EvPyannoteFailed ∈ Worker.trace sel w
     ∧ Worker.result sel w = (segments_list, ∅))
  ∧ Worker.result (Worker.diarize_and_write app f segments_list) w
    = Some (negb (Worker.write_raises f))
  ∧ (Worker.write_raises f = false →
     Worker.EvWrite (Worker.stem f)
     ∈ Worker.trace (Worker.diarize_and_write app f segments_list) w)
  ∧ (∀ cfg before, snd (Worker.load_models cfg before) = true →
       Worker.hf_token cfg ≠ EmptyString
       ∧ fst (Worker.load_models cfg before) = false).
Proof.
  intros sel words embed.
  split; [apply SelectLog.select_first|].
  split.
  { intros Hr Hne ws Hws.
    assert (Hl : Worker.wavlm_labels app f segments_list = Some ws).
    { unfold Worker.wavlm_labels. fold words embed. rewrite Hr, Hws.
      by destruct words. }
    destruct (SelectFacts.select_wavlm app f segments_list w ws Hl) as [Hs Hn].
    split; [unfold Worker.result, sel; by rewrite Hs|]. split; [done|].
    intros [Hnone _]%SelectLog.pyannote_attempted. congruence. }
  split.
  { intros [Hl Hp]%SelectLog.pyannote_attempted. split; [done|].
    unfold Worker.wavlm_labels in Hl. fold words embed in Hl.
    destruct (Worker.wavlm_ready app); [|by left]. right.
    destruct words; [by left|]. right. simpl in Hl. by destruct embed. }
  split.
  { intros Hr Hne Hraise.
    destruct (SelectLog.select_wavlm_raised app f segments_list w Hr Hne Hraise)
      as [H1 H2].
    split; [done|]. split; [|done]. intros Hp.
    apply SelectLog.pyannote_attempted. split; [|done].
    unfold Worker.wavlm_labels. fold words embed. rewrite Hr, Hraise.
    by destruct (Reseg.nonempty words). }
  split; [apply SelectLog.select_pyannote_raised|].
  split; [apply SelectLog.diarize_and_write_returns|].
  split; [intros Hw; by apply SelectLog.diarize_and_write_returns|].
  apply SelectLog.load_models_pipeline.
Qed.

(** *** The progress value *)

Module ProgressFacts.
Import Reseg Turns Py Wavlm Worker VoteFacts WorkerFacts SelectorFacts SelectFacts.









Lemma min2_zero (a : Q) : (0 <= a)%Q → (min2 a 0 == 0)%Q.
Proof.
  intros H. unfold min2. destruct (Qltb 0 a) eqn:E; [lra|].
  apply Qltb_ge in E. lra.
Qed.








End ProgressFacts.

(** *** What a computation leaves out of the log *)

Section Avoids.
Import Worker WorkerFacts.
Context (P : Worker.event → bool).

Lemma avoids_bind {A B} (m : M A) (k : A → M B) :
  avoids P m → (∀ a, avoids P (k a)) → avoids P (m ≫= k).
Proof.
  intros Hm Hk w. rewrite trace_bind. apply Forall_app. split; [apply Hm|apply Hk].
Qed.

Lemma avoids_ret {A} (a : A) : avoids P (ret a).
Proof. intros w. constructor. Qed.

Lemma avoids_emit (e : event) : P e = false → avoids P (emit e).
Proof. intros H w. by repeat constructor. Qed.

Lemma avoids_filter {A} (m : M A) (w : world) :
  avoids P m → filter (fun e => P e) (trace m w) = [].
Proof.
  intros H. specialize (H w). induction H as [|e t He _ IH]; [done|].
  rewrite filter_cons_False; [exact IH|]. rewrite He. intros [].
Qed.

End Avoids.

Module LogFacts.
Import Reseg Turns Py Wavlm Worker WorkerFacts.

Ltac avoid_steps :=
  repeat first
    [ match goal with
      | |- avoids _ (_ ≫= _) => apply avoids_bind; [|intros ?]
      | |- avoids _ (ret _) => apply avoids_ret
      | |- avoids _ (mret _) => apply avoids_ret
      | |- avoids _ (emit _) => by apply avoids_emit
      | |- avoids _ (with_lock _) => unfold with_lock
      | |- avoids _ (fail_file _) => unfold fail_file
      | |- avoids _ (set_progress _) => intros ?; by repeat constructor
      | |- avoids _ (set_processed _) => intros ?; by repeat constructor
      | |- avoids _ (write_file _ _) => intros ?; by repeat constructor
      | |- avoids _ (read_stop _) => intros ?; by repeat constructor
      | |- avoids _ (if ?b then _ else _) => destruct b
      | |- avoids _ (match ?x with _ => _ end) => destruct x
      end ].

(** The selector and the writing of the file do not read the stop flag. *)
Lemma select_no_check {E} (app : App) (f : FileRun E) (segs : list Segment) :
  avoids is_check (select app f segs).
Proof. unfold select, wavlm_stage, pyannote_stage. avoid_steps. Qed.

Lemma diarize_and_write_no_check {E} (app : App) (f : FileRun E)
    (segs : list Segment) :
  avoids is_check (diarize_and_write app f segs).
Proof.
  unfold diarize_and_write. avoid_steps. apply select_no_check.
Qed.

Lemma select_no_mark {E} (app : App) (f : FileRun E) (segs : list Segment) :
  avoids is_mark (select app f segs).
Proof. unfold select, wavlm_stage, pyannote_stage. avoid_steps. Qed.

Lemma consume_no_mark (app : App) (total : Q) (g : generator) :
  ∀ segs, avoids is_mark (consume app total g segs).
Proof.
  induction g as [| |segment rest IH]; intros segs; cbn [consume];
    avoid_steps; apply IH.
Qed.

Lemma checks_avoided (tr : list event) :
  Forall (fun e => is_check e = false) tr → checks tr = [].
Proof.
  induction 1 as [|e t He _ IH]; [done|].
  destruct e; try discriminate He; exact IH.
Qed.

Lemma after_stop_app (t1 t2 : list event) :
  after_stop (t1 ++ t2)
  = match after_stop t1 with
    | Some t => Some (t ++ t2)
    | None => after_stop t2
    end.
Proof.
  induction t1 as [|e t1 IH]; [done|].
  destruct e as [[|]| | | | | | | | | | | | | | | | |]; simpl; done.
Qed.

Lemma after_stop_avoided (t : list event) :
  Forall (fun e => is_check e = false) t → after_stop t = None.
Proof.
  induction 1 as [|e t He _ IH]; [done|]. by destruct e.
Qed.

End LogFacts.

(** *** The stop flag *)

Module StopFacts.
Import Reseg Turns Py Wavlm Worker WorkerFacts LogFacts.

Lemma read_stop_bind {B} (app : App) (k : bool → M B) (w : world) :
  trace (read_stop app ≫= k) w
  = EvCheckStop (visible app w) :: trace (k (visible app w)) (tick w).
Proof. by rewrite trace_bind. Qed.

Lemma emit_bind {B} (e : event) (k : () → M B) (w : world) :
  trace (emit e ≫= k) w = e :: trace (k tt) w.
Proof. by rewrite trace_bind. Qed.

Lemma visible_tick (app : App) (w : world) :
  visible app w = true → visible app (tick w) = true.
Proof.
  unfold visible. destruct (stop_after app) as [n|]; [|done]. simpl.
  rewrite !Nat.leb_le. lia.
Qed.

Lemma run_guard_avoided (a : bool) (t : list event) :
  Forall (fun e => touches_guard e = false) t → run guard_step a t = Some a.
Proof.
  induction 1 as [|e t He _ IH]; [done|].
  simpl. destruct e; try discriminate He; exact IH.
Qed.

Lemma steps_bind {A B} (a b c : bool) (m : M A) (k : A → M B) :
  steps a b m → (∀ x, steps b c (k x)) → steps a c (m ≫= k).
Proof.
  intros Hm Hk w. rewrite trace_bind, run_app, Hm. apply Hk.
Qed.

Lemma steps_avoided {A} (a : bool) (m : M A) :
  avoids touches_guard m → steps a a m.
Proof. intros H w. apply run_guard_avoided, H. Qed.

Lemma select_no_guard {E} (app : App) (f : FileRun E) (segs : list Segment) :
  avoids touches_guard (select app f segs).
Proof. unfold select, wavlm_stage, pyannote_stage. avoid_steps. Qed.

Lemma diarize_and_write_no_guard {E} (app : App) (f : FileRun E)
    (segs : list Segment) :
  avoids touches_guard (diarize_and_write app f segs).
Proof. unfold diarize_and_write. avoid_steps. apply select_no_guard. Qed.

Lemma steps_consume (app : App) (total : Q) (g : generator) :
  ∀ segs, steps false false (consume app total g segs).
Proof.
  induction g as [| |segment rest IH]; intros segs w; [done..|].
  cbn [consume]. rewrite read_stop_bind.
  destruct (visible app w); [done|].
  rewrite emit_bind.
  change (run guard_step false (EvCheckStop false :: EvSegment :: ?t))
    with (run guard_step false t).
  rewrite trace_bind, run_app, run_guard_avoided.
  - apply IH.
  - assert (avoids touches_guard
      (with_lock (set_processed (length (segs ++ [segment])) ;;
                  if Qltb 0 total
                  then set_progress (min2 95 (s_end segment / total * 100))
                  else ret ())) ) as H by avoid_steps.
    apply H.
Qed.

Lemma steps_transcribe_file {E} (app : App) (f : FileRun E) :
  steps true false (transcribe_file app f).
Proof.
  intros w. unfold transcribe_file. rewrite emit_bind.
  change (run guard_step true (EvBegin ?n :: ?t)) with (run guard_step false t).
  destruct (transcribe_raises f); [done|].
  rewrite trace_bind, run_app, run_guard_avoided.
  2:{ assert (avoids touches_guard (with_lock (set_progress 0 ;; set_processed 0)))
        as H by avoid_steps. apply H. }
  simpl mbind. rewrite trace_bind, run_app, steps_consume. simpl mbind.
  destruct (result _ _); [|done..].
  apply run_guard_avoided, diarize_and_write_no_guard.
Qed.

Lemma steps_file_loop {E} (app : App) (total : nat) (queue : list (FileRun E)) :
  ∀ i, steps false false (file_loop app i total queue).
Proof.
  induction queue as [|f rest IH]; intros i w; [done|].
  cbn [file_loop]. rewrite read_stop_bind.
  destruct (visible app w); [done|].
  rewrite !emit_bind.
  change (run guard_step false (EvCheckStop false :: ?s :: ?b :: ?t))
    with (run guard_step true t).
  rewrite trace_bind, run_app, steps_transcribe_file. simpl mbind.
  rewrite emit_bind. apply IH.
Qed.

(** A read of the flag that sees [False] comes before every file begun and
    every segment taken, and the flag is not read otherwise. *)
Lemma guarded_process_files {E} (app : App) (queue : list (FileRun E)) (w : world) :
  run guard_step false (trace (process_files app queue) w) = Some false.
Proof.
  unfold process_files. rewrite trace_bind, run_app, steps_file_loop. done.
Qed.

(** *** After the flag was seen *)

Lemma consume_stop (app : App) (total : Q) (g : generator) :
  ∀ segs w,
    match after_stop (trace (consume app total g segs) w) with
    | Some t =>
        t = [EvStoppedInFile]
        ∧ result (consume app total g segs) w = LoopStopped
        ∧ visible app (final (consume app total g segs) w) = true
    | None => True
    end.
Proof.
  induction g as [| |segment rest IH]; intros segs w; [done..|].
  cbn [consume]. rewrite read_stop_bind, result_bind, final_bind.
  change (result (read_stop app) w) with (visible app w).
  change (final (read_stop app) w) with (tick w).
  destruct (visible app w) eqn:Hv.
  - simpl. split; [done|]. split; [done|]. by apply visible_tick.
  - rewrite emit_bind, result_bind, final_bind.
    change (after_stop (EvCheckStop false :: EvSegment :: ?t)) with (after_stop t).
    rewrite trace_bind, result_bind, final_bind, after_stop_app.
    rewrite after_stop_avoided; [apply IH|].
    assert (avoids is_check
      (with_lock (set_processed (length (segs ++ [segment])) ;;
                  if Qltb 0 total
                  then set_progress (min2 95 (s_end segment / total * 100))
                  else ret ())) ) as H by avoid_steps.
    apply H.
Qed.

Lemma transcribe_file_stop {E} (app : App) (f : FileRun E) (w : world) :
  match after_stop (trace (transcribe_file app f) w) with
  | Some t =>
      t = [EvStoppedInFile]
      ∧ result (transcribe_file app f) w = None
      ∧ visible app (final (transcribe_file app f) w) = true
  | None => True
  end.
Proof.
  unfold transcribe_file. rewrite emit_bind, result_bind, final_bind.
  change (after_stop (EvBegin ?n :: ?t)) with (after_stop t).
  change (final (emit (EvBegin (name f))) w) with w.
  destruct (transcribe_raises f); [done|].
  rewrite trace_bind, result_bind, final_bind, after_stop_app.
  rewrite after_stop_avoided.
  2:{ assert (avoids is_check (with_lock (set_progress 0 ;; set_processed 0)))
        as H by avoid_steps. apply H. }
  rewrite trace_bind, result_bind, final_bind, after_stop_app.
  set (w1 := final (with_lock (set_progress 0 ;; set_processed 0)) w).
  pose proof (consume_stop app (duration f) (segments f) [] w1) as Hc.
  destruct (after_stop (trace (consume app (duration f) (segments f) []) w1))
    as [t|] eqn:Ht.
  - destruct Hc as (-> & Hr & Hv). rewrite Hr. simpl. done.
  - destruct (result (consume app (duration f) (segments f) []) w1); [|done..].
    by rewrite after_stop_avoided by apply diarize_and_write_no_check.
Qed.

(** With the flag set, the file loop only leaves. *)
Lemma file_loop_visible {E} (app : App) (i total : nat) (queue : list (FileRun E))
    (w : world) :
  visible app w = true →
  Forall (fun e => leaving e = true) (trace (file_loop app i total queue) w).
Proof.
  intros Hv. destruct queue as [|f rest]; [constructor|].
  cbn [file_loop]. rewrite read_stop_bind, Hv. by repeat constructor.
Qed.

Lemma file_loop_stop {E} (app : App) (total : nat) (queue : list (FileRun E)) :
  ∀ i w t, after_stop (trace (file_loop app i total queue) w) = Some t →
           Forall (fun e => leaving e = true) t.
Proof.
  induction queue as [|f rest IH]; intros i w t; [done|].
  cbn [file_loop]. rewrite read_stop_bind.
  destruct (visible app w) eqn:Hv.
  - intros [= <-]. by repeat constructor.
  - rewrite !emit_bind.
    change (after_stop (EvCheckStop false :: ?s :: ?b :: ?t)) with (after_stop t).
    rewrite trace_bind, after_stop_app.
    pose proof (transcribe_file_stop app f (tick w)) as Hf.
    destruct (after_stop (trace (transcribe_file app f) (tick w))) as [t1|].
    + destruct Hf as (-> & _ & Hvis). intros [= <-].
      simpl mbind. rewrite emit_bind. repeat constructor.
      by apply file_loop_visible.
    + simpl mbind. rewrite emit_bind.
      change (after_stop (EvBar ?p :: ?t)) with (after_stop t). apply IH.
Qed.

(** Once a read has seen the flag, the worker begins no file, takes no
    segment, runs no diarizer and writes nothing. *)
Lemma process_files_stop {E} (app : App) (queue : list (FileRun E)) (w : world)
    (t : list event) :
  after_stop (trace (process_files app queue) w) = Some t →
  Forall (fun e => leaving e = true) t.
Proof.
  unfold process_files. rewrite trace_bind, after_stop_app.
  destruct (after_stop (trace (file_loop _ _ _ _) w)) as [t1|] eqn:Ht1.
  - intros [= <-]. apply Forall_app. split; [|by repeat constructor].
    by eapply file_loop_stop.
  - done.
Qed.

End StopFacts.

(** *** The output files *)

Module DiskFacts.
Import Reseg Turns Py Wavlm Worker WorkerFacts.

Lemma keeps_bind {A B} (m : M A) (k : A → M B) :
  keeps m → (∀ a, keeps (k a)) → keeps (m ≫= k).
Proof.
  intros Hm Hk w file H. rewrite final_bind. by apply Hk, Hm.
Qed.

Lemma keeps_write_file (file : string) (t : transcript) : keeps (write_file file t).
Proof.
  intros w file' H. simpl. apply lookup_insert_is_Some.
  destruct (decide (file = file')); [by left|by right].
Qed.

Ltac keep_steps :=
  repeat first
    [ match goal with
      | |- keeps (_ ≫= _) => apply keeps_bind; [|intros ?]
      | |- keeps (write_file _ _) => apply keeps_write_file
      | |- keeps (with_lock _) => unfold with_lock
      | |- keeps (fail_file _) => unfold fail_file
      | |- keeps (ret _) => by intros ? ? ?
      | |- keeps (mret _) => by intros ? ? ?
      | |- keeps (emit _) => by intros ? ? ?
      | |- keeps (set_progress _) => by intros ? ? ?
      | |- keeps (set_processed _) => by intros ? ? ?
      | |- keeps (read_stop _) => by intros ? ? ?
      | |- keeps (if ?b then _ else _) => destruct b
      | |- keeps (match ?x with _ => _ end) => destruct x
      end ].

Lemma keeps_consume (app : App) (total : Q) (g : generator) :
  ∀ segs, keeps (consume app total g segs).
Proof.
  induction g as [| |segment rest IH]; intros segs; cbn [consume];
    keep_steps; apply IH.
Qed.

Lemma keeps_transcribe_file {E} (app : App) (f : FileRun E) :
  keeps (transcribe_file app f).
Proof.
  unfold transcribe_file. keep_steps; [apply keeps_consume|].
  unfold diarize_and_write, select, wavlm_stage, pyannote_stage. keep_steps.
Qed.

Lemma keeps_file_loop {E} (app : App) (total : nat) (queue : list (FileRun E)) :
  ∀ i, keeps (file_loop app i total queue).
Proof.
  induction queue as [|f rest IH]; intros i; cbn [file_loop];
    keep_steps; [apply keeps_transcribe_file|apply IH].
Qed.

Lemma keeps_process_files {E} (app : App) (queue : list (FileRun E)) :
  keeps (process_files app queue).
Proof.
  unfold process_files. keep_steps. apply keeps_file_loop.
Qed.

End DiskFacts.

(** C7, as the code has it. Cancellation is cooperative: the worker reads
    the stop flag before it begins each file and before it takes each
    segment of the file in flight, always on a read that saw the flag
    unset, and nowhere else; once a read has seen the flag set, the log
    holds nothing but the worker leaving (no file is begun, no segment
    taken, no diarizer run, nothing written); from the end of the segment
    loop on the flag is not read, so a diarization or write in flight
    completes; and no output file is removed. *)
Theorem cancellation_is_cooperative {E} (app : Worker.App)
    (file_queue : list (Worker.FileRun E)) (w : Worker.world) :
  let run_ := Worker.process_files app file_queue in
  Worker.run Worker.guard_step false (Worker.trace run_ w) = Some false
  ∧ (∀ t, Worker.after_stop (Worker.trace run_ w) = Some t →
          Forall (fun e => Worker.leaving e = true) t)
  ∧ (∀ (f : Worker.FileRun E) segments_list w',
       Worker.checks (Worker.trace (Worker.diarize_and_write app f segments_list) w')
       = []
       ∧ Worker.result (Worker.diarize_and_write app f segments_list) w'
         = Some (negb (Worker.write_raises f)))
  ∧ (∀ file, is_Some (Worker.disk w !! file) →
             is_Some (Worker.disk (Worker.final run_ w) !! file)).
Proof.
  intros run_. split; [apply StopFacts.guarded_process_files|].
  split; [apply StopFacts.process_files_stop|].
  split.
  - intros f segs w'. split.
    + apply LogFacts.checks_avoided, LogFacts.diarize_and_write_no_check.
    + apply SelectLog.diarize_and_write_returns.
  - apply DiskFacts.keeps_process_files.
Qed.

(** C7, as stated, fails on where the flag is read. With the stop button
    pressed while the second of two segments is transcribed, the flag is
    read, and seen set, inside the segment loop: the loop is left with
    one segment taken and the file is neither diarized nor written. With
    the button pressed after the last segment, the flag is not read
    again: the file is diarized and written. *)
Lemma stop_is_read_inside_the_segment_loop :
  Worker.trace (Worker.process_files Worker.stop_in_second_segment
                  [Worker.good_file "a"]) Worker.start_world
  = [ Worker.EvCheckStop false;
      Worker.EvStatus (Worker.Transcribing 1 1 "a.mp3"); Worker.EvBar 0;
      Worker.EvBegin "a.mp3";
      Worker.EvAcquire; Worker.EvProgress 0; Worker.EvProcessed 0; Worker.EvRelease;
      Worker.EvCheckStop false; Worker.EvSegment;
      Worker.EvAcquire; Worker.EvProcessed 1; Worker.EvProgress (100 # 2);
      Worker.EvRelease;
      Worker.EvCheckStop true; Worker.EvStoppedInFile;
      Worker.EvBar 100; Worker.EvComplete ]
  ∧ Worker.run Worker.stated_step false
      (Worker.trace (Worker.process_files Worker.stop_in_second_segment
                       [Worker.good_file "a"]) Worker.start_world) = None
  ∧ Worker.checks
      (Worker.trace (Worker.process_files Worker.stop_during_diarization
                       [Worker.good_file "a"]) Worker.start_world)
    = [false; false; false]
  ∧ Worker.written
      (Worker.trace (Worker.process_files Worker.stop_during_diarization
                       [Worker.good_file "a"]) Worker.start_world)
    = ["a"%string].
Proof. repeat split; vm_compute; reflexivity. Qed.

(** *** A run that is not stopped *)

Module RunFacts.
Import Reseg Turns Py Wavlm Worker WorkerFacts LogFacts StopFacts.

Lemma never_visible (app : App) (w : world) :
  stop_after app = None → visible app w = false.
Proof. unfold visible. by intros ->. Qed.

Lemma marks_app (t1 t2 : list event) : marks (t1 ++ t2) = marks t1 ++ marks t2.
Proof. apply filter_app. Qed.

Lemma marks_avoided {A} (m : M A) (w : world) :
  avoids is_mark m → marks (trace m w) = [].
Proof. apply avoids_filter. Qed.

Lemma untouched_bind {A B} (m : M A) (k : A → M B) :
  untouched m → (∀ a, untouched (k a)) → untouched (m ≫= k).
Proof. intros Hm Hk w. by rewrite final_bind, Hk, Hm. Qed.

Ltac untouched_steps :=
  repeat first
    [ match goal with
      | |- untouched (_ ≫= _) => apply untouched_bind; [|intros ?]
      | |- untouched (with_lock _) => unfold with_lock
      | |- untouched (fail_file _) => unfold fail_file
      | |- untouched (ret _) => by intros ?
      | |- untouched (mret _) => by intros ?
      | |- untouched (emit _) => by intros ?
      | |- untouched (set_progress _) => by intros ?
      | |- untouched (set_processed _) => by intros ?
      | |- untouched (read_stop _) => by intros ?
      | |- untouched (if ?b then _ else _) => destruct b
      | |- untouched (match ?x with _ => _ end) => destruct x
      end ].

Lemma untouched_consume (app : App) (total : Q) (g : generator) :
  ∀ segs, untouched (consume app total g segs).
Proof.
  induction g as [| |segment rest IH]; intros segs; cbn [consume];
    untouched_steps; apply IH.
Qed.

Lemma untouched_select {E} (app : App) (f : FileRun E) (segs : list Segment) :
  untouched (select app f segs).
Proof. unfold select, wavlm_stage, pyannote_stage. untouched_steps. Qed.

Lemma untouched_diarize_and_write {E} (app : App) (f : FileRun E)
    (segs : list Segment) :
  write_raises f = true → untouched (diarize_and_write app f segs).
Proof.
  intros Hw. unfold diarize_and_write. rewrite Hw.
  untouched_steps. apply untouched_select.
Qed.

(** Without a stop the loop takes every segment, or meets the exception. *)
Lemma consume_result (app : App) (total : Q) (g : generator) :
  stop_after app = None →
  ∀ segs w,
    result (consume app total g segs) w
    = if completes g then LoopDone (segs ++ yielded g) else LoopRaised.
Proof.
  intros Hs. induction g as [| |segment rest IH]; intros segs w.
  - simpl. by rewrite app_nil_r.
  - done.
  - cbn [consume completes yielded]. rewrite result_bind.
    change (result (read_stop app) w) with (visible app w).
    rewrite (never_visible _ _ Hs), !result_bind, IH.
    by rewrite <- app_assoc.
Qed.

Lemma diarize_and_write_marks {E} (app : App) (f : FileRun E) (segs : list Segment)
    (w : world) :
  marks (trace (diarize_and_write app f segs) w)
  = [if write_raises f then EvStatus (ErrorTranscribing (name f))
     else EvWrite (stem f)].
Proof.
  unfold diarize_and_write. rewrite !trace_bind, !marks_app.
  rewrite (marks_avoided (with_lock _)) by (unfold with_lock; avoid_steps).
  rewrite (marks_avoided (emit _)) by avoid_steps.
  rewrite (marks_avoided (select _ _ _)) by apply select_no_mark.
  by destruct (write_raises f).
Qed.

Lemma transcribe_file_marks {E} (app : App) (f : FileRun E) (w : world) :
  stop_after app = None →
  marks (trace (transcribe_file app f) w) = file_marks f
  ∧ result (transcribe_file app f) w = Some (succeeds f).
Proof.
  intros Hs. unfold transcribe_file, file_marks, succeeds.
  rewrite emit_bind, result_bind.
  change (marks (EvBegin ?n :: ?t)) with (EvBegin n :: marks t).
  destruct (transcribe_raises f); [split; reflexivity|].
  rewrite !trace_bind, !result_bind, !marks_app.
  rewrite (marks_avoided (with_lock _)) by (unfold with_lock; avoid_steps).
  rewrite (marks_avoided (consume _ _ _ _)) by apply consume_no_mark.
  rewrite !(consume_result _ _ _ Hs).
  destruct (completes (segments f)); [|split; reflexivity]. rewrite !app_nil_l.
  rewrite diarize_and_write_marks. split; [by destruct (write_raises f)|].
  apply SelectLog.diarize_and_write_returns.
Qed.

(** A file that fails leaves a message and no output. *)
Lemma failed_file {E} (app : App) (f : FileRun E) (w : world) :
  stop_after app = None → succeeds f = false →
  result (transcribe_file app f) w = Some false
  ∧ EvStatus (ErrorTranscribing (name f)) ∈ trace (transcribe_file app f) w
  ∧ written (trace (transcribe_file app f) w) = []
  ∧ disk (final (transcribe_file app f) w) = disk w.
Proof.
  intros Hs Hf. destruct (transcribe_file_marks app f w Hs) as [Hm Hr].
  rewrite Hr, Hf. split; [done|].
  assert (Hin : EvStatus (ErrorTranscribing (name f))
                ∈ marks (trace (transcribe_file app f) w)).
  { rewrite Hm. unfold file_marks. rewrite Hf. right. left. }
  apply list_elem_of_filter in Hin as [_ Hin]. split; [done|]. split.
  - assert (Hw : written (marks (trace (transcribe_file app f) w)) = [])
      by (rewrite Hm; unfold file_marks; by rewrite Hf).
    revert Hw. generalize (trace (transcribe_file app f) w).
    induction l as [|e l IH]; [done|].
    unfold marks. rewrite filter_cons.
    destruct e as [| [] | | | | | | | | | | | | | | | |]; simpl; try exact IH; try done.
  - unfold succeeds in Hf. unfold transcribe_file.
    rewrite final_bind. change (final (emit _) w) with w.
    destruct (transcribe_raises f); [done|]. simpl in Hf.
    rewrite final_bind.
    set (w1 := final (with_lock (set_progress 0 ;; set_processed 0)) w).
    assert (disk w1 = disk w) as <- by reflexivity.
    rewrite final_bind, (consume_result _ _ _ Hs).
    destruct (completes (segments f)).
    + simpl in Hf. apply negb_false_iff in Hf.
      rewrite untouched_diarize_and_write by done. apply untouched_consume.
    + change (disk (final (fail_file f) ?w)) with (disk w).
      apply untouched_consume.
Qed.

Lemma file_loop_marks {E} (app : App) (total : nat) (queue : list (FileRun E)) :
  stop_after app = None →
  ∀ i w, marks (trace (file_loop app i total queue) w)
         = concat (file_marks <$> queue).
Proof.
  intros Hs. induction queue as [|f rest IH]; intros i w; [done|].
  cbn [file_loop]. rewrite read_stop_bind, (never_visible _ _ Hs).
  rewrite !emit_bind.
  change (marks (EvCheckStop false :: EvStatus (Transcribing ?a ?b ?c)
                 :: EvBar ?p :: ?t)) with (marks t).
  rewrite trace_bind, marks_app.
  destruct (transcribe_file_marks app f (tick w) Hs) as [-> _].
  simpl mbind. rewrite emit_bind.
  change (marks (EvBar ?p :: ?t)) with (marks t).
  by rewrite IH.
Qed.

Lemma process_files_completes {E} (app : App) (queue : list (FileRun E)) (w : world) :
  last (trace (process_files app queue) w) = Some EvComplete.
Proof.
  unfold process_files. rewrite trace_bind.
  change (trace (emit EvComplete) ?w) with [EvComplete]. apply last_snoc.
Qed.

End RunFacts.

(** C9. In a run that is not stopped, every queued file is begun, in
    queue order, whatever became of the files before it; a file whose
    transcription raises (or whose output cannot be opened) is reported
    through the status channel, returns [False] and leaves no output file,
    a file that succeeds is written; and the run ends with the call of
    the completion handler. *)
Theorem failed_file_does_not_stop_the_run {E} (app : Worker.App)
    (file_queue : list (Worker.FileRun E)) (w : Worker.world) :
  Worker.stop_after app = None →
  let tr := Worker.trace (Worker.process_files app file_queue) w in
  Worker.marks tr = concat (Worker.file_marks <$> file_queue)
  ∧ last tr = Some Worker.EvComplete
  ∧ (∀ (f : Worker.FileRun E) w', Worker.succeeds f = false →
       Worker.result (Worker.transcribe_file app f) w' = Some false
       ∧ Worker.EvStatus (Worker.ErrorTranscribing (Worker.name f))
         ∈ Worker.trace (Worker.transcribe_file app f) w'
       ∧ Worker.written (Worker.trace (Worker.transcribe_file app f) w') = []
       ∧ Worker.disk (Worker.final (Worker.transcribe_file app f) w')
         = Worker.disk w').
Proof.
  intros Hs tr. split.
  - unfold tr, Worker.process_files.
    rewrite WorkerFacts.trace_bind, RunFacts.marks_app.
    by rewrite RunFacts.file_loop_marks, app_nil_r.
  - split; [apply RunFacts.process_files_completes|].
    intros f w' Hf. by apply RunFacts.failed_file.
Qed.

Lemma failed_file_does_not_stop_the_run_witness :
  Worker.stop_after Worker.no_diarization = None
  ∧ Worker.marks
      (Worker.trace (Worker.process_files Worker.no_diarization
                       [Worker.bad_file "a"; Worker.good_file "b"])
                    Worker.start_world)
    = [ Worker.EvBegin "a.mp3";
        Worker.EvStatus (Worker.ErrorTranscribing "a.mp3");
        Worker.EvBegin "b.mp3"; Worker.EvWrite "b" ].
Proof.
  split; [reflexivity|].
  exact (proj1 (failed_file_does_not_stop_the_run Worker.no_diarization
                  [Worker.bad_file "a"; Worker.good_file "b"]
                  Worker.start_world eq_refl)).
Defined.

Module ProgressStages.
Import Reseg Turns Py Wavlm Worker VoteFacts WorkerFacts ProgressFacts.




End ProgressStages.




(** * Further properties of the code *)

(** ** The spans of the re-segmented segments *)

Module SpanFacts.
Import Reseg Spans ResegFacts.

Lemma covers_head (w w' : Word) (r : list Word) (x : Word) :
  (w_start w <= w_start w')%Q → w_speaker w = w_speaker w' →
  covers (segment_of_run (w' :: r)) x → covers (segment_of_run (w :: w' :: r)) x.
Proof.
  intros Hle Hsp (H1 & H2 & H3). unfold covers, segment_of_run, last_end in *.
  simpl in *.
  split; [lra|]. split; [done|]. congruence.
Qed.

Lemma runs_spans (ws : list Word) :
  well_timed ws →
  disjoint_spans (map segment_of_run (runs ws))
  ∧ ∀ w, w ∈ ws → ∃ s, s ∈ map segment_of_run (runs ws) ∧ covers s w.
Proof.
  induction ws as [|w ws IH]; [by split; [|intros w Hw; inversion Hw]|].
  intros (Hw & Hnext & Hws). destruct (IH Hws) as [Hd Hc]. clear IH.
  pose proof (runs_concat ws) as Hcc.
  pose proof (runs_no_empty ws) as Hne.
  simpl runs. destruct (runs ws) as [|[|w' r] rs] eqn:E.
  - simpl in Hcc. subst ws. split; [by simpl|].
    intros x Hx. apply list_elem_of_singleton in Hx as ->.
    exists (segment_of_run [w]). split; [by left|].
    unfold covers, segment_of_run, last_end. simpl. split; [lra|]. split; [lra|done].
  - by inversion Hne.
  - simpl in Hcc. subst ws. simpl in Hd. destruct Hd as (Hse & Hnx & Hd).
    unfold last_end in Hse. simpl in Hse.
    destruct (decide _) as [Heq|Hneq].
    + split.
      * simpl. split; [|done]. unfold last_end. simpl. lra.
      * intros x Hx. apply elem_of_cons in Hx as [->|Hx].
        -- eexists. split; [by left|]. unfold covers, segment_of_run, last_end. simpl.
           split; [lra|]. split; [|done]. lra.
        -- destruct (Hc x Hx) as (s & Hs & Hcov).
           apply elem_of_cons in Hs as [->|Hs].
           ++ eexists. split; [by left|]. apply covers_head; [lra|done..].
           ++ exists s. split; [by right|done].
    + split.
      * simpl. split; [done|]. split; [done|]. done.
      * intros x Hx. apply elem_of_cons in Hx as [->|Hx].
        -- eexists. split; [by left|]. unfold covers, segment_of_run, last_end. simpl.
           split; [lra|]. split; [lra|done].
        -- destruct (Hc x Hx) as (s & Hs & Hcov).
           exists s. split; [by right|done].
Qed.

End SpanFacts.

(** With word spans that follow one another, the segments of the
    Resegmenter have spans that follow one another too (no segment ends
    before it starts, none starts before the one in front of it has
    ended), and every word lies within the span of a segment that carries
    the word's label. *)
Theorem resegment_spans (all_words : list Word) :
  Spans.well_timed all_words →
  Spans.disjoint_spans (Reseg.resegment all_words)
  ∧ ∀ w, w ∈ all_words →
      ∃ s, s ∈ Reseg.resegment all_words ∧ Spans.covers s w.
Proof.
  intros H. rewrite ResegFacts.resegment_runs. by apply SpanFacts.runs_spans.
Qed.

Lemma resegment_spans_witness :
  Spans.well_timed Reseg.scenario_words
  ∧ Spans.disjoint_spans (Reseg.resegment Reseg.scenario_words).
Proof.
  assert (H : Spans.well_timed Reseg.scenario_words).
  { simpl. unfold Qle. simpl. lia. }
  split; [exact H|]. exact (proj1 (resegment_spans _ H)).
Defined.

(** ** The window loop *)

Module WindowLoop.
Import Reseg Turns Py Wavlm Windows VoteFacts WindowFacts.

Lemma window_word_indices_spec (all_words : list Word) (a b : Q) :
  ∀ k i, i ∈ window_word_indices k all_words a b
         ↔ ∃ j word, i = k + j ∧ all_words !! j = Some word
                     ∧ (a <= word_mid word)%Q ∧ (word_mid word < b)%Q.
Proof.
  induction all_words as [|w ws IH]; intros k i.
  - simpl. split; [by intros H; inversion H|]. by intros (j & word & _ & H & _).
  - cbn [window_word_indices]. rewrite elem_of_app, IH. split.
    + intros [H|(j & word & -> & Hj & Hab)].
      * destruct (Qle_bool a (word_mid w) && Qltb (word_mid w) b) eqn:E;
          [|by inversion H].
        apply list_elem_of_singleton in H as ->.
        apply andb_true_iff in E as [E1 E2].
        apply Qle_bool_iff in E1. apply Qltb_lt in E2.
        exists 0, w. split; [lia|done].
      * exists (S j), word. split; [lia|done].
    + intros (j & word & -> & Hj & H1 & H2). destruct j as [|j].
      * left. simpl in Hj. injection Hj as ->.
        apply Qle_bool_iff in H1. apply Qltb_lt in H2.
        rewrite H1, H2. simpl. rewrite Nat.add_0_r. by left.
      * right. exists j, word. split; [lia|done].
Qed.

Lemma window_word_indices_sorted (all_words : list Word) (a b : Q) :
  ∀ k, StronglySorted lt (window_word_indices k all_words a b).
Proof.
  induction all_words as [|w ws IH]; intros k; [constructor|].
  cbn [window_word_indices].
  destruct (Qle_bool a (word_mid w) && Qltb (word_mid w) b); [|apply IH].
  simpl. constructor; [apply IH|].
  apply Forall_forall. intros i Hi.
  apply window_word_indices_spec in Hi as (j & _ & -> & _). lia.
Qed.

Lemma min2_cases (a b : Q) :
  (b < a ∧ min2 a b = b)%Q ∨ (a <= b ∧ min2 a b = a)%Q.
Proof.
  unfold min2. destruct (Qltb b a) eqn:E.
  - left. by apply Qltb_lt in E.
  - right. by apply Qltb_ge in E.
Qed.

(** The window the loop looks at when [current_time] is [t]. *)
Lemma window_at (all_words : list Word) (total t : Q) (k : nat) :
  (t == inject_Z (Z.of_nat k) * WINDOW_STRIDE)%Q → (t < total)%Q →
  nonempty (window_word_indices 0 all_words t (min2 (t + WINDOW_SIZE) total)) = true →
  well_formed all_words total
    (mkWindow (window_word_indices 0 all_words t (min2 (t + WINDOW_SIZE) total))
              t (min2 (t + WINDOW_SIZE) total)).
Proof.
  intros Hk Ht Hne. unfold well_formed. simpl.
  split; [by destruct (window_word_indices _ _ _ _)|].
  split; [by exists k|].
  unfold WINDOW_SIZE in *.
  destruct (min2_cases (t + 1) total) as [[H ->]|[H ->]].
  - split; [lra|]. split; [lra|]. split; [lra|].
    split; [apply window_word_indices_sorted|].
    intros i. rewrite window_word_indices_spec. unfold in_window. simpl.
    split; [intros (j & word & -> & ?); by exists word|].
    intros (word & ?). by exists i, word.
  - split; [lra|]. split; [lra|]. split; [lra|].
    split; [apply window_word_indices_sorted|].
    intros i. rewrite window_word_indices_spec. unfold in_window. simpl.
    split; [intros (j & word & -> & ?); by exists word|].
    intros (word & ?). by exists i, word.
Qed.

Lemma make_windows_well_formed (all_words : list Word) (total : Q) (fuel : nat) :
  ∀ t k res,
    (t == inject_Z (Z.of_nat k) * WINDOW_STRIDE)%Q →
    make_windows fuel all_words total t = Some res →
    Forall (well_formed all_words total) res.
Proof.
  induction fuel as [|fuel IH]; intros t k res Hk H; [done|].
  cbn [make_windows] in H. destruct (Qltb t total) eqn:Ht.
  - apply Qltb_lt in Ht.
    destruct (make_windows fuel _ _ _) as [res'|] eqn:E; [|done].
    injection H as <-. apply Forall_app. split.
    + destruct (nonempty _) eqn:Hne; [|constructor].
      constructor; [|constructor]. by apply (window_at _ _ _ k).
    + eapply (IH _ (S k)); [|exact E].
      rewrite Nat2Z.inj_succ, <- Z.add_1_r, inject_Z_plus.
      change (inject_Z 1) with 1%Q. unfold WINDOW_STRIDE in *. lra.
  - injection H as <-. constructor.
Qed.

End WindowLoop.

(** Every window the loop creates holds at least one word, starts at a
    multiple of the stride, has a positive length of at most the window
    size, ends by the end of the last word, and lists exactly the words
    whose centre, [(start + end) / 2] as the code rounds it, lies in it,
    in increasing order of index. *)
Theorem windows_well_formed (all_words : list Word) :
  Forall (Windows.well_formed all_words (Reseg.last_end all_words))
         (Wavlm.create_windows all_words).
Proof.
  eapply (WindowLoop.make_windows_well_formed _ _ _ 0%Q 0).
  - reflexivity.
  - apply WindowFacts.create_windows_returns.
Qed.

Module WindowCover.
Import Reseg Turns Py Wavlm Windows VoteFacts WindowFacts WindowLoop.

Lemma make_windows_S (fuel : nat) (all_words : list Word) (total t : Q) :
  make_windows (S fuel) all_words total t
  = if Qltb t total then
      let idx := window_word_indices 0 all_words t (min2 (t + WINDOW_SIZE) total) in
      ((if nonempty idx then [mkWindow idx t (min2 (t + WINDOW_SIZE) total)] else [])
         ++.) <$> make_windows fuel all_words total (t + WINDOW_STRIDE)
    else Some [].
Proof. reflexivity. Qed.

Lemma fuel_next (total t : Q) (fuel : nat) :
  (2 * (total - t) <= inject_Z (Z.of_nat (S fuel)))%Q →
  (2 * (total - (t + WINDOW_STRIDE)) <= inject_Z (Z.of_nat fuel))%Q.
Proof.
  rewrite Nat2Z.inj_succ, <- Z.add_1_r, inject_Z_plus.
  change (inject_Z 1) with 1%Q. unfold WINDOW_STRIDE. lra.
Qed.

(** A word centred before the end of the recording is met by the loop:
    the window in which the loop finds it is appended. *)
Lemma make_windows_cover (all_words : list Word) (total : Q) (i : nat) (word : Word) :
  all_words !! i = Some word → (word_mid word < total)%Q →
  ∀ fuel t,
    (t <= word_mid word)%Q → (2 * (total - t) <= inject_Z (Z.of_nat fuel))%Q →
    ∃ res, make_windows (S fuel) all_words total t = Some res
           ∧ ∃ win, win ∈ res ∧ i ∈ word_indices win.
Proof.
  intros Hi Hc. induction fuel as [|fuel IH]; intros t Ht Hf.
  - change (inject_Z (Z.of_nat 0)) with 0%Q in Hf. lra.
  - pose proof (fuel_next _ _ _ Hf) as Hnext.
    rewrite make_windows_S.
    assert (Qltb t total = true) as -> by (apply Qltb_lt; lra).
    cbv zeta.
    destruct (Qltb (word_mid word) (min2 (t + WINDOW_SIZE) total)) eqn:E.
    + apply Qltb_lt in E.
      destruct (make_windows_enough all_words total fuel _ Hnext) as [res' Hres'].
      rewrite Hres'.
      assert (Hin : i ∈ window_word_indices 0 all_words t
                          (min2 (t + WINDOW_SIZE) total)).
      { apply window_word_indices_spec. by exists i, word. }
      eexists. split; [reflexivity|].
      destruct (window_word_indices 0 all_words t _) as [|j idx] eqn:Ei;
        [by inversion Hin|].
      simpl. eexists. split; [by left|]. done.
    + apply Qltb_ge in E. unfold WINDOW_SIZE in E.
      destruct (min2_cases (t + 1) total) as [[H Hm]|[H Hm]]; rewrite Hm in E;
        [lra|].
      destruct (IH (t + WINDOW_STRIDE)%Q) as (res' & Hres' & win & Hwin & Hiw);
        [unfold WINDOW_STRIDE; lra|done|].
      rewrite Hres'. eexists. split; [reflexivity|].
      exists win. split; [|done]. apply elem_of_app. by right.
Qed.

(** The windows that list a word: at most two from any time on, at most
    one from half a second before the word's centre on, none after it. *)
Lemma make_windows_votes (all_words : list Word) (total : Q) (i : nat) (word : Word) :
  all_words !! i = Some word →
  ∀ fuel t res,
    make_windows fuel all_words total t = Some res →
    length (windows_of id i res) ≤ 2
    ∧ ((word_mid word < t + WINDOW_STRIDE)%Q → length (windows_of id i res) ≤ 1)
    ∧ ((word_mid word < t)%Q → length (windows_of id i res) = 0).
Proof.
  intros Hi. induction fuel as [|fuel IH]; intros t res H; [done|].
  rewrite make_windows_S in H. destruct (Qltb t total) eqn:Ht.
  2:{ injection H as <-. simpl. split; [lia|]. split; [lia|done]. }
  cbv zeta in H.
  destruct (make_windows fuel _ _ _) as [res'|] eqn:E; [|done].
  injection H as <-. destruct (IH _ _ E) as (IH2 & IH1 & IH0). clear IH.
  unfold windows_of in *. rewrite filter_app, length_app.
  set (here := if nonempty _ then _ else _).
  assert (Hh : length (filter (fun x => i ∈ word_indices (id x)) here) ≤ 1
               ∧ (length (filter (fun x => i ∈ word_indices (id x)) here) = 1 →
                  (t <= word_mid word)%Q ∧ (word_mid word < t + WINDOW_SIZE)%Q)).
  { subst here. destruct (nonempty _); [|simpl; split; [lia|done]].
    rewrite filter_cons. destruct (decide _) as [Hin|Hout];
      [|simpl; split; [lia|done]].
    split; [simpl; lia|]. intros _. simpl in Hin.
    apply window_word_indices_spec in Hin as (j & word' & -> & Hj & H1 & H2).
    simpl in Hi. rewrite Hi in Hj. injection Hj as <-. split; [done|].
    unfold WINDOW_SIZE in *.
    destruct (min2_cases (t + 1) total) as [[? Hm]|[? Hm]]; rewrite Hm in H2; lra. }
  destruct Hh as [Hh1 Hh2]. unfold WINDOW_STRIDE, WINDOW_SIZE in *.
  set (a := length (filter _ here)) in *.
  set (b := length (filter _ res')) in *.
  destruct (decide (a = 1)) as [Ha|Ha].
  - destruct (Hh2 Ha) as [Hlo Hhi].
    split; [|split].
    + assert (b ≤ 1) by (apply IH1; lra). lia.
    + intros Hlt. assert (b = 0) by (apply IH0; lra). lia.
    + intros Hlt. lra.
  - assert (a = 0) as -> by lia. simpl.
    split; [done|]. split.
    + intros Hlt. assert (b = 0) by (apply IH0; lra). lia.
    + intros Hlt. apply IH0. lra.
Qed.

End WindowCover.

(** Every word whose centre, [(start + end) / 2] as the code rounds it,
    lies before the end of the last word, and not before the start of
    the recording, is listed by at least one of the windows the loop
    creates. *)
Theorem windows_cover (all_words : list Word) (i : nat) (word : Word) :
  all_words !! i = Some word →
  (0 <= VoteSpec.word_midpoint word)%Q →
  (VoteSpec.word_midpoint word < Reseg.last_end all_words)%Q →
  ∃ win, win ∈ Wavlm.create_windows all_words ∧ i ∈ Wavlm.word_indices win.
Proof.
  intros Hi H0 Hc.
  destruct (WindowCover.make_windows_cover all_words _ i word Hi Hc
              (Z.to_nat (Qceiling (2 * Reseg.last_end all_words))) 0 H0)
    as (res & Hres & Hwin).
  - pose proof (Qle_ceiling (2 * Reseg.last_end all_words)) as Hce.
    assert (inject_Z (Qceiling (2 * Reseg.last_end all_words))
            <= inject_Z (Z.of_nat (Z.to_nat (Qceiling (2 * Reseg.last_end all_words)))))%Q
      by (rewrite <- Zle_Qle; lia).
    lra.
  - pose proof (WindowFacts.create_windows_returns all_words) as Hret.
    unfold Wavlm.window_fuel in Hret. rewrite Hres in Hret.
    injection Hret as <-. exact Hwin.
Qed.

(** The centres are the rounded ones: the floats 0.3 and 0.7 add up to
    1.0, so the word from 0.3 to 0.7 is centred at 0.5 and is listed by
    the window that starts there; the floats 0.3 and 1.7 add up to 2.0,
    so a word from 0.3 to 1.7 is centred at 1.0, and when the last word
    ends at 1.0 no window lists it. *)
Example rounded_centres :
  Wavlm.word_indices
    <$> Wavlm.create_windows
          [mkWord (of_string "a") (Float.round64 0.3) (Float.round64 0.7) None]
  = [[0]; [0]]
  ∧ Wavlm.word_indices
      <$> Wavlm.create_windows
            [ mkWord (of_string "a") (Float.round64 0.3) (Float.round64 1.7) None;
              mkWord (of_string "b") (Float.round64 0.9) 1 None ]
    = [[1]; [1]].
Proof. vm_compute. split; reflexivity. Qed.

(** The percentage of the file loop is the rounded one as well: 29 files
    of 50 give [int((29 / 50) * 100)], which is 57 in binary64. *)
Example rounded_percent : Worker.percent 29 50 = 57%Z ∧ Worker.percent 50 50 = 100%Z.
Proof. vm_compute. split; reflexivity. Qed.

Lemma windows_cover_witness :
  ∃ win, win ∈ Wavlm.create_windows Wavlm.one_word ∧ 0 ∈ Wavlm.word_indices win.
Proof.
  apply (windows_cover Wavlm.one_word 0 (mkWord (of_string " hello") 0.6 0.8 None)).
  - reflexivity.
  - vm_compute. discriminate.
  - vm_compute. reflexivity.
Defined.

(** ** The votes of a word *)

Module VoteCount.
Import Reseg Turns Py Wavlm Windows VoteFacts WindowFacts WindowLoop WindowCover.

Lemma valid_windows_sublist {E} (B : Backend E) (wins : list Window) :
  (valid_windows B wins).*1 `sublist_of` wins.
Proof.
  unfold valid_windows. induction wins as [|win wins IH]; [constructor|].
  simpl. destruct (extract_embedding B win); simpl.
  - by constructor.
  - by apply sublist_cons.
Qed.

Lemma label_windows_fst (valid_segments : list Window) :
  ∀ speaker_ids labelled,
    label_windows valid_segments speaker_ids = Some labelled →
    labelled.*1 = valid_segments.
Proof.
  induction valid_segments as [|seg segs IH]; intros ids labelled H.
  - destruct ids; by injection H as <-.
  - destruct ids as [|id ids]; [done|]. cbn [label_windows] in H.
    destruct (label_windows segs ids) as [lab|] eqn:E; [|done].
    injection H as <-. simpl. f_equal. by apply (IH ids).
Qed.

Lemma votes_length (labelled : list (Window * string)) (i : nat) :
  length (speaker_votes labelled i) = length (windows_of id i labelled.*1).
Proof.
  unfold speaker_votes, windows_of. rewrite length_fmap.
  induction labelled as [|[win l] labelled IH]; [done|].
  rewrite fmap_cons, !filter_cons. simpl.
  destruct (decide (i ∈ word_indices win)); simpl; by rewrite IH.
Qed.

Lemma windows_of_sublist (i : nat) (l1 l2 : list Window) :
  l1 `sublist_of` l2 → length (windows_of id i l1) ≤ length (windows_of id i l2).
Proof.
  unfold windows_of. induction 1 as [|x l1 l2 _ IH|x l1 l2 _ IH]; [done| |].
  - rewrite !filter_cons. destruct (decide _); cbn [length]; lia.
  - rewrite filter_cons. destruct (decide _); cbn [length]; lia.
Qed.

Lemma windows_of_none (i : nat) (l : list Window) :
  Forall (fun win => i ∉ word_indices win) l → windows_of id i l = [].
Proof.
  unfold windows_of. induction 1 as [|win l Hwin _ IH]; [done|].
  rewrite filter_cons. by destruct (decide _).
Qed.

Lemma created_votes (all_words : list Word) (i : nat) :
  length (windows_of id i (create_windows all_words)) ≤ 2.
Proof.
  destruct (all_words !! i) as [word|] eqn:Hi.
  - eapply (make_windows_votes all_words _ i word Hi).
    apply create_windows_returns.
  - pose proof (make_windows_well_formed _ _ _ 0%Q 0 _ ltac:(reflexivity)
                  (create_windows_returns all_words)) as Hwf.
    rewrite windows_of_none; [simpl; lia|].
    eapply Forall_impl; [exact Hwf|].
    intros win (_ & _ & _ & _ & _ & _ & Hspec) Hin.
    apply Hspec in Hin as (word & Hw & _). simpl in Hw. congruence.
Qed.

Lemma most_common1_one (a : string) : most_common1 (Counter [a]) = Some (a, 1).
Proof. reflexivity. Qed.

Lemma most_common1_two (a b : string) :
  ∃ n, most_common1 (Counter [a; b]) = Some (a, n).
Proof.
  unfold Counter. simpl. destruct (decide (a = b)); by eexists.
Qed.

End VoteCount.

(** With windows of one second every half second, a word is listed by at
    most two windows, so it never has more than two votes; and whenever
    it has a vote, the label it gets is its first vote, the label of the
    earliest valid window that lists it. *)
Theorem first_window_wins {E} (B : Wavlm.Backend E) (all_words : list Word)
    (speaker_ids : list nat) (labelled : list (Wavlm.Window * string))
    (word_idx : nat) (word : Word) :
  Wavlm.label_windows
    (Wavlm.valid_windows B (Wavlm.create_windows all_words)).*1 speaker_ids
  = Some labelled →
  length (Wavlm.speaker_votes labelled word_idx) ≤ 2
  ∧ ∀ l votes, Wavlm.speaker_votes labelled word_idx = l :: votes →
               Wavlm.word_label labelled word_idx word = l.
Proof.
  intros H.
  assert (Hlen : length (Wavlm.speaker_votes labelled word_idx) ≤ 2).
  { rewrite VoteCount.votes_length, (VoteCount.label_windows_fst _ _ _ H).
    etrans; [apply VoteCount.windows_of_sublist,
               VoteCount.valid_windows_sublist|].
    apply VoteCount.created_votes. }
  split; [exact Hlen|]. intros l votes Hv.
  unfold Wavlm.word_label. rewrite Hv in *.
  destruct votes as [|l' [|l'' votes]]; [done| |simpl in Hlen; lia].
  destruct (VoteCount.most_common1_two l l') as [n ->]. done.
Qed.

Lemma first_window_wins_witness :
  ∃ labelled,
    Wavlm.label_windows
      (Wavlm.valid_windows Wavlm.second_window_apart
         (Wavlm.create_windows Wavlm.with_pause)).*1 [0; 1; 0; 0]
    = Some labelled
    ∧ length (Wavlm.speaker_votes labelled 1) ≤ 2.
Proof.
  eexists. split; [vm_compute; reflexivity|].
  refine (proj1 (first_window_wins Wavlm.second_window_apart Wavlm.with_pause
                   [0; 1; 0; 0] _ 1 (mkWord (of_string " then") 0.5 1 None) _)).
  vm_compute. reflexivity.
Defined.

(** ** The transcript *)

Module WrittenFacts.
Import Reseg Turns Py Wavlm Worker Written.
Import TextFacts ResegFacts ResegOrder TurnFacts SelectorFacts.

Lemma spoken_set_speaker (l : option string) (ws : list Word) :
  spoken <$> (set_speaker l <$> ws) = spoken <$> ws.
Proof. by rewrite <- list_fmap_compose. Qed.

Lemma spoken_vote_words (labelled : list (Window * string)) (ws : list Word) :
  spoken <$> vote_words labelled ws = spoken <$> ws.
Proof.
  unfold vote_words. rewrite fmap_imap.
  rewrite (imap_ext _ (fun _ w => spoken w)) by done. apply imap_const.
Qed.

Lemma through_spoken {A} (f : pystr * Q * Q → A) (ws ws' : list Word) :
  spoken <$> ws' = spoken <$> ws →
  map (fun w => f (spoken w)) ws' = map (fun w => f (spoken w)) ws.
Proof.
  intros H.
  by rewrite !(list_fmap_compose spoken f), H.
Qed.

Lemma words_text_spoken (ws ws' : list Word) :
  spoken <$> ws' = spoken <$> ws → words_text ws' = words_text ws.
Proof.
  intros H. unfold words_text. f_equal.
  apply (through_spoken (fun p => strip (fst (fst p))) _ _ H).
Qed.

Lemma first_start_set_speaker (l : option string) (ws : list Word) :
  first_start (set_speaker l <$> ws) = first_start ws.
Proof. by destruct ws. Qed.

Lemma last_end_set_speaker (l : option string) (ws : list Word) :
  last_end (set_speaker l <$> ws) = last_end ws.
Proof. unfold last_end. rewrite fmap_last. by destruct (last ws). Qed.

(** [speaker_labels.get(idx)] finds the label of the segment at [idx]. *)
Lemma speaker_labels_from_lookup (segs : list SegmentWithSpeaker) :
  ∀ k i, speaker_labels_from k segs !! i
         = if decide (k ≤ i) then segs !! (i - k) ≫= (fun s => truthy (speaker s))
           else None.
Proof.
  induction segs as [|s segs IH]; intros k i.
  - simpl. rewrite lookup_empty. by destruct (decide _).
  - cbn [speaker_labels_from].
    assert (Hrest : speaker_labels_from (S k) segs !! i
                    = if decide (k < i)
                      then segs !! (i - S k) ≫= (fun s => truthy (speaker s))
                      else None).
    { rewrite IH. destruct (decide (S k ≤ i)), (decide (k < i)); done || lia. }
    destruct (decide (k ≤ i)) as [Hle|Hgt].
    + destruct (decide (i = k)) as [->|Hne].
      * rewrite Nat.sub_diag. simpl.
        destruct (truthy (speaker s)) as [l|] eqn:El.
        -- by rewrite lookup_insert_eq.
        -- rewrite Hrest. rewrite decide_False by lia. done.
      * replace (i - k) with (S (i - S k)) by lia. simpl.
        destruct (truthy (speaker s)) as [l|] eqn:El.
        -- rewrite lookup_insert_ne by done. rewrite Hrest.
           by rewrite decide_True by lia.
        -- rewrite Hrest. by rewrite decide_True by lia.
    + destruct (truthy (speaker s)) as [l|] eqn:El.
      * rewrite lookup_insert_ne by lia. rewrite Hrest.
        by rewrite decide_False by lia.
      * rewrite Hrest. by rewrite decide_False by lia.
Qed.

Lemma render_blocks (segs : list SegmentWithSpeaker) :
  render (as_segment <$> segs, speaker_labels_of segs) = block <$> segs.
Proof.
  unfold render, speaker_labels_of. simpl.
  apply list_eq. intros i.
  rewrite list_lookup_imap, !list_lookup_fmap, speaker_labels_from_lookup.
  rewrite decide_True by lia. rewrite Nat.sub_0_r.
  destruct (segs !! i) as [s|]; [|done]. simpl. unfold block.
  by destruct (truthy (speaker s)).
Qed.

Lemma alternating_runs (rs : list (list Word)) :
  Forall (fun r => ∃ l, run_speaker r = Some l ∧ l ≠ EmptyString) rs →
  maximal rs → alternating (block <$> map segment_of_run rs).
Proof.
  induction 1 as [|r rs (l & Hr & Hl) Hall IH]; [done|].
  destruct rs as [|r2 rs]; [done|]. intros [Hne Hmax].
  split; [|by apply IH].
  inversion Hall as [|? ? (l2 & Hr2 & Hl2) _]; subst.
  unfold block. simpl. rewrite Hr, Hr2 in *. simpl.
  rewrite !decide_False by done. simpl. congruence.
Qed.

End WrittenFacts.

(** When the embedding diarizer returns, it returns the same words in the
    same order, each with its text and times as before and each with a
    label that is not empty. *)
Theorem diarizer_keeps_words {E} (B : Wavlm.Backend E) (num_speakers : Z)
    (all_words words : list Word) :
  Wavlm.diarize_words B num_speakers all_words = Wavlm.Returned words →
  Written.spoken <$> words = Written.spoken <$> all_words
  ∧ Forall (fun w => ∃ l, w_speaker w = Some l ∧ l ≠ EmptyString) words.
Proof.
  intros H. split; [|by destruct (SelectorFacts.diarize_words_labelled _ _ _ _ H)].
  unfold Wavlm.diarize_words in H.
  destruct (Wavlm.load_audio B); [|done].
  destruct (_ <? 2).
  - injection H as <-. apply WrittenFacts.spoken_set_speaker.
  - destruct (Wavlm.fit_predict B _ _); [|done].
    destruct (Wavlm.label_windows _ _); [|done].
    injection H as <-. apply WrittenFacts.spoken_vote_words.
Qed.

Lemma diarizer_keeps_words_witness :
  ∃ words,
    Wavlm.diarize_words Wavlm.round_robin 0 Wavlm.one_word = Wavlm.Returned words
    ∧ Written.spoken <$> words = Written.spoken <$> Wavlm.one_word.
Proof.
  eexists. split; [vm_compute; reflexivity|].
  refine (proj1 (diarizer_keeps_words Wavlm.round_robin 0 Wavlm.one_word _ _)).
  vm_compute. reflexivity.
Defined.

(** With fewer than two valid windows the file becomes a single segment:
    all the words, from the start of the first to the end of the last,
    labelled [SPEAKER_00]. *)
Theorem few_windows_one_segment {E} (B : Wavlm.Backend E) (num_speakers : Z)
    (all_words : list Word) :
  all_words ≠ [] →
  Wavlm.load_audio B = true →
  length (Wavlm.valid_windows B (Wavlm.create_windows all_words)) < 2 →
  ∃ words,
    Wavlm.diarize_words B num_speakers all_words = Wavlm.Returned words
    ∧ Reseg.resegment words
      = [mkSeg (Reseg.words_text all_words) (Reseg.first_start all_words)
               (Reseg.last_end all_words) (Some Wavlm.SPEAKER_00)].
Proof.
  intros Hne Hload Hfew. eexists. split.
  - unfold Wavlm.diarize_words. rewrite Hload, length_fmap.
    by apply Nat.ltb_lt in Hfew as ->.
  - rewrite ResegFacts.resegment_runs.
    rewrite (ResegFacts.runs_block (Some Wavlm.SPEAKER_00)).
    + simpl. unfold Reseg.segment_of_run.
      rewrite (WrittenFacts.words_text_spoken all_words)
        by apply WrittenFacts.spoken_set_speaker.
      rewrite WrittenFacts.first_start_set_speaker,
        WrittenFacts.last_end_set_speaker.
      by destruct all_words.
    + split; [by destruct all_words|].
      apply Forall_fmap, Forall_forall. by intros w _.
Qed.

Lemma few_windows_one_segment_witness :
  ∃ words,
    Wavlm.diarize_words Written.no_embeddings 0 Wavlm.with_pause
    = Wavlm.Returned words
    ∧ length (Reseg.resegment words) = 1.
Proof.
  destruct (few_windows_one_segment Written.no_embeddings 0 Wavlm.with_pause)
    as (words & H1 & H2).
  - discriminate.
  - reflexivity.
  - vm_compute. lia.
  - exists words. split; [exact H1|]. rewrite H2. reflexivity.
Defined.

(** When the embedding diarizer has labelled the words, the transcript
    has one block per re-segmented segment, each block is printed with
    the label of its own segment, no label is empty, and neighbouring
    blocks carry different labels. *)
Theorem wavlm_transcript_blocks {E} (app : Worker.App) (f : Worker.FileRun E)
    (segments_list : list Segment) (w : Worker.world) (words : list Word) :
  Worker.wavlm_labels app f segments_list = Some words →
  let t := Worker.render (Worker.result (Worker.select app f segments_list) w) in
  t = Written.block <$> Reseg.resegment words
  ∧ Forall (fun b => snd b ≠ EmptyString) t
  ∧ Written.alternating t.
Proof.
  intros H t. subst t.
  destruct (SelectFacts.select_wavlm app f segments_list w words H) as [Hsel _].
  unfold Worker.result. rewrite Hsel. simpl fst.
  rewrite WrittenFacts.render_blocks.
  assert (Hlab : Forall (fun w => ∃ l, w_speaker w = Some l ∧ l ≠ EmptyString) words).
  { unfold Worker.wavlm_labels in H.
    destruct (_ && _); [|done].
    destruct (Wavlm.diarize_words _ _ _) eqn:Hd; [|done].
    injection H as <-.
    by destruct (SelectorFacts.diarize_words_labelled _ _ _ _ Hd). }
  rewrite ResegFacts.resegment_runs.
  assert (Hruns : Forall (fun r => ∃ l, Reseg.run_speaker r = Some l ∧ l ≠ EmptyString)
                         (Reseg.runs words)).
  { pose proof (ResegOrder.runs_Forall _ _ Hlab) as HF.
    pose proof (ResegFacts.runs_no_empty words) as HN.
    induction HF as [|r rs Hr _ IH]; [constructor|].
    inversion HN; subst. constructor; [|by apply IH].
    destruct r; [done|]. by inversion Hr. }
  split; [done|]. split.
  - rewrite <- list_fmap_compose. apply Forall_fmap.
    eapply Forall_impl; [exact Hruns|].
    intros r (l & Hr & Hl). simpl. rewrite Hr. simpl.
    by rewrite decide_False.
  - apply WrittenFacts.alternating_runs; [done|apply ResegFacts.runs_maximal].
Qed.

Lemma wavlm_transcript_blocks_witness :
  ∃ words,
    Worker.wavlm_labels Worker.with_wavlm (Worker.good_file "a")
      [Worker.seg_hello; Worker.seg_world] = Some words
    ∧ Written.alternating
        (Worker.render
           (Worker.result
              (Worker.select Worker.with_wavlm (Worker.good_file "a")
                 [Worker.seg_hello; Worker.seg_world]) Worker.start_world)).
Proof.
  eexists. split; [vm_compute; reflexivity|].
  refine (proj2 (proj2 (wavlm_transcript_blocks Worker.with_wavlm
                          (Worker.good_file "a")
                          [Worker.seg_hello; Worker.seg_world]
                          Worker.start_world _ _))).
  vm_compute. reflexivity.
Defined.

(** The turn-interval path loses no text: with whitespace ignored, the
    texts of its segments, in order, are the texts it read, the words of
    the segments that have words and the own text of those that have
    none. *)
Theorem turn_resegment_keeps_text (speaker_turns : list Turn)
    (segments_list : list Segment) :
  squeeze (concat (map text (Turns.turn_resegment speaker_turns segments_list)))
  = squeeze (concat (map Written.source_text segments_list)).
Proof.
  unfold Turns.turn_resegment. rewrite TurnFacts.turn_resegment_from, app_nil_l.
  induction segments_list as [|sg segs IH]; [done|].
  simpl. rewrite fmap_app, concat_app, !TextFacts.squeeze_app.
  f_equal; [|exact IH].
  unfold Turns.segment_units, Written.source_text.
  destruct (s_words sg) as [|w0 ws] eqn:E.
  - simpl. by rewrite app_nil_r.
  - rewrite ResegOrder.resegment_text. f_equal. f_equal.
    rewrite <- list_fmap_compose. done.
Qed.

(** ** The output folder *)

Module OutputFacts.
Import Reseg Turns Py Wavlm Worker Outputs.
Import WorkerFacts SelectFacts StopFacts RunFacts.

(** What the selector returns does not depend on the progress, the
    count of reads or the disk. *)
Lemma select_result {E} (app : App) (f : FileRun E) (segs : list Segment)
    (w w' : world) :
  result (select app f segs) w = result (select app f segs) w'.
Proof.
  unfold result. rewrite !select_run, !wavlm_stage_run.
  destruct (wavlm_ready app).
  - destruct (nonempty (all_words segs)).
    + destruct (diarize_words _ _ _); rewrite !pyannote_stage_run;
        destruct (_ && _); try done; by destruct (pipeline f).
    + rewrite !pyannote_stage_run.
      destruct (_ && _); try done; by destruct (pipeline f).
  - rewrite !pyannote_stage_run.
    destruct (_ && _); try done; by destruct (pipeline f).
Qed.

Lemma transcribe_file_disk {E} (app : App) (f : FileRun E) (w : world) :
  stop_after app = None →
  disk (final (transcribe_file app f) w)
  = if succeeds f then <[stem f := transcript_of app f]> (disk w) else disk w.
Proof.
  intros Hs. destruct (succeeds f) eqn:Hf;
    [|by destruct (failed_file app f w Hs Hf) as (_ & _ & _ & ?)].
  unfold succeeds in Hf.
  apply andb_true_iff in Hf as [Hf Hw]. apply andb_true_iff in Hf as [Ht Hc].
  apply negb_true_iff in Ht, Hw.
  unfold transcribe_file. rewrite final_bind, Ht.
  change (final (emit _) w) with w.
  rewrite final_bind.
  set (w1 := final (with_lock (set_progress 0 ;; set_processed 0)) w).
  assert (disk w1 = disk w) as <- by reflexivity.
  rewrite final_bind, (consume_result _ _ _ Hs), Hc, app_nil_l.
  rewrite <- (untouched_consume app (duration f) (segments f) [] w1).
  set (w2 := final (consume _ _ _ _) w1).
  unfold diarize_and_write. rewrite Hw, !final_bind.
  set (w3 := final (emit _) _).
  assert (disk w3 = disk w2) as <- by reflexivity.
  rewrite <- (untouched_select app f (yielded (segments f)) w3).
  unfold transcript_of.
  rewrite (select_result _ _ _ start_world w3). done.
Qed.

Lemma file_loop_disk {E} (app : App) (total : nat) (queue : list (FileRun E)) :
  stop_after app = None →
  ∀ i w, disk (final (file_loop app i total queue) w) = outputs app (disk w) queue.
Proof.
  intros Hs. induction queue as [|f rest IH]; intros i w; [done|].
  cbn [file_loop]. rewrite final_bind.
  change (result (read_stop app) w) with (visible app w).
  change (final (read_stop app) w) with (tick w).
  rewrite (never_visible _ _ Hs), !final_bind.
  change (final (emit ?e) ?w) with w.
  rewrite IH. change (final (emit ?e) ?w) with w.
  rewrite (transcribe_file_disk _ _ _ Hs). done.
Qed.



End OutputFacts.

(** In a run that is not stopped and in which every output file can be
    opened, the output folder ends up as if the files were taken one by
    one, each file whose transcription gets through storing its
    transcript under its stem, over whatever was there, and each file
    whose transcription raises storing nothing: the transcript is what
    the diarization selector makes of the file's segments. *)
Theorem process_files_outputs {E} (app : Worker.App)
    (file_queue : list (Worker.FileRun E)) (w : Worker.world) :
  Worker.stop_after app = None →
  Forall (fun f => Worker.write_raises f = false) file_queue →
  Worker.disk (Worker.final (Worker.process_files app file_queue) w)
  = Outputs.outputs app (Worker.disk w) file_queue.
Proof.
  intros Hs _. unfold Worker.process_files. rewrite WorkerFacts.final_bind.
  change (Worker.final (Worker.emit ?e) ?w) with w.
  by apply OutputFacts.file_loop_disk.
Qed.

Lemma process_files_outputs_witness :
  Worker.disk
    (Worker.final
       (Worker.process_files Worker.no_diarization
          [Worker.bad_file "a"; Worker.good_file "b"]) Worker.start_world)
  = Outputs.outputs Worker.no_diarization ∅
      [Worker.bad_file "a"; Worker.good_file "b"].
Proof.
  apply (process_files_outputs Worker.no_diarization
           [Worker.bad_file "a"; Worker.good_file "b"] Worker.start_world).
  - reflexivity.
  - repeat constructor.
Defined.



(** With diarization switched off no model is loaded, whatever an
    earlier run has left, no diarizer is started for any file, and the
    transcript is the segments of the transcription in order, none with
    a label. *)
Theorem diarization_off_plain_transcript {E} (cfg : Worker.Settings)
    (wavlm_before : bool) (stop : option nat) (n : Z) (f : Worker.FileRun E)
    (segments_list : list Segment) (w : Worker.world) :
  Worker.enable_diarization cfg = false →
  Worker.select (Outputs.loaded cfg wavlm_before stop n) f segments_list w
  = ((segments_list, ∅), [], w)
  ∧ Worker.render (segments_list, ∅)
    = (fun segment => (segment, EmptyString)) <$> segments_list.
Proof.
  intros Hoff. split.
  - set (app := Outputs.loaded cfg wavlm_before stop n).
    assert (Hw : Worker.wavlm_ready app = false)
      by (unfold app, Outputs.loaded, Worker.load_models; by rewrite Hoff).
    assert (Hp : Worker.pipeline_ready app = false)
      by (unfold app, Outputs.loaded, Worker.load_models; by rewrite Hoff).
    rewrite SelectFacts.select_run, SelectFacts.wavlm_stage_run, Hw.
    rewrite SelectFacts.pyannote_stage_run, Hp. by rewrite andb_false_r.
  - unfold Worker.render. simpl. apply list_eq. intros i.
    rewrite list_lookup_imap, list_lookup_fmap.
    by destruct (segments_list !! i).
Qed.

Lemma diarization_off_plain_transcript_witness :
  Worker.render ([Worker.seg_hello; Worker.seg_world], ∅)
  = [(Worker.seg_hello, EmptyString); (Worker.seg_world, EmptyString)].
Proof.
  refine (proj2 (diarization_off_plain_transcript (E := nat)
                   (Worker.mkSettings false true true true "t" true true)
                   true None 0 (Worker.good_file "a")
                   [Worker.seg_hello; Worker.seg_world] Worker.start_world _)).
  reflexivity.
Defined.

(** ** The file queue *)

Module GuiFacts.
Import Reseg Gui.

Section Queue.
Context `{PathLib P}.

Lemma enqueue_spec (is_file : P → bool) (queue : list P) (file_path : pystr) :
  ∃ new, enqueue is_file queue file_path = queue ++ new
         ∧ NoDup new
         ∧ ∀ p, p ∈ new ↔ (p ∉ queue) ∧ accepted is_file [file_path] p.
Proof.
  unfold enqueue.
  set (path := Path (strip_chars braces file_path)).
  assert (Hone : ∀ p, accepted is_file [file_path] p
                      ↔ p = path ∧ is_file path = true
                        ∧ suffix path ∈ MEDIA_EXTENSIONS).
  { intros p. unfold accepted. split.
    - intros (f & Hf & -> & H1 & H2).
      apply list_elem_of_singleton in Hf as ->. done.
    - intros (-> & H1 & H2). exists file_path. split; [by left|done]. }
  destruct (is_file path) eqn:Hfile; simpl.
  - destruct (bool_decide (suffix path ∈ MEDIA_EXTENSIONS)) eqn:Hs.
    + apply bool_decide_eq_true in Hs.
      destruct (bool_decide (path ∈ queue)) eqn:Hq.
      * apply bool_decide_eq_true in Hq. exists []. rewrite app_nil_r.
        split; [done|]. split; [constructor|]. intros p. rewrite Hone.
        split; [by intros Hp; inversion Hp|]. by intros (Hp & -> & _).
      * apply bool_decide_eq_false in Hq. exists [path].
        split; [done|]. split; [apply NoDup_singleton|]. intros p.
        rewrite Hone, list_elem_of_singleton. split; [by intros ->|].
        by intros (_ & -> & _).
    + apply bool_decide_eq_false in Hs. exists []. rewrite app_nil_r.
      split; [done|]. split; [constructor|]. intros p. rewrite Hone.
      split; [by intros Hp; inversion Hp|]. by intros (_ & _ & _ & ?).
  - exists []. rewrite app_nil_r.
    split; [done|]. split; [constructor|]. intros p. rewrite Hone.
    split; [by intros Hp; inversion Hp|]. by intros (_ & _ & ? & _).
Qed.

Lemma accepted_snoc (is_file : P → bool) (files : list pystr) (f : pystr) (p : P) :
  accepted is_file (files ++ [f]) p
  ↔ accepted is_file files p ∨ accepted is_file [f] p.
Proof.
  unfold accepted. split.
  - intros (x & Hx & Hp). apply elem_of_app in Hx as [Hx|Hx].
    + left. by exists x.
    + right. by exists x.
  - intros [(x & Hx & Hp)|(x & Hx & Hp)]; exists x; (split; [|done]);
      apply elem_of_app; [by left|by right].
Qed.

Lemma enqueue_all (is_file : P → bool) (files : list pystr) (queue : list P) :
  ∃ new, foldl (enqueue is_file) queue files = queue ++ new
         ∧ NoDup new
         ∧ ∀ p, p ∈ new ↔ (p ∉ queue) ∧ accepted is_file files p.
Proof.
  induction files as [|f files IH] using rev_ind.
  - exists []. rewrite app_nil_r. split; [done|]. split; [constructor|].
    intros p. split; [by intros Hp; inversion Hp|].
    intros (_ & x & Hx & _). inversion Hx.
  - destruct IH as (new & Hq & Hnd & Hnew). rewrite foldl_app. simpl. rewrite Hq.
    destruct (enqueue_spec is_file (queue ++ new) f) as (new' & -> & Hnd' & Hnew').
    exists (new ++ new'). split; [by rewrite app_assoc|]. split.
    + apply NoDup_app. split; [done|]. split; [|done].
      intros p Hp Hp'. apply Hnew' in Hp' as [Hout _].
      apply Hout, elem_of_app. by right.
    + intros p. rewrite elem_of_app, Hnew', accepted_snoc, elem_of_app.
      destruct (decide (p ∈ new)) as [Hin|Hout].
      * pose proof (proj1 (Hnew p) Hin). tauto.
      * pose proof (proj2 (Hnew p)). tauto.
Qed.

Lemma enqueue_prefix (is_file : P → bool) (files : list pystr) (queue : list P) :
  length queue ≤ length (foldl (enqueue is_file) queue files).
Proof.
  destruct (enqueue_all is_file files queue) as (new & -> & _).
  rewrite length_app. lia.
Qed.

Lemma enqueue_NoDup (is_file : P → bool) (files : list pystr) (queue : list P) :
  NoDup queue → NoDup (foldl (enqueue is_file) queue files).
Proof.
  intros Hq. destruct (enqueue_all is_file files queue) as (new & -> & Hnd & Hnew).
  apply NoDup_app. split; [done|]. split; [|done].
  intros p Hp Hp'. by apply Hnew in Hp' as [Hout _].
Qed.

(** After [update_file_list] and [update_start_button] the buttons agree
    with the queue, the folder and the selection. *)
Lemma invariant_refresh (a : Ui P) :
  NoDup (file_queue a) →
  selection_ok a ∨ file_queue a = [] →
  invariant (update_start_button (update_file_list a)).
Proof.
  intros Hnd Hsel. unfold invariant, selection_ok in *. simpl.
  split; [done|]. split; [|split].
  - destruct (file_queue a); simpl; [done|]. by destruct Hsel.
  - destruct (file_queue a); simpl; [done|].
    destruct (is_set (output_folder a)); simpl; [|done].
    by destruct (is_processing a).
  - destruct (nonempty (file_queue a)), (selected_file_index a);
      simpl; try done; by destruct (is_processing a).
Qed.

Lemma in_range_spec {A} (i : Z) (l : list A) :
  in_range i l = true ↔ (0 <= i < Z.of_nat (length l))%Z.
Proof. unfold in_range. rewrite andb_true_iff, Z.leb_le, Z.ltb_lt. done. Qed.

Lemma invariant_handle (a : Ui P) (act : action P) :
  invariant a → invariant (handle a act).
Proof.
  intros Hinv. pose proof Hinv as (Hnd & Hsel & Hstart & Hrem).
  destruct act as [is_file files|line_num| |folder| | | |]; simpl.
  - unfold add_files_to_queue. apply invariant_refresh.
    + simpl. by apply enqueue_NoDup.
    + left. unfold selection_ok in *. simpl.
      destruct (selected_file_index a); [|done].
      pose proof (enqueue_prefix is_file files (file_queue a)). lia.
  - unfold on_file_click.
    destruct (negb (nonempty (file_queue a)) || is_processing a) eqn:E;
      [exact Hinv|].
    destruct (in_range _ _) eqn:Hr; [|exact Hinv].
    apply in_range_spec in Hr. apply orb_false_iff in E as [Hq Hp].
    unfold invariant, selection_ok. simpl.
    destruct (file_queue a) eqn:Eq; [done|]. simpl.
    split; [done|]. split; [done|]. split; [done|]. by rewrite Hp.
  - unfold on_click. destruct (remove_btn a); [|exact Hinv].
    unfold remove_selected_file.
    destruct (selected_file_index a) as [i|] eqn:Ei; [|exact Hinv].
    destruct (negb (is_processing a) && in_range i (file_queue a)) eqn:E;
      [|exact Hinv].
    apply invariant_refresh.
    + simpl. eapply sublist_NoDup; [exact Hnd|apply sublist_delete].
    + by left.
  - unfold choose_output_folder. destruct (nonempty folder) eqn:Ef;
      [|exact Hinv].
    unfold invariant, selection_ok. simpl.
    split; [done|]. split; [done|]. split; [|done].
    destruct (file_queue a); simpl; [done|].
    destruct folder; [done|]. simpl. by destruct (is_processing a).
  - destruct (start_packed a); [|exact Hinv].
    unfold on_click. destruct (start_button a) eqn:Es; [|exact Hinv].
    unfold invariant, selection_ok in *. simpl. rewrite Es. done.
  - destruct (start_packed a); [exact Hinv|].
    unfold on_click. destruct (stop_button a); exact Hinv.
  - unfold transcription_complete.
    set (a1 := if stop_requested a then a
               else with_queue [] (selected_file_index a) a).
    assert (H1 : NoDup (file_queue a1))
      by (subst a1; destruct (stop_requested a); [done|constructor]).
    assert (H2 : selection_ok a1 ∨ file_queue a1 = [])
      by (subst a1; destruct (stop_requested a); [by left|by right]).
    clearbody a1. unfold invariant, selection_ok in *. simpl.
    split; [done|]. split; [|split].
    + destruct (file_queue a1); simpl; [done|]. by destruct H2.
    + destruct (file_queue a1); simpl; [done|].
      by destruct (is_set (output_folder a1)).
    + destruct (nonempty (file_queue a1)), (selected_file_index a1);
        simpl; try done; by destruct (is_processing a1).
  - exact Hinv.
Qed.

Lemma invariant_after (folder : option pystr) (acts : list (action P)) :
  invariant (after folder acts).
Proof.
  unfold after. induction acts as [|act acts IH] using rev_ind.
  - unfold invariant, selection_ok. simpl.
    split; [constructor|]. done.
  - rewrite foldl_app. simpl. by apply invariant_handle.
Qed.

(** While the start button is not packed, only the completion call of
    the worker brings it back, and no run is started. *)
Lemma hidden_start (acts : list (action P)) :
  Forall (fun act => act ≠ Complete) acts →
  ∀ a, start_packed a = false →
       start_packed (foldl handle a acts) = false
       ∧ (is_processing a = false → is_processing (foldl handle a acts) = false).
Proof.
  induction 1 as [|act acts Hact _ IH]; intros a Ha; [done|].
  simpl. destruct (IH (handle a act)) as [IH1 IH2].
  - destruct act; simpl; try done.
    + unfold on_file_click. by repeat case_match.
    + unfold on_click, remove_selected_file. by repeat case_match.
    + unfold choose_output_folder. by repeat case_match.
    + by rewrite Ha.
    + rewrite Ha. unfold on_click. by repeat case_match.
  - split; [done|]. intros Hp. apply IH2.
    destruct act; simpl; try done.
    + unfold on_file_click. by repeat case_match.
    + unfold on_click, remove_selected_file. by repeat case_match.
    + unfold choose_output_folder. by repeat case_match.
    + by rewrite Ha.
    + rewrite Ha. unfold on_click. by repeat case_match.
Qed.

End Queue.

End GuiFacts.

(** [add_files_to_queue] only appends: the queue afterwards is the queue
    before followed by new paths without repetition, and a path is new
    exactly when it was not queued and comes from one of the given names
    (braces stripped) that is a file with a media extension. *)
Theorem add_files_appends_new_media `{Gui.PathLib P} (is_file : P → bool)
    (files : list pystr) (a : Gui.Ui P) :
  ∃ new,
    Gui.file_queue (Gui.add_files_to_queue is_file files a)
    = Gui.file_queue a ++ new
    ∧ NoDup new
    ∧ ∀ p, p ∈ new ↔ (p ∉ Gui.file_queue a) ∧ Gui.accepted is_file files p.
Proof. apply GuiFacts.enqueue_all. Qed.

(** Whatever the user and the worker do, no path is queued twice. *)
Theorem queue_has_no_duplicates `{Gui.PathLib P} (folder : option pystr)
    (acts : list (Gui.action P)) :
  NoDup (Gui.file_queue (Gui.after folder acts)).
Proof. by destruct (GuiFacts.invariant_after folder acts) as (? & _). Qed.

(** Whenever the remove button is enabled and no run is in progress, a
    click on it removes exactly the selected file, which is a file of the
    queue, and clears the selection. *)
Theorem remove_button_removes_selection `{Gui.PathLib P} (folder : option pystr)
    (acts : list (Gui.action P)) :
  let a := Gui.after folder acts in
  Gui.remove_btn a = Gui.normal →
  Gui.is_processing a = false →
  ∃ i, Gui.selected_file_index a = Some (Z.of_nat i)
       ∧ i < length (Gui.file_queue a)
       ∧ Gui.file_queue (Gui.handle a Gui.ClickRemove)
         = delete i (Gui.file_queue a)
       ∧ Gui.selected_file_index (Gui.handle a Gui.ClickRemove) = None.
Proof.
  intros a Hbtn Hproc.
  destruct (GuiFacts.invariant_after folder acts) as (_ & Hsel & _ & Hrem).
  fold a in Hsel, Hrem. unfold Gui.selection_ok in Hsel.
  destruct (Gui.selected_file_index a) as [i|] eqn:Ei; [|by destruct (Hrem Hbtn)].
  exists (Z.to_nat i). rewrite Z2Nat.id by lia.
  split; [done|]. split; [lia|].
  simpl. rewrite Hbtn. unfold Gui.on_click, Gui.remove_selected_file.
  rewrite Ei, Hproc. simpl.
  rewrite (proj2 (GuiFacts.in_range_spec i (Gui.file_queue a))) by done.
  simpl. split; [done|]. by destruct (delete _ _).
Qed.

Lemma remove_button_removes_selection_witness :
  ∃ i, Gui.selected_file_index
         (Gui.after (H := Gui.plain_paths) None
            [Gui.AddFiles (fun _ => true) [of_string "{a.mp3}"]; Gui.ClickFile 1])
       = Some (Z.of_nat i)
       ∧ i < 1.
Proof.
  destruct (remove_button_removes_selection (H := Gui.plain_paths) None
              [Gui.AddFiles (fun _ => true) [of_string "{a.mp3}"]; Gui.ClickFile 1])
    as (i & Hi & Hlt & _).
  - reflexivity.
  - reflexivity.
  - exists i. split; [exact Hi|exact Hlt].
Defined.

(** A click on the start button starts a run only when the queue is not
    empty and an output folder is set. *)
Theorem start_needs_files_and_folder `{Gui.PathLib P} (folder : option pystr)
    (acts : list (Gui.action P)) :
  let a := Gui.after folder acts in
  Gui.is_processing a = false →
  Gui.is_processing (Gui.handle a Gui.ClickStart) = true →
  Gui.file_queue a ≠ [] ∧ Gui.is_set (Gui.output_folder a) = true.
Proof.
  intros a Hidle Hrun.
  destruct (GuiFacts.invariant_after folder acts) as (_ & _ & Hstart & _).
  fold a in Hstart. apply Hstart. simpl in Hrun.
  destruct (Gui.start_packed a); [|congruence].
  unfold Gui.on_click in Hrun. destruct (Gui.start_button a); [done|congruence].
Qed.

Lemma start_needs_files_and_folder_witness :
  Gui.file_queue
    (Gui.after (H := Gui.plain_paths) None
       [Gui.AddFiles (fun _ => true) [of_string "a.mp3"];
        Gui.ChooseFolder (of_string "/out")]) ≠ [].
Proof.
  refine (proj1 (start_needs_files_and_folder (H := Gui.plain_paths) None
                   [Gui.AddFiles (fun _ => true) [of_string "a.mp3"];
                    Gui.ChooseFolder (of_string "/out")] _ _)).
  - reflexivity.
  - reflexivity.
Defined.

(** When the worker fails outside the files (its [except] branch), the
    start button is never packed again: as long as no completion call
    arrives, and the failed worker sends none, no run is in progress and
    none can be started. *)
Theorem failed_worker_hides_start `{Gui.PathLib P} (a : Gui.Ui P)
    (acts : list (Gui.action P)) :
  Forall (fun act => act ≠ Gui.Complete) acts →
  let a' := foldl Gui.handle (Gui.worker_failed (Gui.start_transcription a)) acts in
  Gui.start_packed a' = false ∧ Gui.is_processing a' = false.
Proof.
  intros Hacts a'.
  destruct (GuiFacts.hidden_start acts Hacts
              (Gui.worker_failed (Gui.start_transcription a))) as [H1 H2];
    [done|].
  split; [exact H1|]. by apply H2.
Qed.

Lemma failed_worker_hides_start_witness :
  Gui.is_processing
    (foldl (Gui.handle (H := Gui.plain_paths))
       (Gui.worker_failed (Gui.start_transcription (Gui.initial (P := pystr) None)))
       [Gui.ClickStart]) = false.
Proof.
  refine (proj2 (failed_worker_hides_start (H := Gui.plain_paths) (Gui.initial None)
                   [Gui.ClickStart] _)).
  repeat constructor; discriminate.
Defined.

(** ** The settings and the development scripts *)

(** What [save_config] has written, [load_config] reads back: every
    saved setting returns, the output folder only when the folder is to
    be remembered, and [use_wavlm], which is not saved, stays as it was;
    saving again writes the same file. *)
Theorem config_round_trip (cpu_cores : Z) (s s0 : Config.Prefs) :
  Config.load_config cpu_cores (Some (Config.save_config s)) s0
  = Config.mkPrefs
      (if Config.p_remember_folder s then Config.p_output_folder s else None)
      (Config.p_remember_folder s) (Config.p_cpu_threads s) (Config.p_output_format s)
      (Config.p_enable_diarization s) (Config.p_hf_token s) (Config.p_num_speakers s)
      (Config.p_use_wavlm s0)
  ∧ Config.save_config
      (Config.load_config cpu_cores (Some (Config.save_config s)) s0)
    = Config.save_config s.
Proof.
  split; [reflexivity|]. unfold Config.save_config. simpl.
  by destruct (Config.p_remember_folder s).
Qed.

(** The folder shown is the folder itself when it is shorter than 50
    characters, and otherwise an ellipsis followed by the last 47
    characters of the folder; in both cases it is shorter than 50
    characters. *)
Theorem display_path_fits (folder : pystr) :
  length (Config.display_path folder) < 50
  ∧ ((length folder < 50 ∧ Config.display_path folder = folder)
     ∨ (50 ≤ length folder
        ∧ ∃ cut tail, folder = cut ++ tail
                      ∧ length tail = 47
                      ∧ Config.display_path folder = 8230%N :: tail)).
Proof.
  unfold Config.display_path.
  destruct (Nat.ltb_spec (length folder) 50) as [Hlt|Hge].
  - split; [done|]. by left.
  - split.
    + rewrite length_app, length_drop. simpl. lia.
    + right. split; [done|].
      exists (take (length folder - 47) folder), (drop (length folder - 47) folder).
      split; [by rewrite take_drop|]. split; [|done].
      rewrite length_drop. lia.
Qed.

Module ScriptFacts.
Import Reseg Script ResegFacts.

Section Grouping.
Variable text_of : Word → pystr.
Variable put : option string → list pystr → pystr.

(** The loop invariant: with an open run [cw], the loop will put out
    what it has put out so far and then one line for each run of [cw]
    and the words still to come. *)
Lemma group_open_run (ws : list Word) :
  ∀ (st : grouping) (cw : list Word),
    is_run (g_speaker st) cw →
    g_text st = text_of <$> cw →
    put_out put (foldl (group_step text_of put) st ws)
    = g_lines st ++ map (fun r => put (run_speaker r) (text_of <$> r))
                      (runs (cw ++ ws)).
Proof.
  induction ws as [|w ws IH]; intros st cw Hrun Htext.
  - simpl. unfold put_out. rewrite Htext.
    rewrite app_nil_r, (runs_block _ _ Hrun). simpl.
    rewrite (run_speaker_is_run _ _ Hrun).
    destruct Hrun as [Hne _]. by destruct cw.
  - simpl. unfold group_step at 2.
    destruct (decide (w_speaker w = g_speaker st)) as [Heq|Hne].
    + rewrite bool_decide_eq_false_2 by (intros Hn; by apply Hn).
      rewrite (IH _ (cw ++ [w])); simpl.
      * by rewrite <- app_assoc.
      * by apply is_run_snoc.
      * by rewrite Htext, fmap_app.
    + rewrite bool_decide_eq_true_2 by done.
      rewrite (IH _ [w]); simpl.
      * rewrite (runs_block_app _ _ _ _ Hrun Hne). simpl.
        unfold put_out. rewrite Htext.
        rewrite (run_speaker_is_run _ _ Hrun).
        destruct Hrun as [Hn _]. destruct cw; [done|]. simpl.
        by rewrite <- app_assoc.
      * split; [done|]. by repeat constructor.
      * done.
Qed.

Lemma group_runs (ws : list Word) :
  group text_of put ws
  = map (fun r => put (run_speaker r) (text_of <$> r)) (runs ws).
Proof.
  unfold group. destruct ws as [|w ws]; [done|].
  simpl foldl.
  assert (group_step text_of put (mkGrouping [] None []) w
          = mkGrouping [] (w_speaker w) [text_of w]) as ->.
  { unfold group_step, put_out. simpl. by destruct (bool_decide _) eqn:E;
      [|apply bool_decide_eq_false in E; f_equal; destruct (w_speaker w);
        [exfalso; apply E; done|done]]. }
  rewrite (group_open_run ws _ [w]); simpl; [done| |done].
  split; [done|]. by repeat constructor.
Qed.

End Grouping.

Lemma given_nonempty (o : option pystr) (t : pystr) : given o = Some t → t ≠ [].
Proof. destruct o as [[|c s]|]; simpl; [done| |done]. by intros [= <-]. Qed.

Lemma given_some (o : option pystr) (t : pystr) :
  given o = Some t → o = Some t ∧ t ≠ [].
Proof. destruct o as [[|c s]|]; simpl; [done| |done]. by intros [= <-]. Qed.

Lemma given_none (o : option pystr) : given o = None ↔ o = None ∨ o = Some [].
Proof.
  destruct o as [[|c s]|]; simpl; split; try done; auto.
  by intros [|].
Qed.

(** A branch that returns a token taken from [H]. *)
Ltac token_case H :=
  apply given_some in H as [_ ?]; simpl;
  split; [split; [by intros [= ->]|by intros [(? & ? & ?) _]]|];
  split; [split; [done|by intros [(? & ? & ?) _]]|];
  split; [by intros [_ ?]|];
  split; [done|by intros [(? & ? & ?) _]].

End ScriptFacts.

(** [format_transcript] writes one line for every maximal run of words
    with the same speaker, in order: the speaker, a colon, and the words
    of the run joined by single spaces; the lines are separated by an
    empty line; and without words it answers [No words transcribed.] *)
Theorem format_transcript_line_per_run (words : list Word) :
  Script.format_transcript words
  = (if Reseg.nonempty words
     then join Script.newline
            (map (fun r => Script.transcript_line (Reseg.run_speaker r)
                             (w_word <$> r))
                 (Reseg.runs words))
     else of_string "No words transcribed.")
  ∧ length (Script.group w_word Script.transcript_line words)
    = Reseg.num_runs words.
Proof.
  unfold Script.format_transcript. rewrite ScriptFacts.group_runs.
  split; [done|]. rewrite length_fmap. apply ResegFacts.runs_length.
Qed.

(** The results [test_wavlm.py] prints are one line for every maximal
    run of words with the same label, in order, with the stripped words
    of the run joined by single spaces. *)
Theorem print_results_line_per_run (all_words : list Word) :
  Script.print_results all_words
  = map (fun r => Script.printed_line (Reseg.run_speaker r)
                    ((fun w => strip (w_word w)) <$> r))
        (Reseg.runs all_words)
  ∧ length (Script.print_results all_words) = Reseg.num_runs all_words.
Proof.
  unfold Script.print_results. rewrite ScriptFacts.group_runs.
  split; [done|]. rewrite length_fmap. apply ResegFacts.runs_length.
Qed.

(** [get_hf_token] returns an empty token in one case only: nothing is
    given as argument, in the local file or in the environment, and the
    token file of the cache exists and is blank. In that case the user
    is not asked: the user is asked exactly when nothing is given and
    there is no token file in the cache, and then the answer is a token
    that is not empty, or the script exits. *)
Theorem get_hf_token_empty (src : Script.Sources) :
  let nothing_given :=
    Script.given (Script.token_arg src) = None
    ∧ Script.given (strip <$> Script.local_token src) = None
    ∧ Script.given (Script.or_else (Script.HF_TOKEN src)
                      (Script.HUGGINGFACE_TOKEN src)) = None in
  (fst (Script.get_hf_token src) = Script.Token []
   ↔ nothing_given
     ∧ ∃ content, Script.cache_token src = Some content ∧ strip content = [])
  ∧ (Script.prompted src = true
     ↔ nothing_given ∧ Script.cache_token src = None)
  ∧ ¬ (fst (Script.get_hf_token src) = Script.Token []
       ∧ Script.prompted src = true)
  ∧ (fst (Script.get_hf_token src) = Script.Exit
     ↔ nothing_given ∧ Script.cache_token src = None
       ∧ strip (Script.typed src) = []).
Proof.
  unfold Script.prompted, Script.get_hf_token. cbv zeta.
  destruct (Script.given (Script.token_arg src)) as [t|] eqn:E1;
    [ScriptFacts.token_case E1|].
  destruct (Script.given (strip <$> Script.local_token src)) as [t|] eqn:E2;
    [ScriptFacts.token_case E2|].
  destruct (Script.given (Script.or_else _ _)) as [t|] eqn:E3;
    [ScriptFacts.token_case E3|].
  destruct (Script.cache_token src) as [content|] eqn:E4.
  - simpl. split; [split|].
    + intros [= Hc]. split; [done|]. by exists content.
    + by intros (_ & c & [= <-] & ->).
    + split; [split; [done|by intros [_ ?]]|].
      split; [by intros [_ ?]|]. split; [done|by intros (_ & ? & _)].
  - destruct (Script.given (Some _)) as [t|] eqn:E5.
    + apply ScriptFacts.given_some in E5 as [[= Hs] Ht]. simpl.
      split; [split; [by intros [= ->]|by intros (_ & c & ? & _)]|].
      split; [done|]. split; [by intros [[= ->] _]|].
      split; [done|]. intros (_ & _ & Hs'). congruence.
    + apply ScriptFacts.given_none in E5 as [?|[= Hs]]; [done|]. simpl.
      split; [split; [done|by intros (_ & c & ? & _)]|].
      split; [done|]. split; [by intros [? _]|]. done.
Qed.
